(** * kb-ai: client-side retrieval-augmented Q&A (script.js)

    A shallow embedding of the text utilities, the retrieval step, the
    citation parser, the import/export commands and the [ask] command of
    [src/node-guide-document/script.js], with the properties of the
    specification that concern them; then of ingestion ([indexFile]) and
    re-indexing ([rebuildAllEmbeddings]), with properties read off the code.

    Conventions of the model.
    - A JavaScript string is the list of its UTF-16 code units ([jsstr]).
    - JavaScript integers that index strings are [Z]; list positions are [nat].
    - The numbers held in embeddings and scores are IEEE 754 doubles
      ([float], the primitive binary64 numbers), added, multiplied and
      compared as JavaScript does, NaN and the infinities included.
    - A number read from JSON is a finite rational ([JNum]), [-0] or an
      infinity; the program never calculates with such a number.
    - The progress shown is a rational: the program only clamps it.
    - [async] functions are run to completion one after another (the page has
      one task actor); an exception is a [Throw] result of the command monad.
    - What the browser decides is a field of [Env]: the modules it can
      load, the clock, the rejections of IndexedDB requests, the number of
      arguments a call takes. *)

From Stdlib Require Import ZArith NArith QArith Qminmax Lia Ascii String Sorting.Sorted Permutation.
From Stdlib Require Import Floats.
From stdpp Require Import base list sorting gmap sets.

#[local] Set Warnings "-register-all".

Local Open Scope Z_scope.

(* ===================================================================== *)
(** ** JavaScript strings                                                 *)
(* ===================================================================== *)

Module JsString.

(** UTF-16 code units. *)
Definition jsstr : Type := list N.

Definition utf16 (cp : N) : list N :=
  if (cp <? 65536)%N then [cp]
  else let c := (cp - 65536)%N in [(55296 + c / 1024)%N; (56320 + c mod 1024)%N].

(** Decoder for the UTF-8 bytes of a source literal: [need] continuation
    bytes are still expected for the code point accumulated in [acc]. *)
Fixpoint utf8_aux (need : nat) (acc : N) (bs : list N) : list N :=
  match bs with
  | [] => []
  | b :: r =>
    match need with
    | O =>
      if (b <? 128)%N then b :: utf8_aux 0 0%N r
      else if (b <? 224)%N then utf8_aux 1 (b - 192)%N r
      else if (b <? 240)%N then utf8_aux 2 (b - 224)%N r
      else utf8_aux 3 (b - 240)%N r
    | S n =>
      let acc' := (acc * 64 + (b - 128))%N in
      match n with
      | O => utf16 acc' ++ utf8_aux 0 0%N r
      | S _ => utf8_aux n acc' r
      end
    end
  end.

Fixpoint bytes_of (s : string) : list N :=
  match s with
  | EmptyString => []
  | String a r => N_of_ascii a :: bytes_of r
  end.

(** The JavaScript string denoted by a literal of the source. *)
Definition js (s : string) : jsstr := utf8_aux 0 0%N (bytes_of s).

(** Code units used by name. *)
Definition NUL : N := 0%N.
Definition TAB : N := 9%N.
Definition LF : N := 10%N.
Definition CR : N := 13%N.
Definition SP : N := 32%N.

(** [WhiteSpace] and [LineTerminator] of ECMAScript: what [trim] strips. *)
Definition is_ws (c : N) : bool :=
  match c with
  | 9 | 10 | 11 | 12 | 13 | 32 | 160 | 5760
  | 8192 | 8193 | 8194 | 8195 | 8196 | 8197 | 8198 | 8199 | 8200 | 8201 | 8202
  | 8232 | 8233 | 8239 | 8287 | 12288 | 65279 => true
  | _ => false
  end%N.

Fixpoint drop_ws (l : jsstr) : jsstr :=
  match l with
  | [] => []
  | c :: r => if is_ws c then drop_ws r else l
  end.

(** [String.prototype.trim]. *)
Definition trim (l : jsstr) : jsstr := rev (drop_ws (rev (drop_ws l))).

(** [String.prototype.slice(start, end)] with its relative (negative)
    indices and clamping. *)
Definition slice (t : jsstr) (start end_ : Z) : jsstr :=
  let len := Z.of_nat (length t) in
  let from := if start <? 0 then Z.max (len + start) 0 else Z.min start len in
  let to := if end_ <? 0 then Z.max (len + end_) 0 else Z.min end_ len in
  take (Z.to_nat (to - from)) (drop (Z.to_nat from) t).

(** [Array.prototype.slice(0, k)], the only form the program uses on arrays. *)
Definition array_slice0 {A} (l : list A) (k : Z) : list A :=
  let len := Z.of_nat (length l) in
  let to := if k <? 0 then Z.max (len + k) 0 else Z.min k len in
  take (Z.to_nat to) l.

End JsString.
Export JsString.

Arguments js s%_string.

(* ===================================================================== *)
(** ** Doubles                                                            *)
(* ===================================================================== *)

(** The value of a double that is not NaN, counted in units of [2^-1074]
    (every finite double is a whole number of them); the infinities lie
    beyond every finite value. *)
Definition fval (x : spec_float) : Z :=
  match x with
  | S754_zero _ => 0
  | S754_nan => 0
  | S754_infinity s => cond_Zopp s (2 ^ 2098)
  | S754_finite s m e => cond_Zopp s (Z.pos m * 2 ^ (e + 1074))
  end.

Definition is_nan_sf (x : spec_float) : bool :=
  match x with S754_nan => true | _ => false end.

(** A number with the sign [s] that is neither zero nor NaN. *)
Definition signed (s : bool) (x : spec_float) : Prop :=
  match x with
  | S754_finite s' _ _ | S754_infinity s' => s' = s
  | _ => False
  end.

Definition fv (x : float) : Z := fval (Prim2SF x).

(** The number [x] is the integer [n]. *)
Definition whole (x : spec_float) (n : Z) : Prop :=
  is_nan_sf x = false /\ fval x = n * 2 ^ 1074.

(** The double [x] is the integer [n]. *)
Definition integer (x : float) (n : Z) : Prop :=
  PrimFloat.is_nan x = false /\ fv x = n * 2 ^ 1074.

(** [Math.min(x, y)] and [Math.max(x, y)]: NaN if an argument is NaN, and
    [-0] counts as smaller than [+0]. *)
Definition Math_min (x y : float) : float :=
  if PrimFloat.is_nan x || PrimFloat.is_nan y then nan
  else if (x <? y)%float then x
  else if (y <? x)%float then y
  else if PrimFloat.is_zero x && get_sign x then x else y.

Definition Math_max (x y : float) : float :=
  if PrimFloat.is_nan x || PrimFloat.is_nan y then nan
  else if (x <? y)%float then y
  else if (y <? x)%float then x
  else if PrimFloat.is_zero x && negb (get_sign x) then x else y.

(** ToIntegerOrInfinity, as [slice] applies it to an argument: NaN is 0,
    a finite number is cut towards zero; an infinity is given as a number
    beyond every double, which [slice] clamps like any other index. *)
Definition to_integer (x : float) : Z :=
  match Prim2SF x with
  | S754_nan | S754_zero _ => 0
  | S754_infinity s => cond_Zopp s (2 ^ 1024)
  | S754_finite s m e =>
    cond_Zopp s (if 0 <=? e then Z.pos m * 2 ^ e else Z.pos m / 2 ^ (- e))
  end.

(** The double of a natural number below [2^63] (exact below [2^53]; the
    length of a string is below [2^30]). *)
Definition of_nat (n : nat) : float := of_uint63 (Uint63.of_Z (Z.of_nat n)).

(* ===================================================================== *)
(** ** Text normalizer and chunker                                        *)
(* ===================================================================== *)

Definition CHUNK_CHARS : Z := 1200.
Definition CHUNK_OVERLAP : Z := 200.
Definition TOP_K : Z := 6.

(** [.replace(/\u0000/g, " ")] *)
Definition replace_nul (t : jsstr) : jsstr :=
  map (fun c => if (c =? NUL)%N then SP else c) t.

Definition is_sptab (c : N) : bool := (c =? SP)%N || (c =? TAB)%N.

(** [.replace(/[ \t]+/g, " ")]: [in_run] holds while the scan is inside a
    run whose replacement has already been written. *)
Fixpoint collapse_blanks_from (in_run : bool) (t : jsstr) : jsstr :=
  match t with
  | [] => []
  | c :: r =>
    if is_sptab c
    then (if in_run then collapse_blanks_from true r
          else SP :: collapse_blanks_from true r)
    else c :: collapse_blanks_from false r
  end.

Definition collapse_blanks (t : jsstr) : jsstr := collapse_blanks_from false t.

(** [.replace(/\r\n/g, "\n")]: one left-to-right pass; the text written by a
    replacement is not scanned again. *)
Fixpoint replace_crlf (t : jsstr) : jsstr :=
  match t with
  | c :: ((d :: r') as r) =>
    if (c =? CR)%N && (d =? LF)%N then LF :: replace_crlf r'
    else c :: replace_crlf r
  | _ => t
  end.

(** [.replace(/\n{3,}/g, "\n\n")]: of every maximal run of newlines the first
    two are kept; [run] counts the newlines of the current run seen so far. *)
Fixpoint collapse_newlines_from (run : nat) (t : jsstr) : jsstr :=
  match t with
  | [] => []
  | c :: r =>
    if (c =? LF)%N
    then (if (run <? 2)%nat then LF :: collapse_newlines_from (S run) r
          else collapse_newlines_from (S run) r)
    else c :: collapse_newlines_from 0 r
  end.

Definition collapse_newlines (t : jsstr) : jsstr := collapse_newlines_from 0 t.

(** [normalizeText(t)] for a string [t]. *)
Definition normalizeText (t : jsstr) : jsstr :=
  trim (collapse_newlines (replace_crlf (collapse_blanks (replace_nul t)))).

(** [normalizeText(t)] with its [t ?? ""]: a nullish argument ([None]) is
    read as the empty string. *)
Definition normalizeText_nullable (t : option jsstr) : jsstr :=
  normalizeText (default [] t).

(** The [while] loop of [chunkText] for a [chunkSize] and an [overlap]
    that are integers, one iteration per unit of [fuel]; [None] when the
    fuel runs out before the loop exits.  Below [2^52] the sums and
    differences of doubles that are integers are exact, so that [start]
    and [end] are integers as well and this is the loop on doubles of
    [Double.chunkLoop] (lemma [chunkLoop_double_integers]). *)
Fixpoint chunkLoop (fuel : nat) (t : jsstr) (chunkSize overlap start : Z)
    (out : list jsstr) : option (list jsstr) :=
  match fuel with
  | O => None
  | S fuel' =>
    let len := Z.of_nat (length t) in
    if start <? len then
      let end_ := Z.min len (start + chunkSize) in
      let piece := trim (slice t start end_) in
      let out' := if (30 <=? length piece)%nat then out ++ [piece] else out in
      if len <=? end_ then Some out'
      else chunkLoop fuel' t chunkSize overlap (Z.max 0 (end_ - overlap)) out'
    else Some out
  end.

(** [chunkText(text, chunkSize, overlap)] for integers [chunkSize] and
    [overlap]. *)
Definition chunkText_fuel (fuel : nat) (text : jsstr) (chunkSize overlap : Z)
    : option (list jsstr) :=
  let t := normalizeText text in
  match t with
  | [] => Some []
  | _ => chunkLoop fuel t chunkSize overlap 0 []
  end.

(** The same function for any two doubles: [start] and [end] are doubles,
    and [slice] cuts them to integers. *)
Module Double.

Fixpoint chunkLoop (fuel : nat) (t : jsstr) (chunkSize overlap start : float)
    (out : list jsstr) : option (list jsstr) :=
  match fuel with
  | O => None
  | S fuel' =>
    let len := of_nat (length t) in
    if (start <? len)%float then
      let end_ := Math_min len (start + chunkSize)%float in
      let piece := trim (slice t (to_integer start) (to_integer end_)) in
      let out' := if (30 <=? length piece)%nat then out ++ [piece] else out in
      if (len <=? end_)%float then Some out'
      else chunkLoop fuel' t chunkSize overlap (Math_max 0 (end_ - overlap)%float) out'
    else Some out
  end.

Definition chunkText_fuel (fuel : nat) (text : jsstr) (chunkSize overlap : float)
    : option (list jsstr) :=
  let t := normalizeText text in
  match t with
  | [] => Some []
  | _ => chunkLoop fuel t chunkSize overlap 0%float []
  end.

End Double.


(** The window sequence in the words of the specification: window [k] spans
    [start_k, start_k + size) clamped to the end of the text, and the next
    window starts at [end_k - overlap], never below zero.  [n] bounds the
    number of windows listed. *)
Fixpoint spec_windows (n : nat) (len size overlap start : Z) : list (Z * Z) :=
  match n with
  | O => []
  | S n' =>
    if start <? len then
      let end_ := Z.min len (start + size) in
      (start, end_) ::
        (if len <=? end_ then []
         else spec_windows n' len size overlap (Z.max 0 (end_ - overlap)))
    else []
  end.

(** What a list of windows contributes to the result: each window is cut
    out and trimmed, and kept when 30 code units or more remain. *)
Definition emitted (t : jsstr) (ws : list (Z * Z)) : list jsstr :=
  filter (fun p => (30 <= length p)%nat)
         (map (fun w => trim (slice t (fst w) (snd w))) ws).

(** Number of code units of a window that are not white space. *)
Definition non_ws_count (p : jsstr) : nat :=
  length (filter (fun c => is_ws c = false) p).

(* ===================================================================== *)
(** ** Values: JSON data, numbers, chunks                                 *)
(* ===================================================================== *)

(** Decimal digits of a natural number, as [String(n)] writes them. *)
Fixpoint dec_aux (fuel : nat) (n : N) (acc : jsstr) : jsstr :=
  match fuel with
  | O => acc
  | S f =>
    let acc' := (48 + n mod 10)%N :: acc in
    if (n / 10 =? 0)%N then acc' else dec_aux f (n / 10)%N acc'
  end.

Definition dec (n : N) : jsstr := dec_aux (S (N.to_nat (N.log2 n))) n [].

(** What [JSON.parse] returns.  A number is a finite double other than
    [-0], by its value ([JNum]), or [-0], or an infinity (a literal beyond
    the doubles, such as [1e999], is read as one). *)
Inductive json : Type :=
| JNull
| JBool (b : bool)
| JNum (x : Q)
| JNegZero
| JInfinity (negative : bool)
| JStr (s : jsstr)
| JArr (items : list json)
| JObj (members : list (jsstr * json)).

(** [JSON.parse(JSON.stringify(v))]: an infinity is written as [null] and
    [-0] as [0]; every other value is read back as it was. *)
Fixpoint json_roundtrip (v : json) : json :=
  match v with
  | JNegZero => JNum 0
  | JInfinity _ => JNull
  | JArr l => JArr (map json_roundtrip l)
  | JObj ms => JObj (map (fun kv => (fst kv, json_roundtrip (snd kv))) ms)
  | _ => v
  end.

(** A value that [JSON.stringify] writes and [JSON.parse] reads back
    unchanged: it holds no [-0] and no infinity. *)
Definition json_stable (v : json) : Prop := json_roundtrip v = v.

Definition jsstr_eqb (a b : jsstr) : bool := bool_decide (a = b).

(** Own property of an object literal; the first entry of a name is the
    property (an object holds a name once). *)
Fixpoint assoc {A} (k : jsstr) (ms : list (jsstr * A)) : option A :=
  match ms with
  | [] => None
  | (k', v) :: r => if jsstr_eqb k' k then Some v else assoc k r
  end.

(** [v?.name] for the property names the program reads ([docs], [chunks],
    [id], ...): none of them is inherited, so only an object can answer;
    [None] is [undefined]. *)
Definition get (v : json) (name : jsstr) : option json :=
  match v with
  | JObj ms => assoc name ms
  | _ => None
  end.

(** ToBoolean. *)
Definition truthy (v : option json) : bool :=
  match v with
  | None | Some JNull => false
  | Some (JBool b) => b
  | Some (JNum x) => negb (Qeq_bool x 0)
  | Some JNegZero => false
  | Some (JInfinity _) => true
  | Some (JStr s) => negb (jsstr_eqb s [])
  | Some (JArr _) | Some (JObj _) => true
  end.

(** Exceptions and results of commands. *)
Inductive Exn : Type :=
| TypeError
| SyntaxError
| RangeError
| DataError
| ExternalError (what : jsstr).

Inductive Result (A : Type) : Type :=
| Ok (a : A)
| Throw (e : Exn).
Arguments Ok {A} a.
Arguments Throw {A} e.

(** A string iterates by code points: a high surrogate followed by a low
    one is a single element. *)
Definition is_high (c : N) : bool := (55296 <=? c)%N && (c <=? 56319)%N.
Definition is_low (c : N) : bool := (56320 <=? c)%N && (c <=? 57343)%N.

Fixpoint code_points (s : jsstr) : list jsstr :=
  match s with
  | c :: ((d :: r') as r) =>
    if is_high c && is_low d then [c; d] :: code_points r'
    else [c] :: code_points r
  | [c] => [[c]]
  | [] => []
  end.

(** The elements of the spread [...v] in an argument list. *)
Definition spread_args (v : json) : Result (list json) :=
  match v with
  | JArr l => Ok l
  | JStr s => Ok (map JStr (code_points s))
  | _ => Throw TypeError
  end.

(** A call with the arguments [args]: an engine takes only so many
    ([limit]), and throws RangeError when given more. *)
Definition call_args {A} (limit : N) (args : list A) : Result (list A) :=
  if (limit <? N.of_nat (length args))%N then Throw RangeError else Ok args.

(** ToPrimitive, on which ToString and ToNumber rest, fails on some JSON
    data.  An object is converted by its [toString] and [valueOf]; an own
    property of that name hides the method, and no JSON value is callable.
    With an own [toString] nothing is left that gives a primitive (the
    inherited [valueOf] gives the object back), and TypeError is thrown.
    An array is converted by [join], which converts its elements. *)
Fixpoint unconvertible (v : json) : bool :=
  match v with
  | JObj ms => match assoc (js "toString") ms with Some _ => true | None => false end
  | JArr l => existsb unconvertible l
  | _ => false
  end.

(** The same for a property value that may be [undefined]. *)
Definition throws_on_conversion (v : option json) : bool :=
  match v with
  | Some x => unconvertible x
  | None => false
  end.

Definition indexed {A} (f : A -> json) (l : list A) : list (jsstr * json) :=
  imap (fun i x => (dec (N.of_nat i), f x)) l.

(** The own enumerable properties copied by the object spread [{...x}]. *)
Definition spread_props (x : json) : list (jsstr * json) :=
  match x with
  | JObj ms => ms
  | JArr l => indexed (fun v => v) l
  | JStr s => indexed (fun c => JStr [c]) s
  | _ => []
  end.

(** An embedding: the contents of a [Float32Array], each entry read as
    the double it is. *)
Definition vec : Type := list float.

(** An element of [state.chunks]: an object whose [embedding] property is
    [null] ([None]) or a vector, and whose other properties ([id], [docId],
    [docName], [page], [text], and whatever an imported file added) are JSON
    data. *)
Record Chunk : Type := mkChunk {
  props : list (jsstr * json);
  embedding : option vec;
}.

Definition chunk_get (c : Chunk) (name : jsstr) : option json := assoc name (props c).

Definition without {A} (name : jsstr) (ms : list (jsstr * A)) : list (jsstr * A) :=
  filter (fun kv => jsstr_eqb (fst kv) name = false) ms.

(** [{ ...x, embedding: null }] *)
Definition raw_chunk (x : json) : Chunk :=
  {| props := without (js "embedding") (spread_props x); embedding := None |}.


(* ===================================================================== *)
(** ** Vector index: scoring and top-K                                    *)
(* ===================================================================== *)

(** [dot(a, b)]: [s] starts at 0 and takes [a[i] * b[i]] for each place
    below [min(a.length, b.length)], in order, each step rounded. *)
Definition dot (a b : vec) : float :=
  fold_left (fun s xy => (s + fst xy * snd xy)%float) (zip a b) 0%float.

(** The score in the words of the specification: the dot product over the
    first [n] places, the sum of the products taken place by place. *)
Fixpoint dot_product (n : nat) (a b : vec) : float :=
  match n with
  | O => 0%float
  | S m => (dot_product m a b + nth m a 0 * nth m b 0)%float
  end.

(** An entry [{ score, ch }] of the list built by [retrieveTopChunks]. *)
Record Scored : Type := mkScored {
  score : float;
  ch : Chunk;
}.

Section ArraySort.
Context {A : Type} (comparefn : A -> A -> float).

(** [x] comes from a position before every element of [l]: it stays in
    front of the first element that the comparator does not put before
    it. *)
Fixpoint sort_insert (x : A) (l : list A) : list A :=
  match l with
  | [] => [x]
  | y :: r =>
    if (0 <? comparefn x y)%float then y :: sort_insert x r
    else x :: l
  end.

(** [Array.prototype.sort(comparefn)].  The sort reads the sign of what
    the comparator returns (a NaN counts as 0) and is stable (ECMAScript
    2019), so with a consistent comparator its result is the one stable
    ordering of the input; insertion from the right computes it.  With a
    comparator that is not consistent the order is left to the engine,
    and this is one order an engine may give. *)
Definition array_sort (l : list A) : list A := foldr sort_insert [] l.
End ArraySort.

(** The comparator [(x, y) => y.score - x.score]. *)
Definition by_score_desc (x y : Scored) : float := (score y - score x)%float.

(** [topKByScore(items, k)] *)
Definition topKByScore (items : list Scored) (k : Z) : list Scored :=
  array_slice0 (array_sort by_score_desc items) k.

(** The list [scored] at the end of the loop of [retrieveTopChunks]: chunks
    whose [embedding] is falsy are skipped. *)
Definition scored_chunks (chunks : list Chunk) (queryEmbedding : vec) : list Scored :=
  omap (fun c => match embedding c with
                 | None => None
                 | Some e => Some {| score := dot queryEmbedding e; ch := c |}
                 end) chunks.

(** [retrieveTopChunks(queryEmbedding)] over [state.chunks]. *)
Definition retrieveTopChunks (chunks : list Chunk) (queryEmbedding : vec) : list Scored :=
  topKByScore (scored_chunks chunks queryEmbedding) TOP_K.

(** Entries of [l] whose score equals [s], in the order of [l]. *)
Definition with_score (s : float) (l : list Scored) : list Scored :=
  filter (fun x => (score x =? s)%float = true) l.

(* ===================================================================== *)
(** ** Citation parsing                                                   *)
(* ===================================================================== *)

(** A Number that came out of [Number(digits)]: a non-negative integer
    value of a double, or [Infinity]. *)
Inductive jsnum : Type :=
| Fin (n : N)
| Infinity.

#[global] Instance jsnum_eq_dec : EqDecision jsnum.
Proof. solve_decision. Defined.

#[global] Instance jsnum_countable : Countable jsnum.
Proof.
  refine (inj_countable' (fun x => match x with Fin n => Some n | Infinity => None end)
                         (fun o => match o with Some n => Fin n | None => Infinity end) _).
  intros []; reflexivity.
Defined.

(** Round-to-nearest-even of a natural number to a double (53-bit
    significand, largest exponent 1023). *)
Definition round_double (v : N) : jsnum :=
  if (v <? 2 ^ 53)%N then Fin v
  else
    let e := (N.log2 v - 52)%N in
    let q := (v / 2 ^ e)%N in
    let r := (v mod 2 ^ e)%N in
    let half := (2 ^ (e - 1))%N in
    let q' := if (half <? r)%N || ((r =? half)%N && N.odd q) then (q + 1)%N else q in
    let v' := (q' * 2 ^ e)%N in
    if (2 ^ 1024 <=? v')%N then Infinity else Fin v'.

Definition is_digit (c : N) : bool := (48 <=? c)%N && (c <=? 57)%N.

Definition decimal_value (ds : jsstr) : N :=
  fold_left (fun a c => (10 * a + (c - 48))%N) ds 0%N.

(** [Number(m[1])] for a capture of [\d+]. *)
Definition Number_of_digits (ds : jsstr) : jsnum := round_double (decimal_value ds).

(** The longest run of digits at the head of [l], and what follows it. *)
Fixpoint span_digits (l : jsstr) : jsstr * jsstr :=
  match l with
  | c :: r =>
    if is_digit c then let '(ds, rest) := span_digits r in (c :: ds, rest)
    else ([], l)
  | [] => ([], [])
  end.

Definition LBRACKET : N := 91%N.
Definition RBRACKET : N := 93%N.
Definition UPPER_C : N := 67%N.

(** The regular expression [\[C(\d+)\]] matched at the head of [l]: the
    capture when it matches. *)
Definition match_citation (l : jsstr) : option jsstr :=
  match l with
  | a :: b :: r =>
    if (a =? LBRACKET)%N && (b =? UPPER_C)%N then
      match span_digits r with
      | (d :: ds, c :: _) => if (c =? RBRACKET)%N then Some (d :: ds) else None
      | _ => None
      end
    else None
  | _ => None
  end.

(** The [while ((m = re.exec(answerText)) !== null)] loop, one code unit at
    a time: [skip] is the distance from the scan position to [re.lastIndex],
    the end of the last match. *)
Fixpoint scan_citations (skip : nat) (l : jsstr) (used : gset jsnum) : gset jsnum :=
  match l with
  | [] => used
  | _ :: r =>
    match skip with
    | S k => scan_citations k r used
    | O =>
      match match_citation l with
      | Some ds => scan_citations (length ds + 2) r ({[ Number_of_digits ds ]} ∪ used)
      | None => scan_citations 0 r used
      end
    end
  end.

(** [parseUsedCitations(answerText)] *)
Definition parseUsedCitations (answerText : jsstr) : gset jsnum :=
  scan_citations 0 answerText ∅.

(** The text ["[C" + digits + "]"]. *)
Definition citation_text (ds : jsstr) : jsstr := js "[C" ++ ds ++ js "]".

(** [needle] occurs in [hay] as a substring. *)
Definition occurs_in (needle hay : jsstr) : Prop :=
  exists pre post, hay = pre ++ needle ++ post.


(* ===================================================================== *)
(** ** The page: state, view, store                                       *)
(* ===================================================================== *)

(** The tensor an embedding pipeline returns: [dims = [n, d]] and the
    row-major [data]. *)
Record Tensor : Type := mkTensor {
  dims : nat * nat;
  data : list float;
}.

(** [state.embedder]: called with the texts (and the fixed options
    [{ pooling: "mean", normalize: true }]). *)
Definition Embedder : Type := list jsstr -> Result Tensor.

(** The Transformers.js module: [pipeline("feature-extraction", model,
    { device })]. *)
Record HF : Type := mkHF {
  pipeline : jsstr -> Result Embedder;
}.

Record ChatMessage : Type := mkChatMessage {
  role : jsstr;
  content : jsstr;
}.

(** The stream a completion request returns: the [delta.content] of each
    chunk ([None] when the chunk carries none), then the end of the stream
    or a failure. *)
Record Stream : Type := mkStream {
  deltas : list (option jsstr);
  failure : option Exn;
}.

(** [state.engine.chat.completions.create({ messages, temperature, ... })] *)
Definition Engine : Type := list ChatMessage -> Q -> Result Stream.

Inductive StoreName : Type :=
| STORE_DOCS
| STORE_CHUNKS.

(** The requests to IndexedDB whose rejection a command awaits: opening
    the database ([openDB], once in [dbClearAll] and once in [dbPutMany])
    and the completion of a transaction ([txDone]). *)
Inductive DbRequest : Type :=
| OpenToClear
| ClearTx (store : StoreName)
| OpenToPut (store : StoreName)
| PutTx (store : StoreName).

(** What the page takes from its surroundings. *)
Record Env : Type := mkEnv {
  gpu : bool;                          (* navigator.gpu is present *)
  import_transformers : Result HF;     (* await import(TRANSFORMERS_URL) *)
  now_iso : jsstr;                     (* new Date().toISOString() *)
  now_ms : N;                          (* Date.now() *)
  to_text : option json -> jsstr;      (* ToString of a property value that converts *)
  arg_limit : N;                       (* the most arguments a call takes *)
  db_fault : DbRequest -> option Exn;  (* the error a request is rejected with *)
}.

(** One row of the collapsible panel of retrieved chunks. *)
Record ContextBlock : Type := mkContextBlock {
  cb_label : N;             (* the # of [C#] *)
  cb_doc : jsstr;           (* escapeHtml(ch.docName) *)
  cb_page : option json;    (* ch.page *)
  cb_used : bool;           (* usedSet.has(idx + 1) *)
  cb_score : float;         (* item.score *)
  cb_text : jsstr;          (* escapeHtml(ch.text) *)
}.

Inductive MetaNode : Type :=
| MetaLine (text : jsstr)
| MetaDetails (blocks : list ContextBlock).

(** A message of the transcript: [div.msg.<role>] with its bubble (inner
    HTML) and its meta children. *)
Record Message : Type := mkMessage {
  msg_role : jsstr;
  bubble : jsstr;
  meta : list MetaNode;
}.

Record DocRow : Type := mkDocRow {
  row_name : jsstr;          (* escapeHtml(d.name) *)
  row_chunks : nat;          (* counts.get(d.id) || 0 *)
  row_size : option json;    (* d.size *)
}.

Inductive DocsList : Type :=
| NoDocs
| DocRows (rows : list DocRow).

(** The runtime and data fields of [state]. *)
Record State : Type := mkState {
  engine : option Engine;
  embedder : option Embedder;
  hf : option HF;
  docs : list json;
  chunks : list Chunk;
}.

(** The elements of [state.els] the commands write to. *)
Record View : Type := mkView {
  chat : list Message;
  status : jsstr;
  progress : Q;
  embedStatus : jsstr;
  statDocs : jsstr;
  statChunks : jsstr;
  statEmbed : jsstr;
  statLLM : jsstr;
  docsList : DocsList;
}.

(** The two object stores of the IndexedDB database, by key. *)
Record Db : Type := mkDb {
  db_docs : list (json * json);
  db_chunks : list (json * Chunk);
}.

Record World : Type := mkWorld {
  st : State;
  ui : View;
  db : Db;
  alerts : list jsstr;               (* texts shown by alert(), oldest first *)
  downloads : list (jsstr * json);   (* files offered by downloadText *)
}.

Definition with_st (f : State -> State) (w : World) : World :=
  {| st := f (st w); ui := ui w; db := db w; alerts := alerts w; downloads := downloads w |}.
Definition with_ui (f : View -> View) (w : World) : World :=
  {| st := st w; ui := f (ui w); db := db w; alerts := alerts w; downloads := downloads w |}.
Definition with_db (f : Db -> Db) (w : World) : World :=
  {| st := st w; ui := ui w; db := f (db w); alerts := alerts w; downloads := downloads w |}.

Definition set_embedder (e : option Embedder) (s : State) : State :=
  {| engine := engine s; embedder := e; hf := hf s; docs := docs s; chunks := chunks s |}.
Definition set_hf (h : option HF) (s : State) : State :=
  {| engine := engine s; embedder := embedder s; hf := h; docs := docs s; chunks := chunks s |}.
Definition set_docs (d : list json) (s : State) : State :=
  {| engine := engine s; embedder := embedder s; hf := hf s; docs := d; chunks := chunks s |}.
Definition set_chunks (c : list Chunk) (s : State) : State :=
  {| engine := engine s; embedder := embedder s; hf := hf s; docs := docs s; chunks := c |}.

Definition set_chat (c : list Message) (v : View) : View :=
  {| chat := c; status := status v; progress := progress v; embedStatus := embedStatus v;
     statDocs := statDocs v; statChunks := statChunks v; statEmbed := statEmbed v;
     statLLM := statLLM v; docsList := docsList v |}.
Definition set_status (s : jsstr) (v : View) : View :=
  {| chat := chat v; status := s; progress := progress v; embedStatus := embedStatus v;
     statDocs := statDocs v; statChunks := statChunks v; statEmbed := statEmbed v;
     statLLM := statLLM v; docsList := docsList v |}.
Definition set_progress (p : Q) (v : View) : View :=
  {| chat := chat v; status := status v; progress := p; embedStatus := embedStatus v;
     statDocs := statDocs v; statChunks := statChunks v; statEmbed := statEmbed v;
     statLLM := statLLM v; docsList := docsList v |}.
Definition set_embedStatus (s : jsstr) (v : View) : View :=
  {| chat := chat v; status := status v; progress := progress v; embedStatus := s;
     statDocs := statDocs v; statChunks := statChunks v; statEmbed := statEmbed v;
     statLLM := statLLM v; docsList := docsList v |}.
Definition set_stats (d c e l : jsstr) (v : View) : View :=
  {| chat := chat v; status := status v; progress := progress v; embedStatus := embedStatus v;
     statDocs := d; statChunks := c; statEmbed := e; statLLM := l; docsList := docsList v |}.
Definition set_docsList (x : DocsList) (v : View) : View :=
  {| chat := chat v; status := status v; progress := progress v; embedStatus := embedStatus v;
     statDocs := statDocs v; statChunks := statChunks v; statEmbed := statEmbed v;
     statLLM := statLLM v; docsList := x |}.

(** *** Commands: state passing with exceptions *)

Definition M (A : Type) : Type := World -> Result A * World.

Definition ret {A} (a : A) : M A := fun w => (Ok a, w).
Definition throw {A} (e : Exn) : M A := fun w => (Throw e, w).
Definition bind {A B} (m : M A) (k : A -> M B) : M B :=
  fun w => match m w with
           | (Ok a, w') => k a w'
           | (Throw e, w') => (Throw e, w')
           end.
Definition lift {A} (r : Result A) : M A := fun w => (r, w).
Definition gets {A} (f : World -> A) : M A := fun w => (Ok (f w), w).
Definition modify (f : World -> World) : M unit := fun w => (Ok tt, f w).

#[global] Instance M_ret : MRet M := @ret.
#[global] Instance M_bind : MBind M := fun A B k m => bind m k.

(** [alert(msg)] *)
Definition alert (msg : jsstr) : M unit :=
  modify (fun w => {| st := st w; ui := ui w; db := db w;
                      alerts := alerts w ++ [msg]; downloads := downloads w |}).

(** [downloadText(filename, text)] *)
Definition downloadText (filename : jsstr) (text : json) : M unit :=
  modify (fun w => {| st := st w; ui := ui w; db := db w; alerts := alerts w;
                      downloads := downloads w ++ [(filename, text)] |}).

Definition clamp01 (x : Q) : Q := Qmax 0 (Qmin 1 x).

Definition setStatus (msg : jsstr) : M unit := modify (with_ui (set_status msg)).
Definition setProgress (v01 : Q) : M unit := modify (with_ui (set_progress (clamp01 v01))).

Definition loaded_text {A} (x : option A) : jsstr :=
  match x with Some _ => js "로드됨" | None => js "미로드" end.

Definition refreshStats : M unit :=
  modify (fun w =>
    with_ui (set_stats
      (js "문서 " ++ dec (N.of_nat (length (docs (st w)))) ++ js "개")
      (js "청크 " ++ dec (N.of_nat (length (chunks (st w)))) ++ js "개")
      (js "임베딩: " ++ loaded_text (embedder (st w)))
      (js "LLM: " ++ loaded_text (engine (st w)))) w).


(** *** Transcript *)

Definition escape_char (c : N) : jsstr :=
  match c with
  | 38 => js "&amp;"
  | 60 => js "&lt;"
  | 62 => js "&gt;"
  | 34 => js "&quot;"
  | 39 => js "&#39;"
  | _ => [c]
  end%N.

(** [escapeHtml(s)] for a string [s]. *)
Definition escapeHtml (s : jsstr) : jsstr := concat (map escape_char s).

(** [escapeHtml(v)] for a property value: [v ?? ""] and then [.replace],
    which only a string has. *)
Definition escapeHtml_value (v : option json) : Result jsstr :=
  match v with
  | None | Some JNull => Ok (escapeHtml [])
  | Some (JStr s) => Ok (escapeHtml s)
  | Some _ => Throw TypeError
  end.

(** [asBubbleHtml(text)] *)
Definition asBubbleHtml (text : jsstr) : jsstr :=
  concat (map (fun c => if (c =? LF)%N then js "<br>" else [c]) (escapeHtml text)).

(** [addMessage(role, text)]: the new element is returned as its position in
    the transcript. *)
Definition addMessage (role text : jsstr) : M nat :=
  fun w =>
    (Ok (length (chat (ui w))),
     with_ui (set_chat (chat (ui w) ++ [mkMessage role (asBubbleHtml text) []])) w).

Definition set_bubble (el : nat) (html : jsstr) : M unit :=
  modify (with_ui (fun v =>
    set_chat (alter (fun m => mkMessage (msg_role m) html (meta m)) el (chat v)) v)).

Definition set_meta (el : nat) (nodes : list MetaNode) : M unit :=
  modify (with_ui (fun v =>
    set_chat (alter (fun m => mkMessage (msg_role m) (bubble m) nodes) el (chat v)) v)).

(** *** IndexedDB *)

(** A value that can be a key: a number (NaN is none, and JSON data has
    none), a string, or an array of keys. *)
Fixpoint valid_key (v : json) : bool :=
  match v with
  | JNum _ | JNegZero | JInfinity _ | JStr _ => true
  | JArr l => forallb valid_key l
  | _ => false
  end.

(** Two numbers are the same number; [-0] and [0] are. *)
Definition number_eqb (a b : json) : bool :=
  match a, b with
  | JNum x, JNum y => Qeq_bool x y
  | JNum x, JNegZero | JNegZero, JNum x => Qeq_bool x 0
  | JNegZero, JNegZero => true
  | JInfinity s, JInfinity t => Bool.eqb s t
  | _, _ => false
  end.

Fixpoint key_eqb (a b : json) : bool :=
  match a, b with
  | (JNum _ | JNegZero | JInfinity _), (JNum _ | JNegZero | JInfinity _) => number_eqb a b
  | JStr s, JStr t => jsstr_eqb s t
  | JArr l, JArr m =>
    (fix go (l : list json) (m : list json) : bool :=
       match l, m with
       | [], [] => true
       | x :: l', y :: m' => key_eqb x y && go l' m'
       | _, _ => false
       end) l m
  | _, _ => false
  end.

(** The key of a record under the key path ["id"]. *)
Definition key_of_members (ms : list (jsstr * json)) : option json :=
  match assoc (js "id") ms with
  | Some k => if valid_key k then Some k else None
  | None => None
  end.

Definition doc_key (d : json) : option json :=
  match d with
  | JObj ms => key_of_members ms
  | _ => None
  end.

Definition chunk_key (c : Chunk) : option json := key_of_members (props c).

(** [store.put(obj)] once the key is known: the record of that key is
    replaced, or a new one is added. *)
Definition store_put {V} (k : json) (v : V) (s : list (json * V)) : list (json * V) :=
  if existsb (fun e => key_eqb (fst e) k) s
  then map (fun e => if key_eqb (fst e) k then (k, v) else e) s
  else s ++ [(k, v)].

(** The loop [for (const obj of objects) store.put(obj)]: a record without
    a valid key makes [put] throw [DataError]; the puts made before it stay
    in the transaction. *)
Fixpoint put_all {V} (key_of : V -> option json) (objs : list V) (s : list (json * V))
    : Result unit * list (json * V) :=
  match objs with
  | [] => (Ok tt, s)
  | o :: r =>
    match key_of o with
    | Some k => put_all key_of r (store_put k o s)
    | None => (Throw DataError, s)
    end
  end.

(** *** Embedder *)

Definition EMBED_MODEL_ID : jsstr := js "Xenova/paraphrase-multilingual-MiniLM-L12-v2".

Section Commands.
Variable env : Env.

(** Awaiting a request to IndexedDB: it may be rejected. *)
Definition db_request (r : DbRequest) : M unit :=
  match db_fault env r with
  | Some e => throw e
  | None => mret tt
  end.

(** The transaction of [dbPutMany] on the store that [sel] reads and
    [upd] writes: the records are put and the transaction is awaited.
    When it completes the puts are in the store; when it is rejected none
    is.  A [DataError] of [put] leaves the function before the transaction
    is awaited, and what was put before is stored if the transaction still
    completes. *)
Definition put_transaction {V} (store : StoreName) (key_of : V -> option json)
    (objects : list V) (sel : Db -> list (json * V))
    (upd : list (json * V) -> Db -> Db) : M unit :=
  fun w => let '(r, s) := put_all key_of objects (sel (db w)) in
           match db_fault env (PutTx store) with
           | Some e => (match r with Ok _ => Throw e | Throw d => Throw d end, w)
           | None => (r, with_db (upd s) w)
           end.

(** [dbPutMany(STORE_DOCS, objects)] *)
Definition dbPutMany_docs (objects : list json) : M unit :=
  db_request (OpenToPut STORE_DOCS);;
  put_transaction STORE_DOCS doc_key objects db_docs (fun s d => mkDb s (db_chunks d)).

(** [dbPutMany(STORE_CHUNKS, objects)] *)
Definition dbPutMany_chunks (objects : list Chunk) : M unit :=
  db_request (OpenToPut STORE_CHUNKS);;
  put_transaction STORE_CHUNKS chunk_key objects db_chunks (fun s d => mkDb (db_docs d) s).

(** [dbClearAll()]: one transaction for each store, the second begun
    after the first has completed. *)
Definition dbClearAll : M unit :=
  db_request OpenToClear;;
  db_request (ClearTx STORE_DOCS);;
  modify (with_db (fun d => mkDb [] (db_chunks d)));;
  db_request (ClearTx STORE_CHUNKS);;
  modify (with_db (fun d => mkDb (db_docs d) [])).

(** [ensureEmbedder()] *)
Definition ensureEmbedder : M unit :=
  e ← gets (fun w => embedder (st w));
  match e with
  | Some _ => mret tt
  | None =>
    modify (with_ui (set_embedStatus (js "임베딩: 로딩 중…")));;
    setStatus (js "임베딩 모델 로딩 중…");;
    setProgress (2 # 100);;
    h ← gets (fun w => hf (st w));
    lib ← match h with
          | Some lib => mret lib
          | None =>
            lib ← lift (import_transformers env);
            modify (with_st (set_hf (Some lib)));;
            mret lib
          end;
    let device := if gpu env then js "webgpu" else js "wasm" in
    p ← lift (pipeline lib device);
    modify (with_st (set_embedder (Some p)));;
    modify (with_ui (set_embedStatus
      (js "임베딩: 로드됨 (" ++ EMBED_MODEL_ID ++ js ", device=" ++ device ++ js ")")));;
    setStatus (js "임베딩 모델 로드 완료");;
    setProgress 0;;
    refreshStats
  end.

(** The rows [tensor.data.slice(i * d, i * d + d)] for [i < n]. *)
Definition tensor_rows (t : Tensor) : list vec :=
  let '(n, d) := dims t in
  map (fun i => take d (drop (i * d) (data t))) (seq 0 n).

(** [embedTexts(texts)] *)
Definition embedTexts (texts : list jsstr) : M (list vec) :=
  ensureEmbedder;;
  e ← gets (fun w => embedder (st w));
  match e with
  | Some p => tensor ← lift (p texts); mret (tensor_rows tensor)
  | None => throw TypeError
  end.


(** *** Question answering *)

Fixpoint join (sep : jsstr) (l : list jsstr) : jsstr :=
  match l with
  | [] => []
  | x :: r => match r with [] => x | _ => x ++ sep ++ join sep r end
  end.

(** [buildSystemPrompt(strict)] *)
Definition buildSystemPrompt (strict : bool) : jsstr :=
  if strict then
    join [LF] [
      js "너는 '근거 자료'로 제공된 내용만 사용해서 답하는 어시스턴트다.";
      js "규칙:";
      js "1) 근거에 없는 정보는 절대 추측하거나 일반상식으로 보완하지 말 것.";
      js "2) 근거에서 확인되지 않으면 정확히 다음 문장만 출력: 자료에 근거가 없습니다.";
      js "3) 답변 마지막에 [출처] 섹션을 만들고, 사용한 근거 ID를 [C1], [C2] 형태로 나열할 것.";
      js "4) 답변은 한국어로."
    ]
  else
    join [LF] [
      js "너는 '근거 자료'로 제공된 내용만 사용해서 답하는 어시스턴트다.";
      js "근거에 없는 내용은 '자료에 근거가 없습니다'라고 말하고, 가능한 범위만 요약해라.";
      js "답변 마지막에 [출처] 섹션으로 사용한 근거 ID([C#])를 적어라.";
      js "답변은 한국어로."
    ].

(** ToString of a property value in a template literal. *)
Definition ToString (v : option json) : Result jsstr :=
  if throws_on_conversion v then Throw TypeError else Ok (to_text env v).

(** The callback of [scoredChunks.map] in [buildContext], from the entry
    at position [idx] on. *)
Fixpoint context_entries (idx : nat) (items : list Scored) : Result (list jsstr) :=
  match items with
  | [] => Ok []
  | item :: r =>
    let c := ch item in
    match ToString (chunk_get c (js "docName")),
          ToString (chunk_get c (js "page")),
          ToString (chunk_get c (js "text")) with
    | Ok docName, Ok page, Ok text =>
      match context_entries (S idx) r with
      | Ok rest =>
        Ok ((js "[C" ++ dec (N.of_nat (idx + 1)) ++ js "] ("
               ++ docName ++ js " / p." ++ page ++ js ")" ++ [LF] ++ text) :: rest)
      | Throw e => Throw e
      end
    | _, _, _ => Throw TypeError
    end
  end.

(** [buildContext(scoredChunks)] *)
Definition buildContext (scoredChunks : list Scored) : Result jsstr :=
  match context_entries 0 scoredChunks with
  | Ok entries => Ok (join [LF; LF] entries)
  | Throw e => Throw e
  end.

(** [renderContextDetails(scoredChunks, usedSet)] *)
Definition renderContextDetails (scoredChunks : list Scored) (usedSet : gset jsnum)
    : Result MetaNode :=
  (fix blocks (idx : nat) (items : list Scored) (acc : list ContextBlock) : Result MetaNode :=
     match items with
     | [] => Ok (MetaDetails acc)
     | item :: r =>
       let c := ch item in
       let label := N.of_nat (idx + 1) in
       match escapeHtml_value (chunk_get c (js "docName")) with
       | Throw e => Throw e
       | Ok doc =>
         if throws_on_conversion (chunk_get c (js "page")) then Throw TypeError
         else
           match escapeHtml_value (chunk_get c (js "text")) with
           | Throw e => Throw e
           | Ok text =>
             blocks (S idx) r
               (acc ++ [mkContextBlock label doc (chunk_get c (js "page"))
                          (bool_decide (Fin label ∈ usedSet)) (score item) text])
           end
       end
     end) 0%nat scoredChunks [].

(** The retrieval step of [ask]: [qVec] is the first row the embedder
    returned, [None] when it returned none; [dot] then fails on the first
    chunk that has an embedding. *)
Definition retrieve_for (qVec : option vec) (cs : list Chunk) : Result (list Scored) :=
  match qVec with
  | Some q => Ok (retrieveTopChunks cs q)
  | None =>
    if forallb (fun c => bool_decide (embedding c = None)) cs then Ok []
    else Throw TypeError
  end.

(** The [for await] loop over the stream: a chunk whose delta is absent
    or empty is passed over; after the chunks the stream ends, or its
    [next()] is rejected with [failure] and the loop throws. *)
Fixpoint consume_deltas (el : nat) (ds : list (option jsstr)) (failure : option Exn)
    (answer : jsstr) : M jsstr :=
  match ds with
  | [] =>
    match failure with
    | Some e => throw e
    | None => mret answer
    end
  | d :: r =>
    match d with
    | Some (c :: cs) =>
      let answer' := answer ++ c :: cs in
      set_bubble el (asBubbleHtml answer');;
      consume_deltas el r failure answer'
    | _ => consume_deltas el r failure answer
    end
  end.

Definition MSG_NO_CORPUS : jsstr := js "먼저 근거자료를 업로드해서 인덱싱해 주세요.".
Definition MSG_NO_ENGINE : jsstr := js "먼저 로컬 LLM(WebLLM) 모델을 로드해 주세요.".
Definition MSG_NO_CITATION : jsstr :=
  js "주의: 답변에 [C#] 인용이 없습니다. 근거 기반 답변으로 보기 어렵습니다. 질문을 더 구체화하거나 근거가 있는지 확인해 주세요.".

(** [ask(questionText, strict, showContext)] *)
Definition ask (questionText : jsstr) (strict showContext : bool) : M unit :=
  match trim questionText with
  | [] => mret tt
  | _ =>
    cs ← gets (fun w => chunks (st w));
    if (length cs =? 0)%nat then alert MSG_NO_CORPUS
    else
      eng ← gets (fun w => engine (st w));
      match eng with
      | None => alert MSG_NO_ENGINE
      | Some create =>
        ensureEmbedder;;
        addMessage (js "user") questionText;;
        assistantEl ← addMessage (js "assistant")
                        (js "생각 중…" ++ [LF] ++ js "(근거 검색 + 답변 생성)");
        setStatus (js "질문 임베딩 생성/검색 중…");;
        setProgress (1 # 10);;
        rows ← embedTexts [questionText];
        cs ← gets (fun w => chunks (st w));
        top ← lift (retrieve_for (head rows) cs);
        context ← lift (buildContext top);
        setProgress (25 # 100);;
        let sys := buildSystemPrompt strict in
        let user := join [LF] [
          js "아래 [근거] 안에서만 정보를 찾아 질문에 답해라.";
          [];
          js "[근거]";
          context;
          [];
          js "[질문]";
          questionText;
          [];
          js "형식:";
          js "- 답변 마지막에 [출처] 섹션을 만들고, 사용한 근거 ID를 [C1], [C2]처럼 적어라.";
          js "- 근거가 없으면 strict 모드에 따라 처리해라."
        ] in
        setStatus (js "답변 생성 중…");;
        setProgress (35 # 100);;
        set_bubble assistantEl (asBubbleHtml (js "답변 생성 중…"));;
        stream ← lift (create [mkChatMessage (js "system") sys; mkChatMessage (js "user") user]
                              (if strict then 2 # 10 else 5 # 10));
        answer ← consume_deltas assistantEl (deltas stream) (failure stream) [];
        setProgress 0;;
        let used := parseUsedCitations answer in
        set_meta assistantEl [];;
        let warn := if strict && bool_decide (size used = 0%nat)
                    then [MetaLine MSG_NO_CITATION] else [] in
        let sourceLine :=
          MetaLine (js "근거 검색 Top " ++ dec (Z.to_N TOP_K) ++ js "개에서 답변 생성") in
        set_meta assistantEl (warn ++ [sourceLine]);;
        (if showContext then
           details ← lift (renderContextDetails top used);
           set_meta assistantEl (warn ++ [sourceLine; details])
         else mret tt);;
        setStatus (js "완료");;
        refreshStats
      end
  end.


(** *** Document list *)

(** Reading a property of a list element: [null] has none, and the read
    throws. *)
Definition prop (v : json) (name : jsstr) : Result (option json) :=
  match v with
  | JNull => Throw TypeError
  | _ => Ok (get v name)
  end.

(** Key equality of a [Map] (SameValueZero): primitives by value, arrays and
    objects by identity, and two values that were parsed apart are never
    the same object. *)
Definition same_value_zero (a b : option json) : bool :=
  match a, b with
  | None, None => true
  | Some JNull, Some JNull => true
  | Some (JBool x), Some (JBool y) => bool_decide (x = y)
  | Some ((JNum _ | JNegZero | JInfinity _) as x),
    Some ((JNum _ | JNegZero | JInfinity _) as y) => number_eqb x y
  | Some (JStr x), Some (JStr y) => jsstr_eqb x y
  | _, _ => false
  end.

(** [counts.get(id) || 0] for the [counts] built over [state.chunks]. *)
Definition chunk_count (cs : list Chunk) (id : option json) : nat :=
  length (filter (fun c => same_value_zero (chunk_get c (js "docId")) id = true) cs).

(** The callback of [state.docs.map] in [renderDocs]: [d.id] is read,
    [d.size] is converted to a number for [Math.round(d.size / 1024)], and
    [d.name] is escaped. *)
Fixpoint doc_rows (cs : list Chunk) (ds : list json) : Result (list DocRow) :=
  match ds with
  | [] => Ok []
  | d :: r =>
    match prop d (js "id") with
    | Throw e => Throw e
    | Ok id =>
      if throws_on_conversion (get d (js "size")) then Throw TypeError
      else
        match escapeHtml_value (get d (js "name")) with
        | Throw e => Throw e
        | Ok name =>
          match doc_rows cs r with
          | Throw e => Throw e
          | Ok rows => Ok (mkDocRow name (chunk_count cs id) (get d (js "size")) :: rows)
          end
        end
    end
  end.

(** [renderDocs()] *)
Definition renderDocs : M unit :=
  ds ← gets (fun w => docs (st w));
  cs ← gets (fun w => chunks (st w));
  if (length ds =? 0)%nat then modify (with_ui (set_docsList NoDocs))
  else
    rows ← lift (doc_rows cs ds);
    modify (with_ui (set_docsList (DocRows rows))).

(** *** Export and import *)

(** [JSON.stringify] of an object literal: a property whose value is
    [undefined] is left out. *)
Definition stringify_literal (ms : list (jsstr * option json)) : json :=
  JObj (omap (fun kv => match snd kv with
                        | Some v => Some (fst kv, v)
                        | None => None
                        end) ms).

(** The object [{ id: c.id, docId: c.docId, docName: c.docName, page: c.page,
    text: c.text }] of [exportJSON]. *)
Definition export_chunk (c : Chunk) : list (jsstr * option json) :=
  [ (js "id", chunk_get c (js "id"));
    (js "docId", chunk_get c (js "docId"));
    (js "docName", chunk_get c (js "docName"));
    (js "page", chunk_get c (js "page"));
    (js "text", chunk_get c (js "text")) ].

(** [JSON.stringify(payload)] for the [payload] of [exportJSON]; the text
    is given as the value [JSON.parse] reads from it. *)
Definition export_payload (s : State) : json :=
  JObj [ (js "version", JNum 1);
         (js "exportedAt", JStr (now_iso env));
         (js "docs", JArr (map json_roundtrip (docs s)));
         (js "chunks", JArr (map (fun c => json_roundtrip (stringify_literal (export_chunk c)))
                                 (chunks s))) ].

(** [exportJSON()] *)
Definition exportJSON : M unit :=
  s ← gets st;
  downloadText (js "kb-ai-export-" ++ dec (now_ms env) ++ js ".json") (export_payload s).

(** The text of the chosen file, through [JSON.parse]. *)
Inductive FileText : Type :=
| NotJson
| Json (data : json).

Definition JSON_parse (f : FileText) : Result json :=
  match f with
  | NotJson => Throw SyntaxError
  | Json data => Ok data
  end.

(** [data.chunks.map(x => ({ ...x, embedding: null }))]: only an array has
    [map]. *)
Definition map_raw_chunks (v : option json) : Result (list Chunk) :=
  match v with
  | Some (JArr l) => Ok (map raw_chunk l)
  | _ => Throw TypeError
  end.

Definition MSG_BAD_FORMAT : jsstr := js "형식이 올바르지 않은 JSON입니다.".
Definition MSG_IMPORT_DONE : jsstr :=
  js "가져오기 완료. '전체 재인덱싱'을 눌러 임베딩을 다시 생성하세요.".

(** [importJSON(file)] *)
Definition importJSON (file : FileText) : M unit :=
  data ← lift (JSON_parse file);
  if negb (truthy (get data (js "docs"))) || negb (truthy (get data (js "chunks")))
  then alert MSG_BAD_FORMAT
  else
    dbClearAll;;
    modify (with_st (set_docs []));;
    modify (with_st (set_chunks []));;
    modify (with_ui (set_chat []));;
    spread ← lift (match get data (js "docs") with
                   | Some v => spread_args v
                   | None => Throw TypeError
                   end);
    newDocs ← lift (call_args (arg_limit env) spread);
    modify (with_st (fun s => set_docs (docs s ++ newDocs) s));;
    rawChunks ← lift (map_raw_chunks (get data (js "chunks")));
    pushed ← lift (call_args (arg_limit env) rawChunks);
    modify (with_st (fun s => set_chunks (chunks s ++ pushed) s));;
    ds ← gets (fun w => docs (st w));
    dbPutMany_docs ds;;
    dbPutMany_chunks rawChunks;;
    renderDocs;;
    refreshStats;;
    alert MSG_IMPORT_DONE.

End Commands.

(** Outcome of a command: it returned, or an exception left it. *)
Definition returned {A} (r : Result A * World) : Prop :=
  match fst r with Ok _ => True | Throw _ => False end.


(* ===================================================================== *)
(** ** Predicates used in the statements                                  *)
(* ===================================================================== *)

(** No two neighbours of [u] are a [bad] pair. *)
Fixpoint no_pair (bad : N -> N -> bool) (u : jsstr) : bool :=
  match u with
  | a :: ((b :: _) as r) => negb (bad a b) && no_pair bad r
  | _ => true
  end.

(** No three neighbours of [u] are a [bad] triple. *)
Fixpoint no_triple (bad : N -> N -> N -> bool) (u : jsstr) : bool :=
  match u with
  | a :: ((b :: c :: _) as r) => negb (bad a b c) && no_triple bad r
  | _ => true
  end.

Definition is_cr_lf (a b : N) : bool := (a =? CR)%N && (b =? LF)%N.
Definition is_cr_cr_lf (a b c : N) : bool := (a =? CR)%N && (b =? CR)%N && (c =? LF)%N.

(** [t] nowhere holds a carriage return followed by CR LF. *)
Definition crcrlf_free (t : jsstr) : Prop := no_triple is_cr_cr_lf t = true.

(** [u] has no tab and no two blanks in a row; with [after_blank] its first
    code unit is not a blank either. *)
Fixpoint blank_nf (after_blank : bool) (u : jsstr) : bool :=
  match u with
  | [] => true
  | c :: r =>
    if is_sptab c then negb after_blank && (c =? SP)%N && blank_nf true r
    else blank_nf false r
  end.

(** [u] has no run of three newlines, counting [run] newlines before it. *)
Fixpoint nl_nf (run : nat) (u : jsstr) : bool :=
  match u with
  | [] => true
  | c :: r =>
    if (c =? LF)%N then (run <? 2)%nat && nl_nf (S run) r
    else nl_nf 0 r
  end.

(** [x] may stand before [y] in a list sorted by descending score. *)
Definition score_ge (x y : Scored) : Prop := (score y <=? score x)%float = true.

(** No entry has the score NaN. *)
Definition scores_are_numbers (l : list Scored) : Prop :=
  Forall (fun x => PrimFloat.is_nan (score x) = false) l.

(** [ds] is a capture of [\d+]: one or more ASCII digits. *)
Definition digits (ds : jsstr) : Prop :=
  ds <> [] /\ Forall (fun c => is_digit c = true) ds.

(** [v] is the Number of the digits of a citation text that occurs in [l]. *)
Definition cited (v : jsnum) (l : jsstr) : Prop :=
  exists ds, digits ds /\ occurs_in (citation_text ds) l /\ Number_of_digits ds = v.


(* ===================================================================== *)
(** ** A concrete page for the examples                                   *)
(* ===================================================================== *)

(** An embedding pipeline that answers every text with the vector (1, 0). *)
Definition demo_embedder : Embedder :=
  fun texts => Ok (mkTensor (length texts, 2%nat) (concat (map (fun _ => [1; 0]%float) texts))).

Definition demo_hf : HF := mkHF (fun _ => Ok demo_embedder).

Definition demo_to_text (v : option json) : jsstr :=
  match v with
  | None => js "undefined"
  | Some JNull => js "null"
  | Some (JBool true) => js "true"
  | Some (JBool false) => js "false"
  | Some (JNum x) => dec (Z.to_N (Qnum x / Z.pos (Qden x)))
  | Some JNegZero => js "0"
  | Some (JInfinity false) => js "Infinity"
  | Some (JInfinity true) => js "-Infinity"
  | Some (JStr s) => s
  | Some (JArr _) => []
  | Some (JObj _) => js "[object Object]"
  end.

(** A browser that loads the embedder, takes 125000 arguments in a call
    and rejects no request to IndexedDB. *)
Definition demo_env : Env :=
  mkEnv false (Ok demo_hf) (js "2026-01-01T00:00:00.000Z") 1767225600000%N demo_to_text
        125000%N (fun _ => None).

(** A generator that streams one fixed answer. *)
Definition demo_engine : Engine :=
  fun _ _ => Ok (mkStream [Some (js "Answer. "); None; Some (js "[C1]")] None).

Definition empty_view : View :=
  mkView [] [] 0%Q [] [] [] [] [] NoDocs.

(** The page before anything was loaded or stored. *)
Definition empty_world : World :=
  mkWorld (mkState None None None [] []) empty_view (mkDb [] []) [] [].

(** The page with the generator loaded. *)
Definition engine_world : World :=
  mkWorld (mkState (Some demo_engine) None None [] []) empty_view (mkDb [] []) [] [].

Definition demo_doc : json :=
  JObj [ (js "id", JStr (js "d1")); (js "name", JStr (js "notes.txt"));
         (js "type", JStr (js "text/plain")); (js "size", JNum 2400);
         (js "addedAt", JStr (js "2026-01-01T00:00:00.000Z")) ].

Definition demo_chunk_json : json :=
  JObj [ (js "id", JStr (js "d1|p1|c0")); (js "docId", JStr (js "d1"));
         (js "docName", JStr (js "notes.txt")); (js "page", JNum 1);
         (js "text", JStr (js "A. B. C. A. B. C. A. B. C. A. B. C.")) ].

(** An export file with one document and one chunk, marked version 2. *)
Definition demo_payload_v2 : json :=
  JObj [ (js "version", JNum 2); (js "exportedAt", JStr (js "2026-01-01T00:00:00.000Z"));
         (js "docs", JArr [demo_doc]); (js "chunks", JArr [demo_chunk_json]) ].

(** A file whose [docs] member is a number. *)
Definition demo_payload_docs_number : json :=
  JObj [ (js "version", JNum 1); (js "docs", JNum 5); (js "chunks", JArr []) ].

(** The page after [demo_payload_v2] was imported with the generator
    loaded: one chunk, no embedding yet. *)
Definition imported_world : World :=
  snd (importJSON demo_env (Json demo_payload_v2) engine_world).

(** *** Predicates on import files *)

Definition is_array (v : option json) : bool :=
  match v with Some (JArr _) => true | _ => false end.

(** A document record the store takes and the document list can show: an
    object with a valid key under [id], whose [name] is a string or absent
    and whose [size] converts to a number. *)
Definition importable_doc (d : json) : bool :=
  match doc_key d, escapeHtml_value (get d (js "name")) with
  | Some _, Ok _ => negb (throws_on_conversion (get d (js "size")))
  | _, _ => false
  end.

(** A chunk record the store takes. *)
Definition importable_chunk (x : json) : bool :=
  match chunk_key (raw_chunk x) with Some _ => true | None => false end.

(** The import ran to its end: it returned and announced completion. *)
Definition import_completed (r : Result unit * World) : Prop :=
  fst r = Ok tt /\ last (alerts (snd r)) = Some MSG_IMPORT_DONE.

(** The five properties written by the export. *)
Definition exported_fields : list jsstr :=
  [js "id"; js "docId"; js "docName"; js "page"; js "text"].

(** The exported properties of [c] are written and read back unchanged. *)
Definition stable_fields (c : Chunk) : Prop :=
  Forall (fun f => match chunk_get c f with
                   | Some v => json_stable v
                   | None => True
                   end) exported_fields.

(** A document whose [size] was written as [1e999], and a file with it. *)
Definition demo_doc_1e999 : json :=
  JObj [ (js "id", JStr (js "d1")); (js "name", JStr (js "big.txt"));
         (js "type", JStr (js "text/plain")); (js "size", JInfinity false);
         (js "addedAt", JStr (js "2026-01-01T00:00:00.000Z")) ].

Definition demo_payload_1e999 : json :=
  JObj [ (js "version", JNum 1); (js "docs", JArr [demo_doc_1e999]);
         (js "chunks", JArr []) ].

(** A command that leaves the runtime and data fields of [state] alone. *)
Definition keeps_st {A} (m : M A) : Prop := forall w, st (snd (m w)) = st w.

(** What [importJSON] does after the in-memory lists were replaced. *)
Definition import_commit (env : Env) (ds : list json) (rawChunks : list Chunk) : M unit :=
  dbPutMany_docs env ds;;
  dbPutMany_chunks env rawChunks;;
  renderDocs;;
  refreshStats;;
  alert MSG_IMPORT_DONE.

(** The page when [importJSON] reaches the store writes. *)
Definition import_replaced (ds : list json) (rawChunks : list Chunk) (w : World) : World :=
  mkWorld (mkState (engine (st w)) (embedder (st w)) (hf (st w)) ds rawChunks)
          (set_chat [] (ui w)) (mkDb [] []) (alerts w) (downloads w).

(** IndexedDB rejects none of the [requests]. *)
Definition accepts (env : Env) (requests : list DbRequest) : Prop :=
  Forall (fun r => db_fault env r = None) requests.

(** The requests of [dbClearAll], of one [dbPutMany], and of an import. *)
Definition CLEAR_REQUESTS : list DbRequest :=
  [OpenToClear; ClearTx STORE_DOCS; ClearTx STORE_CHUNKS].
Definition PUT_REQUESTS (store : StoreName) : list DbRequest :=
  [OpenToPut store; PutTx store].
Definition IMPORT_REQUESTS : list DbRequest :=
  CLEAR_REQUESTS ++ PUT_REQUESTS STORE_DOCS ++ PUT_REQUESTS STORE_CHUNKS.

(** A call takes the elements of [l] as its arguments. *)
Definition fits {A} (env : Env) (l : list A) : Prop :=
  (N.of_nat (length l) <= arg_limit env)%N.


(* ===================================================================== *)
(** ** Further definitions: defaults, ingestion, re-indexing              *)
(* ===================================================================== *)

(** [chunkText(text)] with the default size and overlap.  With them the
    loop ends within [length t + 1] iterations ([chunkText_default_fuel]),
    so the allowance below is never used up. *)
Definition chunkText (text : jsstr) : list jsstr :=
  default [] (chunkText_fuel (S (length (normalizeText text))) text CHUNK_CHARS CHUNK_OVERLAP).

(** The five characters [escapeHtml] replaces. *)
Definition html_special (c : N) : bool :=
  match c with
  | 38 | 60 | 62 | 34 | 39 => true
  | _ => false
  end%N.

(** [p] neither starts nor ends with white space. *)
Definition trimmed (p : jsstr) : Prop :=
  match p with [] => True | c :: _ => is_ws c = false end /\
  match rev p with [] => True | c :: _ => is_ws c = false end.

(** *** Reasoning about commands *)

(** [Q] holds of the outcome of [m] run from [w]. *)
Definition wp {A} (m : M A) (Q : Result A -> World -> Prop) (w : World) : Prop :=
  Q (fst (m w)) (snd (m w)).

(** [m] relates every page it is run from to the page it leaves, whether
    it returns or throws. *)
Definition preserves {A} (R : World -> World -> Prop) (m : M A) : Prop :=
  forall w, R w (snd (m w)).

(** The generator, the documents, the chunks (with their embeddings), the
    store and the downloads are the same. *)
Definition corpus_kept (w w' : World) : Prop :=
  engine (st w') = engine (st w) /\ docs (st w') = docs (st w) /\
  chunks (st w') = chunks (st w) /\ db w' = db w /\ downloads w' = downloads w.

(** The transcript and the alerts shown are the same. *)
Definition transcript_kept (w w' : World) : Prop :=
  chat (ui w') = chat (ui w) /\ alerts w' = alerts w.

(** The progress bar shows a value between 0 and 1. *)
Definition progress_in_range (w : World) : Prop := (0 <= progress (ui w) <= 1)%Q.

(** The deltas of a stream that carry text, joined. *)
Definition streamed_text (ds : list (option jsstr)) : jsstr :=
  concat (map (default []) ds).

(** The bubble of message [el] is replaced by [html]. *)
Definition with_bubble (el : nat) (html : jsstr) (c : list Message) : list Message :=
  alter (fun m => mkMessage (msg_role m) html (meta m)) el c.

(** [I] is handed on: if it holds of the first page it holds of the
    second. *)
Definition hands_on (I : World -> Prop) (w w' : World) : Prop := I w -> I w'.

(** The transcript is [base] followed by the question and the answer in
    the making. *)
Definition answering (base : list Message) (q : jsstr) (w : World) : Prop :=
  exists b m,
    chat (ui w) = base ++ [mkMessage (js "user") (asBubbleHtml q) [];
                           mkMessage (js "assistant") b m].

(** The page after [demo_payload_v2] was imported with nothing loaded. *)
Definition corpus_world : World :=
  snd (importJSON demo_env (Json demo_payload_v2) empty_world).

(** What the bubble of the answer shows once the stream has ended: the
    answer, or the placeholder when no delta carried text. *)
Definition answer_bubble (answer : jsstr) : jsstr :=
  match answer with
  | [] => asBubbleHtml (js "답변 생성 중…")
  | _ => asBubbleHtml answer
  end.

(** The warning under an answer in strict mode that cites nothing. *)
Definition citation_warning (strict : bool) (answer : jsstr) : list MetaNode :=
  if strict && bool_decide (size (parseUsedCitations answer) = 0%nat)
  then [MetaLine MSG_NO_CITATION] else [].

Definition source_line : MetaNode :=
  MetaLine (js "근거 검색 Top " ++ dec (Z.to_N TOP_K) ++ js "개에서 답변 생성").

(** A property value [escapeHtml] takes: a string, [null] or [undefined]. *)
Definition text_or_absent (v : option json) : bool :=
  match v with
  | None | Some JNull | Some (JStr _) => true
  | Some _ => false
  end.

(** [escapeHtml(v)] for such a value. *)
Definition escaped_text (v : option json) : jsstr :=
  match v with
  | Some (JStr s) => escapeHtml s
  | _ => []
  end.

(** A retrieved entry the panel can show. *)
Definition renderable (item : Scored) : bool :=
  text_or_absent (chunk_get (ch item) (js "docName")) &&
  negb (throws_on_conversion (chunk_get (ch item) (js "page"))) &&
  text_or_absent (chunk_get (ch item) (js "text")).

(** The row of the panel for the entry at position [idx]. *)
Definition context_block (used : gset jsnum) (idx : nat) (item : Scored) : ContextBlock :=
  mkContextBlock (N.of_nat (idx + 1))
    (escaped_text (chunk_get (ch item) (js "docName")))
    (chunk_get (ch item) (js "page"))
    (bool_decide (Fin (N.of_nat (idx + 1)) ∈ used))
    (score item)
    (escaped_text (chunk_get (ch item) (js "text"))).

(** The state, the store and the downloads are the same. *)
Definition data_kept (w w' : World) : Prop :=
  st w' = st w /\ db w' = db w /\ downloads w' = downloads w.

(* ===================================================================== *)
(** ** Ingestion and re-indexing                                          *)
(* ===================================================================== *)

(** An item of [textContent.items]. *)
Record TextItem : Type := mkTextItem {
  str : jsstr;
  hasEOL : bool;
}.

(** A [File] of the file input, with what reading it gives: [file.text()],
    and the text items PDF.js finds on each page of [file.arrayBuffer()]
    (a failure of the read, of [getDocument], of [getPage] or of
    [getTextContent] rejects the whole extraction). *)
Record File : Type := mkFile {
  file_name : jsstr;
  file_type : jsstr;
  file_size : N;
  file_text : Result jsstr;
  file_pdf : Result (list (list TextItem));
}.

(** The string [s] built for one page, normalized. *)
Definition page_text (items : list TextItem) : jsstr :=
  normalizeText
    (concat (map (fun item => str item ++ [if hasEOL item then LF else SP]) items)).

(** [extractTextFromPDF(arrayBuffer)]: [numPages] and [pages]. *)
Definition extractTextFromPDF (pdf : Result (list (list TextItem)))
    : Result (nat * list jsstr) :=
  match pdf with
  | Ok pages => Ok (length pages, map page_text pages)
  | Throw e => Throw e
  end.

(** [s.endsWith(suffix)] *)
Definition endsWith (s suffix : jsstr) : bool :=
  jsstr_eqb (drop (length s - length suffix) s) suffix.

Definition num (n : nat) : Q := inject_Z (Z.of_nat n).

(** The chunk object pushed for piece [c] of page [pageNo]. *)
Definition new_chunk (docId name : jsstr) (pageNo c : nat) (piece : jsstr) : Chunk :=
  {| props :=
       [ (js "id", JStr (docId ++ js "|p" ++ dec (N.of_nat pageNo)
                           ++ js "|c" ++ dec (N.of_nat c)));
         (js "docId", JStr docId);
         (js "docName", JStr name);
         (js "page", JNum (num pageNo));
         (js "text", JStr piece) ];
     embedding := None |}.

(** The chunks of one page: [chunkText(pageText)], numbered from 0. *)
Definition page_chunks (docId name : jsstr) (pageNo : nat) (pageText : jsstr) : list Chunk :=
  imap (new_chunk docId name pageNo) (chunkText pageText).

(** The record [doc] of [indexFile]. *)
Definition doc_record (now : jsstr) (docId : jsstr) (file : File) : json :=
  JObj [ (js "id", JStr docId);
         (js "name", JStr (file_name file));
         (js "type", JStr (file_type file));
         (js "size", JNum (inject_Z (Z.of_N (file_size file))));
         (js "addedAt", JStr now) ].

Definition BATCH : nat := 8.

(** The values [i] takes in [for (let i = 0; i < n; i += BATCH)]. *)
Definition batch_starts (n : nat) : list nat :=
  map (fun b => (b * BATCH)%nat) (seq 0 ((n + BATCH - 1) / BATCH)).

(** [for (let j = 0; j < batch.length; j++) batch[j].embedding = vecs[j]]:
    a row that is missing leaves [undefined]. *)
Definition assign_embeddings (batch : list Chunk) (vecs : list vec) : list Chunk :=
  imap (fun j c => {| props := props c; embedding := vecs !! j |}) batch.

(** The texts of a batch when all of them are strings. *)
Fixpoint strings_of (vs : list (option json)) : option (list jsstr) :=
  match vs with
  | [] => Some []
  | Some (JStr s) :: r =>
    match strings_of r with
    | Some texts => Some (s :: texts)
    | None => None
    end
  | _ => None
  end.

Definition MSG_NO_CHUNKS : jsstr := js "재인덱싱할 청크가 없습니다.".

Section Ingestion.
Variable env : Env.

(** [String.prototype.toLowerCase]. *)
Variable toLowerCase : jsstr -> jsstr.

(** What the pipeline answers to a batch in which some text is not a
    string (an imported chunk may hold any value there). *)
Variable embedder_other : Embedder -> list (option json) -> Result Tensor.

(** [embedTexts(batch.map(x => x.text))] *)
Definition embedTexts_values (vs : list (option json)) : M (list vec) :=
  ensureEmbedder env;;
  e ← gets (fun w => embedder (st w));
  match e with
  | Some p =>
    tensor ← lift (match strings_of vs with
                   | Some texts => p texts
                   | None => embedder_other p vs
                   end);
    mret (tensor_rows tensor)
  | None => throw TypeError
  end.

(** One round of the batch loops of [indexFile] and [rebuildAllEmbeddings]
    on the list [cs]: the chunks at [i .. i + BATCH) get the rows the
    embedder returns for their texts. *)
Definition embed_batch (i : nat) (cs : list Chunk) : M (list Chunk) :=
  let batch := take BATCH (drop i cs) in
  vecs ← embedTexts_values (map (fun x => chunk_get x (js "text")) batch);
  mret (take i cs ++ assign_embeddings batch vecs ++ drop (i + BATCH) cs).

(** The page loop of the PDF branch of [indexFile]; [i] is the index of
    the first of [pages]. *)
Fixpoint pdf_pages (docId name : jsstr) (numPages i : nat) (pages : list jsstr)
    (newChunks : list Chunk) : M (list Chunk) :=
  match pages with
  | [] => mret newChunks
  | pageText :: r =>
    let pageNo := (i + 1)%nat in
    let newChunks' := newChunks ++ page_chunks docId name pageNo pageText in
    setStatus (js "PDF 처리: " ++ name ++ js " (페이지 " ++ dec (N.of_nat pageNo)
                 ++ js "/" ++ dec (N.of_nat numPages) ++ js ")");;
    setProgress ((5 # 100) + (35 # 100) * (num pageNo / num (Nat.max 1 numPages)));;
    pdf_pages docId name numPages (S i) r newChunks'
  end.

(** The embedding loop of [indexFile] over the local list [newChunks]. *)
Fixpoint embed_new_chunks (starts : list nat) (newChunks : list Chunk) : M (list Chunk) :=
  match starts with
  | [] => mret newChunks
  | i :: r =>
    newChunks' ← embed_batch i newChunks;
    let batch_length := length (take BATCH (drop i newChunks)) in
    let ratio := (num (i + batch_length) / num (Nat.max 1 (length newChunks)))%Q in
    setProgress ((45 # 100) + (50 # 100) * ratio);;
    embed_new_chunks r newChunks'
  end.

(** [indexFile(file)]; [docId] is what [uuid()] returns in this call. *)
Definition indexFile (docId : jsstr) (file : File) : M unit :=
  ensureEmbedder env;;
  let name := file_name file in
  let doc := doc_record (now_iso env) docId file in
  setStatus (js "읽는 중: " ++ name);;
  setProgress (5 # 100);;
  newChunks ←
    (if endsWith (toLowerCase name) (js ".pdf")
        || jsstr_eqb (file_type file) (js "application/pdf")
     then
       extracted ← lift (extractTextFromPDF (file_pdf file));
       made ← pdf_pages docId name (fst extracted) 0 (snd extracted) [];
       setStatus (js "청크 생성 완료: " ++ name ++ js " ("
                    ++ dec (N.of_nat (length made)) ++ js "개)");;
       setProgress (42 # 100);;
       mret made
     else
       text ← lift (file_text file);
       let made := page_chunks docId name 1 text in
       setStatus (js "청크 생성 완료: " ++ name ++ js " ("
                    ++ dec (N.of_nat (length made)) ++ js "개)");;
       setProgress (30 # 100);;
       mret made);
  setStatus (js "임베딩 생성 중: " ++ name);;
  newChunks ← embed_new_chunks (batch_starts (length newChunks)) newChunks;
  modify (with_st (fun s => set_docs (docs s ++ [doc]) s));;
  pushed ← lift (call_args (arg_limit env) newChunks);
  modify (with_st (fun s => set_chunks (chunks s ++ pushed) s));;
  dbPutMany_docs env [doc];;
  dbPutMany_chunks env newChunks;;
  setStatus (js "완료: " ++ name);;
  setProgress 0;;
  renderDocs;;
  refreshStats.

(** The batch loop of [rebuildAllEmbeddings] over [state.chunks]. *)
Fixpoint rebuild_batches (starts : list nat) : M unit :=
  match starts with
  | [] => mret tt
  | i :: r =>
    cs ← gets (fun w => chunks (st w));
    cs' ← embed_batch i cs;
    modify (with_st (set_chunks cs'));;
    let batch_length := length (take BATCH (drop i cs)) in
    setProgress ((5 # 100) + (95 # 100) * (num (i + batch_length) / num (length cs)));;
    rebuild_batches r
  end.

(** [rebuildAllEmbeddings()] *)
Definition rebuildAllEmbeddings : M unit :=
  cs ← gets (fun w => chunks (st w));
  if (length cs =? 0)%nat then alert MSG_NO_CHUNKS
  else
    ensureEmbedder env;;
    setStatus (js "전체 재인덱싱(임베딩 재생성) 중…");;
    setProgress (5 # 100);;
    rebuild_batches (batch_starts (length cs));;
    cs ← gets (fun w => chunks (st w));
    dbPutMany_chunks env cs;;
    setProgress 0;;
    setStatus (js "전체 재인덱싱 완료");;
    refreshStats.

End Ingestion.

(** *** Predicates on ingestion *)

(** An embedder that answers every batch with one row per text. *)
Definition row_per_text (p : Embedder) : Prop :=
  forall texts, exists t, p texts = Ok t /\ fst (dims t) = length texts.

(** Every chunk carries a string under [text]. *)
Definition has_text (c : Chunk) : bool :=
  match chunk_get c (js "text") with Some (JStr _) => true | _ => false end.

Definition has_key (c : Chunk) : bool :=
  match chunk_key c with Some _ => true | None => false end.

Definition embedded (c : Chunk) : bool :=
  match embedding c with Some _ => true | None => false end.

(** The page with the corpus of [corpus_world] and the demo embedder
    loaded. *)
Definition loaded_world : World := snd (ensureEmbedder demo_env corpus_world).

Definition demo_file : File :=
  mkFile (js "notes.txt") (js "text/plain") 53
         (Ok (js "Alpha is the first letter. Beta is the second letter."))
         (Throw (ExternalError (js "InvalidPDFException"))).

Definition ascii_lower (s : jsstr) : jsstr :=
  map (fun c => if (65 <=? c)%N && (c <=? 90)%N then (c + 32)%N else c) s.

Definition no_other : Embedder -> list (option json) -> Result Tensor :=
  fun _ _ => Throw TypeError.

(** [c] is a chunk of document [docId] as [indexFile] makes them: it
    carries the document id, a string text and a key for the store. *)
Definition made_for (docId : jsstr) (c : Chunk) : Prop :=
  chunk_get c (js "docId") = Some (JStr docId) /\ has_text c = true /\ has_key c = true.

(** The documents, the chunks and the store hold what they held in [w],
    and the record [doc] with the chunks [newChunks] after it. *)
Definition committed (doc : json) (docId : jsstr) (newChunks : list Chunk) (w w' : World)
    : Prop :=
  docs (st w') = docs (st w) ++ [doc] /\
  chunks (st w') = chunks (st w) ++ newChunks /\
  db_docs (db w') = store_put (JStr docId) doc (db_docs (db w)) /\
  put_all chunk_key newChunks (db_chunks (db w)) = (Ok tt, db_chunks (db w')).

(** How far [indexFile] got with the record [doc] and the chunks
    [newChunks] when it left with the result [r].  The record was appended
    to the documents.  Then either the chunks were too many for one call of
    [push], which threw RangeError before anything else was written; or
    the chunks were appended, and of the two writes to the store the first
    was rejected (the store is as it was), or the first was made and the
    second was rejected (the store holds the record but not its chunks),
    or both were made. *)
Definition ingested (env : Env) (doc : json) (docId : jsstr) (newChunks : list Chunk)
    (r : Result unit) (w w' : World) : Prop :=
  engine (st w') = engine (st w) /\ downloads w' = downloads w /\
  docs (st w') = docs (st w) ++ [doc] /\
  ((~ fits env newChunks /\ r = Throw RangeError /\
    chunks (st w') = chunks (st w) /\ db w' = db w) \/
   (fits env newChunks /\ chunks (st w') = chunks (st w) ++ newChunks /\
    ((~ accepts env (PUT_REQUESTS STORE_DOCS) /\ r <> Ok tt /\ db w' = db w) \/
     (accepts env (PUT_REQUESTS STORE_DOCS) /\
      db_docs (db w') = store_put (JStr docId) doc (db_docs (db w)) /\
      ((~ accepts env (PUT_REQUESTS STORE_CHUNKS) /\ r <> Ok tt /\
        db_chunks (db w') = db_chunks (db w)) \/
       (accepts env (PUT_REQUESTS STORE_CHUNKS) /\
        put_all chunk_key newChunks (db_chunks (db w)) = (Ok tt, db_chunks (db w')))))))).

(** The generator, the documents, the store, the transcript and the
    downloads are the same, and so are the chunks up to their embeddings. *)
Definition records_kept (w w' : World) : Prop :=
  engine (st w') = engine (st w) /\ docs (st w') = docs (st w) /\
  map props (chunks (st w')) = map props (chunks (st w)) /\
  db w' = db w /\ chat (ui w') = chat (ui w) /\ downloads w' = downloads w.

(** A browser that cannot fetch the Transformers.js module. *)
Definition offline_env : Env :=
  mkEnv false (Throw (ExternalError (js "TypeError: Failed to fetch dynamically imported module")))
        (js "2026-01-01T00:00:00.000Z") 1767225600000%N demo_to_text
        125000%N (fun _ => None).

(* ===================================================================== *)
(** * Properties                                                          *)
(* ===================================================================== *)

(** ** Doubles: order and the sign of a difference *)

(** *** Valid numbers *)

Lemma digits2_size p : digits2_pos p = Pos.size p.
Proof. induction p; simpl; congruence. Qed.

Lemma digits2_bounds p :
  2 ^ (Z.pos (digits2_pos p) - 1) <= Z.pos p < 2 ^ Z.pos (digits2_pos p).
Proof.
  rewrite digits2_size. split.
  - pose proof (Pos.size_le p) as H.
    assert (Hz : Z.pos (2 ^ Pos.size p) <= Z.pos p~0) by exact H.
    rewrite Pos2Z.inj_pow in Hz.
    replace (Z.pos (Pos.size p)) with (Z.succ (Z.pos (Pos.size p) - 1)) in Hz by lia.
    rewrite Z.pow_succ_r in Hz by lia. lia.
  - pose proof (Pos.size_gt p) as H.
    assert (Hz : Z.pos p < Z.pos (2 ^ Pos.size p)) by exact H.
    rewrite Pos2Z.inj_pow in Hz. exact Hz.
Qed.

Lemma bounded_spec m e :
  bounded prec emax m e = true ->
  -1074 <= e <= 971 /\ Z.pos (digits2_pos m) <= 53 /\
  (-1074 < e -> Z.pos (digits2_pos m) = 53).
Proof.
  unfold bounded, canonical_mantissa, fexp, SpecFloat.emin, prec, emax.
  rewrite andb_true_iff, Z.eqb_eq, Z.leb_le. lia.
Qed.

(** Of two valid significands the one with the smaller exponent is the
    smaller number. *)
Lemma scaled_lt m1 m2 a b :
  Z.pos m1 < 2 ^ 53 -> 2 ^ 52 <= Z.pos m2 -> 0 <= a < b ->
  Z.pos m1 * 2 ^ a < Z.pos m2 * 2 ^ b.
Proof.
  intros H1 H2 Hab.
  assert (Ha : 0 < 2 ^ a) by (apply Z.pow_pos_nonneg; lia).
  assert (Hb : 2 ^ (a + 1) <= 2 ^ b) by (apply Z.pow_le_mono_r; lia).
  rewrite Z.pow_add_r in Hb by lia. change (2 ^ 1) with 2 in Hb.
  apply Z.lt_le_trans with (2 ^ 53 * 2 ^ a).
  - apply Z.mul_lt_mono_pos_r; assumption.
  - apply Z.le_trans with (2 ^ 52 * 2 ^ b).
    + change (2 ^ 53) with (2 ^ 52 * 2). rewrite <- Z.mul_assoc.
      apply Z.mul_le_mono_nonneg_l; lia.
    + apply Z.mul_le_mono_nonneg_r; lia.
Qed.

Lemma finite_compare m1 e1 m2 e2 :
  bounded prec emax m1 e1 = true -> bounded prec emax m2 e2 = true ->
  match e1 ?= e2 with
  | Lt => Lt
  | Gt => Gt
  | Eq => Pos.compare_cont Eq m1 m2
  end = (Z.pos m1 * 2 ^ (e1 + 1074) ?= Z.pos m2 * 2 ^ (e2 + 1074)).
Proof.
  intros B1 B2.
  destruct (bounded_spec _ _ B1) as (He1 & Hd1 & Hn1).
  destruct (bounded_spec _ _ B2) as (He2 & Hd2 & Hn2).
  pose proof (digits2_bounds m1) as [L1 U1].
  pose proof (digits2_bounds m2) as [L2 U2].
  assert (U1' : Z.pos m1 < 2 ^ 53).
  { eapply Z.lt_le_trans; [exact U1|]. apply Z.pow_le_mono_r; lia. }
  assert (U2' : Z.pos m2 < 2 ^ 53).
  { eapply Z.lt_le_trans; [exact U2|]. apply Z.pow_le_mono_r; lia. }
  destruct (Z.compare_spec e1 e2) as [E|E|E].
  - subst e2. rewrite <- Zmult_compare_compat_r.
    + reflexivity.
    + apply Z.lt_gt, Z.pow_pos_nonneg; lia.
  - symmetry. apply Z.compare_lt_iff. apply scaled_lt; try lia.
    rewrite Hn2 in L2 by lia. exact L2.
  - symmetry. apply Z.compare_gt_iff. apply scaled_lt; try lia.
    rewrite Hn1 in L1 by lia. exact L1.
Qed.

Lemma finite_below_infinity m e :
  bounded prec emax m e = true -> 0 < Z.pos m * 2 ^ (e + 1074) < 2 ^ 2098.
Proof.
  intros B. destruct (bounded_spec _ _ B) as (He & Hd & _).
  pose proof (digits2_bounds m) as [_ U].
  assert (Hp : 0 < 2 ^ (e + 1074)) by (apply Z.pow_pos_nonneg; lia).
  split; [lia|].
  apply Z.lt_le_trans with (2 ^ 53 * 2 ^ (e + 1074)).
  - apply Z.mul_lt_mono_pos_r; [exact Hp|].
    eapply Z.lt_le_trans; [exact U|]. apply Z.pow_le_mono_r; lia.
  - rewrite <- Z.pow_add_r by lia. apply Z.pow_le_mono_r; lia.
Qed.

(** On valid numbers that are not NaN the IEEE comparison is the
    comparison of the values. *)
Lemma SFcompare_fval x y :
  SpecFloat.valid_binary prec emax x = true -> SpecFloat.valid_binary prec emax y = true ->
  is_nan_sf x = false -> is_nan_sf y = false ->
  SFcompare x y = Some (fval x ?= fval y).
Proof.
  intros Vx Vy Nx Ny.
  destruct x as [sx|sx| |sx mx ex]; try discriminate;
  destruct y as [sy|sy| |sy my ey]; try discriminate;
  cbn [SpecFloat.valid_binary] in Vx, Vy;
  try (pose proof (finite_below_infinity _ _ Vx) as Hx);
  try (pose proof (finite_below_infinity _ _ Vy) as Hy).
  1-8: destruct sx, sy; cbn [SFcompare fval cond_Zopp]; f_equal; symmetry;
    first [ reflexivity
          | apply Z.compare_gt_iff; lia
          | apply Z.compare_lt_iff; lia ].
  - pose proof (finite_compare _ _ _ _ Vx Vy) as Hc.
    destruct sx, sy; cbn [SFcompare fval cond_Zopp]; f_equal.
    + rewrite Z.compare_opp, (Z.compare_antisym (Z.pos mx * _)), <- Hc.
      destruct (ex ?= ey); reflexivity.
    + symmetry. apply Z.compare_lt_iff. lia.
    + symmetry. apply Z.compare_gt_iff. lia.
    + exact Hc.
Qed.


(** *** Rounding keeps the sign *)

Lemma shr_1_m r : 0 <= shr_m r -> shr_m (shr_1 r) = Z.shiftr (shr_m r) 1.
Proof.
  destruct r as [m rr ss]. cbn [shr_m shr_1]. intros H.
  rewrite <- Z.div2_spec.
  destruct m as [|p|p]; [reflexivity| |lia].
  destruct p; reflexivity.
Qed.

Lemma shr_m_iter n : forall r,
  0 <= shr_m r -> shr_m (SpecFloat.iter_pos shr_1 n r) = Z.shiftr (shr_m r) (Z.pos n).
Proof.
  induction n as [n IH|n IH|]; intros r Hr; cbn [SpecFloat.iter_pos].
  - assert (H1 : 0 <= shr_m (shr_1 r)) by (rewrite shr_1_m by exact Hr; apply Z.shiftr_nonneg; exact Hr).
    assert (H2 : 0 <= shr_m (SpecFloat.iter_pos shr_1 n (shr_1 r))) by (rewrite IH by exact H1; apply Z.shiftr_nonneg; exact H1).
    rewrite IH by exact H2. rewrite IH by exact H1. rewrite shr_1_m by exact Hr.
    rewrite !Z.shiftr_shiftr by lia. f_equal. lia.
  - assert (H1 : 0 <= shr_m (SpecFloat.iter_pos shr_1 n r)) by (rewrite IH by exact Hr; apply Z.shiftr_nonneg; exact Hr).
    rewrite IH by exact H1. rewrite IH by exact Hr.
    rewrite Z.shiftr_shiftr by lia. f_equal. lia.
  - apply shr_1_m. exact Hr.
Qed.

Lemma shr_record_of_loc_m m l : shr_m (shr_record_of_loc m l) = m.
Proof. destruct l as [|[]]; reflexivity. Qed.

Lemma shr_fexp_pos m e l :
  0 < m -> -1074 <= e ->
  0 < shr_m (fst (shr_fexp prec emax m e l)) /\ -1074 <= snd (shr_fexp prec emax m e l).
Proof.
  intros Hm He. unfold shr_fexp, shr.
  destruct m as [|p|p]; try lia. cbn [Zdigits2].
  pose proof (digits2_bounds p) as [L _].
  remember (fexp prec emax (Z.pos (digits2_pos p) + e) - e) as n eqn:En.
  unfold fexp, SpecFloat.emin, prec, emax in En.
  destruct n as [|pn|pn]; cbn [fst snd]; rewrite ?shr_record_of_loc_m; try lia.
  rewrite shr_m_iter by (rewrite shr_record_of_loc_m; lia).
  rewrite shr_record_of_loc_m. split; [|lia].
  rewrite Z.shiftr_div_pow2 by lia.
  apply Z.div_str_pos. split; [apply Z.pow_pos_nonneg; lia|].
  eapply Z.le_trans; [|exact L]. apply Z.pow_le_mono_r; lia.
Qed.

Lemma round_nearest_even_pos m l : 0 < m -> 0 < round_nearest_even m l.
Proof.
  intros H. destruct l as [|[]]; cbn [round_nearest_even]; try lia.
  destruct (Z.even m); lia.
Qed.

Lemma binary_round_aux_signed s m e l :
  0 < m -> -1074 <= e -> signed s (binary_round_aux prec emax s m e l).
Proof.
  intros Hm He. unfold binary_round_aux.
  pose proof (shr_fexp_pos m e l Hm He) as [H1 H2].
  destruct (shr_fexp prec emax m e l) as [mrs' e']. cbn [fst snd] in H1, H2.
  pose proof (round_nearest_even_pos _ (loc_of_shr_record mrs') H1) as H3.
  pose proof (shr_fexp_pos _ e' loc_Exact H3 H2) as [H4 _].
  destruct (shr_fexp prec emax _ e' loc_Exact) as [mrs'' e'']. cbn [fst] in H4.
  destruct (shr_m mrs''); try lia.
  destruct (e'' <=? emax - prec); reflexivity.
Qed.

Lemma binary_round_signed s p e :
  -1074 <= e -> signed s (binary_round prec emax s p e).
Proof.
  intros He. unfold binary_round, shl_align.
  assert (Hf : -1074 <= fexp prec emax (Z.pos (digits2_pos p) + e))
    by (unfold fexp, SpecFloat.emin, prec, emax; lia).
  destruct (fexp prec emax (Z.pos (digits2_pos p) + e) - e);
    apply binary_round_aux_signed; lia.
Qed.

Lemma iter_xO_val d : forall m, Z.pos (Pos.iter xO m d) = Z.pos m * 2 ^ Z.pos d.
Proof.
  induction d as [|d IH] using Pos.peano_ind; intros m.
  - cbn [Pos.iter]. lia.
  - rewrite Pos.iter_succ, Pos2Z.inj_succ, Z.pow_succ_r by lia.
    rewrite Pos2Z.inj_xO, IH. lia.
Qed.

Lemma shl_align_val m e ez :
  ez <= e -> Z.pos (fst (shl_align m e ez)) = Z.pos m * 2 ^ (e - ez).
Proof.
  intros H. unfold shl_align.
  destruct (ez - e) as [|d|d] eqn:E; cbn [fst]; try lia.
  - replace (e - ez) with 0 by lia. lia.
  - rewrite iter_xO_val. f_equal. f_equal. lia.
Qed.

Lemma SFltb_zero_signed s r :
  signed s r -> SFltb (S754_zero false) r = negb s.
Proof. destruct r as [| | |s' m e]; cbn [signed]; try tauto; intros ->; destruct s; reflexivity. Qed.

Lemma SFltb_fval x y :
  SpecFloat.valid_binary prec emax x = true -> SpecFloat.valid_binary prec emax y = true ->
  is_nan_sf x = false -> is_nan_sf y = false ->
  SFltb x y = (fval x <? fval y).
Proof.
  intros Vx Vy Nx Ny. unfold SFltb, Z.ltb.
  rewrite (SFcompare_fval x y Vx Vy Nx Ny). reflexivity.
Qed.

(** The sign of a difference tells the order: [0 < y - x] exactly when
    [x < y] (a difference of two doubles never rounds to zero). *)
Lemma SFsub_sign x y :
  SpecFloat.valid_binary prec emax x = true -> SpecFloat.valid_binary prec emax y = true ->
  is_nan_sf x = false -> is_nan_sf y = false ->
  SFltb (S754_zero false) (SFsub prec emax y x) = SFltb x y.
Proof.
  intros Vx Vy Nx Ny.
  rewrite (SFltb_fval x y Vx Vy Nx Ny).
  destruct x as [sx|sx| |sx mx ex]; try discriminate;
  destruct y as [sy|sy| |sy my ey]; try discriminate;
  cbn [SpecFloat.valid_binary] in Vx, Vy;
  try (pose proof (finite_below_infinity _ _ Vx) as Hx);
  try (pose proof (finite_below_infinity _ _ Vy) as Hy).
  1-8: destruct sx, sy; cbn [SFsub fval cond_Zopp negb SFltb SFcompare]; symmetry;
    first [ reflexivity | apply Z.ltb_lt; lia | apply Z.ltb_ge; lia ].
  clear Hx Hy.
  destruct (bounded_spec _ _ Vx) as (Hex & _).
  destruct (bounded_spec _ _ Vy) as (Hey & _).
  cbn [SFsub].
  set (ez := Z.min ey ex).
  rewrite (shl_align_val my ey ez), (shl_align_val mx ex ez) by (apply Z.le_min_l || apply Z.le_min_r).
  set (D := cond_Zopp sy (Z.pos my * 2 ^ (ey - ez)) - cond_Zopp sx (Z.pos mx * 2 ^ (ex - ez))).
  assert (HD : D * 2 ^ (ez + 1074) = fval (S754_finite sy my ey) - fval (S754_finite sx mx ex)).
  { unfold D. cbn [fval].
    replace (ey + 1074) with ((ey - ez) + (ez + 1074)) by lia.
    replace (ex + 1074) with ((ex - ez) + (ez + 1074)) by lia.
    assert (ez <= ey) by apply Z.le_min_l. assert (ez <= ex) by apply Z.le_min_r.
    assert (-1074 <= ez) by (apply Z.min_glb; lia).
    rewrite (Z.pow_add_r 2 (ey - ez) (ez + 1074)), (Z.pow_add_r 2 (ex - ez) (ez + 1074)) by lia.
    destruct sx, sy; cbn [cond_Zopp]; ring. }
  assert (Hez : -1074 <= ez) by (apply Z.min_glb; lia).
  assert (Hp : 0 < 2 ^ (ez + 1074)) by (apply Z.pow_pos_nonneg; lia).
  destruct D as [|p|p] eqn:ED; cbn [binary_normalize].
  - cbn [SFltb SFcompare]. symmetry. apply Z.ltb_ge. lia.
  - rewrite (SFltb_zero_signed false) by (apply binary_round_signed; exact Hez).
    symmetry. apply Z.ltb_lt. nia.
  - rewrite (SFltb_zero_signed true) by (apply binary_round_signed; exact Hez).
    symmetry. apply Z.ltb_ge. nia.
Qed.

(** *** Doubles *)

Lemma Prim2SF_is_nan x : is_nan_sf (Prim2SF x) = is_nan x.
Proof.
  unfold Prim2SF. destruct (is_nan x); [reflexivity|].
  destruct (is_zero x); [reflexivity|].
  destruct (is_infinity x); [reflexivity|].
  destruct (Z.frexp x) as [r e].
  destruct (shr_fexp _ _ _ _ _) as [s e'].
  destruct (shr_m s); reflexivity.
Qed.

Lemma ltb_fv x y :
  is_nan x = false -> is_nan y = false -> (x <? y)%float = (fv x <? fv y).
Proof.
  intros Nx Ny. rewrite FloatAxioms.ltb_spec. apply SFltb_fval; try apply Prim2SF_valid;
    rewrite Prim2SF_is_nan; assumption.
Qed.

Lemma leb_fv x y :
  is_nan x = false -> is_nan y = false -> (x <=? y)%float = (fv x <=? fv y).
Proof.
  intros Nx Ny. rewrite FloatAxioms.leb_spec. unfold SFleb, Z.leb, fv.
  rewrite SFcompare_fval; try apply Prim2SF_valid; try (rewrite Prim2SF_is_nan; assumption).
  destruct (_ ?= _); reflexivity.
Qed.

Lemma eqb_fv x y :
  is_nan x = false -> is_nan y = false -> (x =? y)%float = (fv x =? fv y).
Proof.
  intros Nx Ny. rewrite FloatAxioms.eqb_spec. unfold SFeqb, fv.
  rewrite SFcompare_fval; try apply Prim2SF_valid; try (rewrite Prim2SF_is_nan; assumption).
  destruct (Z.compare_spec (fval (Prim2SF x)) (fval (Prim2SF y))); symmetry;
    [apply Z.eqb_eq; assumption | apply Z.eqb_neq; lia | apply Z.eqb_neq; lia].
Qed.

Lemma float_sub_sign x y :
  is_nan x = false -> is_nan y = false -> (0 <? y - x)%float = (x <? y)%float.
Proof.
  intros Nx Ny. rewrite !FloatAxioms.ltb_spec, FloatAxioms.sub_spec.
  change (Prim2SF 0) with (S754_zero false).
  apply SFsub_sign; try apply Prim2SF_valid; rewrite Prim2SF_is_nan; assumption.
Qed.

Lemma SFmul_comm x y : SFmul prec emax x y = SFmul prec emax y x.
Proof.
  destruct x as [sx|sx| |sx mx ex], y as [sy|sy| |sy my ey]; cbn [SFmul];
    rewrite ?(xorb_comm sx sy); try reflexivity.
  rewrite (Pos.mul_comm mx my), (Z.add_comm ex ey). reflexivity.
Qed.

Lemma float_mul_comm x y : (x * y)%float = (y * x)%float.
Proof. apply Prim2SF_inj. rewrite !FloatAxioms.mul_spec. apply SFmul_comm. Qed.

(** *** Whole numbers are added and subtracted exactly *)

Lemma iter_pos_nat {A} (f : A -> A) n : forall x,
  SpecFloat.iter_pos f n x = Nat.iter (Pos.to_nat n) f x.
Proof.
  induction n as [n IH|n IH|]; intros x; cbn [SpecFloat.iter_pos].
  - rewrite !IH, Pos2Nat.inj_xI.
    replace (S (2 * Pos.to_nat n))%nat with (Pos.to_nat n + (Pos.to_nat n + 1))%nat by lia.
    rewrite !Nat.iter_add. reflexivity.
  - rewrite !IH, Pos2Nat.inj_xO.
    replace (2 * Pos.to_nat n)%nat with (Pos.to_nat n + Pos.to_nat n)%nat by lia.
    rewrite Nat.iter_add. reflexivity.
  - reflexivity.
Qed.

Lemma iter_xO_nat_val k : forall q, Z.pos (Nat.iter k xO q) = Z.pos q * 2 ^ Z.of_nat k.
Proof.
  induction k as [|k IH]; intros q.
  - cbn [Nat.iter nat_rect]. change (2 ^ Z.of_nat 0) with 1. lia.
  - rewrite Nat2Z.inj_succ, Z.pow_succ_r by lia.
    change (Nat.iter (S k) xO q) with (xO (Nat.iter k xO q)).
    rewrite Pos2Z.inj_xO, IH. lia.
Qed.

Lemma iter_shr_1_exact k : forall q,
  Nat.iter k shr_1 (Build_shr_record (Z.pos (Nat.iter k xO q)) false false)
  = Build_shr_record (Z.pos q) false false.
Proof.
  induction k as [|k IH]; intros q; [reflexivity|].
  rewrite Nat.iter_succ_r.
  change (Nat.iter (S k) xO q) with (xO (Nat.iter k xO q)).
  cbn [shr_1 orb]. apply IH.
Qed.

Lemma digits2_xO_nat k : forall q,
  Z.pos (digits2_pos (Nat.iter k xO q)) = Z.pos (digits2_pos q) + Z.of_nat k.
Proof.
  induction k as [|k IH]; intros q.
  - cbn [Nat.iter nat_rect]. lia.
  - change (Nat.iter (S k) xO q) with (xO (Nat.iter k xO q)).
    cbn [digits2_pos]. rewrite Pos2Z.inj_succ, IH. lia.
Qed.

(** A significand that is a multiple of [2^c] is [q] shifted [c] places. *)
Lemma shifted_significand p q c :
  0 <= c -> Z.pos p = Z.pos q * 2 ^ c -> p = Nat.iter (Z.to_nat c) xO q.
Proof.
  intros Hc H. apply Pos2Z.inj. rewrite iter_xO_nat_val, Z2Nat.id by exact Hc. exact H.
Qed.

Lemma shr_fexp_canonical q e :
  fexp prec emax (Z.pos (digits2_pos q) + e) = e ->
  shr_fexp prec emax (Z.pos q) e loc_Exact = (Build_shr_record (Z.pos q) false false, e).
Proof.
  intros H. unfold shr_fexp. cbn [Zdigits2]. rewrite H, Z.sub_diag. reflexivity.
Qed.

Lemma binary_round_aux_canonical s q e :
  fexp prec emax (Z.pos (digits2_pos q) + e) = e -> e <= 971 ->
  binary_round_aux prec emax s (Z.pos q) e loc_Exact = S754_finite s q e.
Proof.
  intros H He. unfold binary_round_aux.
  rewrite (shr_fexp_canonical q e H).
  cbn [shr_m loc_of_shr_record round_nearest_even].
  rewrite (shr_fexp_canonical q e H). cbn [shr_m].
  destruct (Z.leb_spec e (emax - prec)) as [_|Hn]; [reflexivity|].
  unfold emax, prec in Hn. lia.
Qed.

Lemma binary_round_aux_shift s p q e c :
  0 < c -> fexp prec emax (Z.pos (digits2_pos p) + e) - e = c ->
  Z.pos p = Z.pos q * 2 ^ c -> e + c <= 971 ->
  binary_round_aux prec emax s (Z.pos p) e loc_Exact = S754_finite s q (e + c).
Proof.
  intros Hc Hf Hp He.
  pose proof (shifted_significand p q c ltac:(lia) Hp) as Ep.
  assert (Hd : Z.pos (digits2_pos p) = Z.pos (digits2_pos q) + c).
  { rewrite Ep, digits2_xO_nat, Z2Nat.id by lia. reflexivity. }
  assert (Hq : fexp prec emax (Z.pos (digits2_pos q) + (e + c)) = e + c).
  { replace (Z.pos (digits2_pos q) + (e + c)) with (Z.pos (digits2_pos p) + e) by lia. lia. }
  unfold binary_round_aux.
  assert (H1 : shr_fexp prec emax (Z.pos p) e loc_Exact
               = (Build_shr_record (Z.pos q) false false, e + c)).
  { unfold shr_fexp. cbn [Zdigits2]. rewrite Hf.
    destruct c as [|c'|c']; try lia. cbn [shr shr_record_of_loc].
    rewrite iter_pos_nat. f_equal.
    rewrite Ep. change (Z.to_nat (Z.pos c')) with (Pos.to_nat c').
    apply iter_shr_1_exact. }
  rewrite H1. cbn [shr_m loc_of_shr_record round_nearest_even].
  rewrite (shr_fexp_canonical q (e + c) Hq). cbn [shr_m].
  destruct (Z.leb_spec (e + c) (emax - prec)) as [_|Hn]; [reflexivity|].
  unfold emax, prec in Hn. lia.
Qed.

Lemma digits2_iter_xO d m :
  Z.pos (digits2_pos (Pos.iter xO m d)) = Z.pos (digits2_pos m) + Z.pos d.
Proof.
  induction d as [|d IH] using Pos.peano_ind.
  - cbn [Pos.iter digits2_pos]. lia.
  - rewrite Pos.iter_succ. cbn [digits2_pos]. rewrite !Pos2Z.inj_succ, IH. lia.
Qed.

(** Rounding a number that a double holds gives that number. *)
Lemma binary_round_exact s p e :
  -1074 <= e -> Z.pos (digits2_pos p) + e <= 1024 ->
  (2 ^ Z.max 0 (fexp prec emax (Z.pos (digits2_pos p) + e) - e) | Z.pos p) ->
  exists m' e',
    binary_round prec emax s p e = S754_finite s m' e' /\
    Z.pos m' * 2 ^ (e' + 1074) = Z.pos p * 2 ^ (e + 1074).
Proof.
  intros He Hd Hdiv. unfold binary_round, shl_align.
  set (t := fexp prec emax (Z.pos (digits2_pos p) + e)) in *.
  assert (Ht : -1074 <= t <= 971) by (unfold t, fexp, SpecFloat.emin, prec, emax; lia).
  destruct (t - e) as [|c|d] eqn:E.
  - exists p, e. split; [|reflexivity].
    apply binary_round_aux_canonical; fold t; lia.
  - rewrite Z.max_r in Hdiv by lia. destruct Hdiv as [z Hz].
    assert (Hzp : 0 < z) by nia.
    destruct z as [|q|q]; try lia.
    exists q, (e + Z.pos c). split.
    + apply binary_round_aux_shift; [lia|exact E|exact Hz|lia].
    + replace (e + Z.pos c + 1074) with (Z.pos c + (e + 1074)) by lia.
      rewrite (Z.pow_add_r 2 (Z.pos c) (e + 1074)) by lia. rewrite Hz. ring.
  - exists (Pos.iter xO p d), t. split.
    + apply binary_round_aux_canonical; [|lia].
      rewrite digits2_iter_xO.
      replace (Z.pos (digits2_pos p) + Z.pos d + t) with (Z.pos (digits2_pos p) + e) by lia.
      reflexivity.
    + rewrite iter_xO_val.
      replace (e + 1074) with (Z.pos d + (t + 1074)) by lia.
      rewrite (Z.pow_add_r 2 (Z.pos d) (t + 1074)) by lia. ring.
Qed.

Lemma pow2_pos a : 0 <= a -> 0 < 2 ^ a.
Proof. intros H. apply Z.pow_pos_nonneg; lia. Qed.

Lemma binary_round_whole s p e n :
  -1074 <= e -> Z.pos p * 2 ^ (e + 1074) = n * 2 ^ 1074 -> 0 < n < 2 ^ 53 ->
  exists m' e',
    binary_round prec emax s p e = S754_finite s m' e' /\
    Z.pos m' * 2 ^ (e' + 1074) = n * 2 ^ 1074.
Proof.
  intros He Hv Hn.
  assert (Hd : Z.pos (digits2_pos p) + e <= 53).
  { destruct (Z.le_gt_cases (Z.pos (digits2_pos p) + e) 53) as [H|H]; [exact H|exfalso].
    pose proof (digits2_bounds p) as [L _].
    assert (H1 : 2 ^ (53 + 1074) <= 2 ^ (Z.pos (digits2_pos p) - 1 + (e + 1074)))
      by (apply Z.pow_le_mono_r; lia).
    rewrite (Z.pow_add_r 2 (Z.pos (digits2_pos p) - 1) (e + 1074)) in H1 by lia.
    rewrite (Z.pow_add_r 2 53 1074) in H1 by lia.
    pose proof (pow2_pos (e + 1074) ltac:(lia)) as Hw.
    pose proof (pow2_pos 1074 ltac:(lia)) as Hu.
    assert (H2 : 2 ^ (Z.pos (digits2_pos p) - 1) * 2 ^ (e + 1074) <= Z.pos p * 2 ^ (e + 1074))
      by (apply Z.mul_le_mono_nonneg_r; lia).
    assert (H3 : n * 2 ^ 1074 < 2 ^ 53 * 2 ^ 1074)
      by (apply Z.mul_lt_mono_pos_r; lia).
    lia. }
  destruct (binary_round_exact s p e He ltac:(lia)) as (m' & e' & Hr & Hm).
  - set (t := fexp prec emax (Z.pos (digits2_pos p) + e)).
    destruct (Z.le_gt_cases (t - e) 0) as [H|H].
    + rewrite Z.max_l by lia. exists (Z.pos p). change (2 ^ 0) with 1. lia.
    + rewrite Z.max_r by lia.
      assert (Ht : t = Z.pos (digits2_pos p) + e - 53).
      { unfold t, fexp, SpecFloat.emin, prec, emax in *. lia. }
      exists (n * 2 ^ (- e - (t - e))).
      rewrite <- Z.mul_assoc, <- Z.pow_add_r by lia.
      replace (- e - (t - e) + (t - e)) with (- e) by lia.
      apply (Z.mul_reg_r _ _ (2 ^ (e + 1074)));
        [pose proof (pow2_pos (e + 1074) ltac:(lia)); lia|].
      rewrite Hv, <- Z.mul_assoc, <- Z.pow_add_r by lia.
      f_equal. f_equal. lia.
  - exists m', e'. split; [exact Hr|]. rewrite Hm. exact Hv.
Qed.

Lemma binary_normalize_whole M e n szero :
  -1074 <= e -> M * 2 ^ (e + 1074) = n * 2 ^ 1074 -> - 2 ^ 53 < n < 2 ^ 53 ->
  whole (binary_normalize prec emax M e szero) n.
Proof.
  intros He Hv Hn.
  pose proof (pow2_pos (e + 1074) ltac:(lia)) as Hw.
  pose proof (pow2_pos 1074 ltac:(lia)) as Hu.
  destruct M as [|p|p]; cbn [binary_normalize].
  - split; [reflexivity|]. cbn [fval]. lia.
  - destruct (binary_round_whole false p e n He Hv) as (m' & e' & -> & Hm).
    { split; [|lia]. nia. }
    split; [reflexivity|]. cbn [fval cond_Zopp]. exact Hm.
  - destruct (binary_round_whole true p e (- n) He) as (m' & e' & -> & Hm).
    { rewrite Z.mul_opp_l, <- Hv. lia. }
    { split; [|lia]. nia. }
    split; [reflexivity|]. cbn [fval cond_Zopp]. rewrite Hm. lia.
Qed.

Lemma aligned_value s m e ez :
  ez <= e -> -1074 <= ez ->
  cond_Zopp s (Z.pos (fst (shl_align m e ez))) * 2 ^ (ez + 1074)
  = cond_Zopp s (Z.pos m * 2 ^ (e + 1074)).
Proof.
  intros H He. rewrite shl_align_val by exact H.
  replace (e + 1074) with (e - ez + (ez + 1074)) by lia.
  rewrite (Z.pow_add_r 2 (e - ez) (ez + 1074)) by lia.
  destruct s; cbn [cond_Zopp]; ring.
Qed.

(** A whole number below [2^53] in size is zero or finite. *)
Lemma whole_cases x a :
  whole x a -> Z.abs a <= 2 ^ 53 ->
  match x with
  | S754_zero _ => a = 0
  | S754_finite _ _ _ => True
  | _ => False
  end.
Proof.
  intros [Hn Hv] Ha. pose proof (pow2_pos 1074 ltac:(lia)) as Hu.
  destruct x as [s|s| |s m e]; cbn [fval is_nan_sf] in *; try discriminate; [nia| |exact I].
  change (2 ^ 2098) with (2 ^ 1024 * 2 ^ 1074) in Hv.
  assert (H : cond_Zopp s (2 ^ 1024) = a).
  { apply (Z.mul_reg_r _ _ (2 ^ 1074)); [lia|]. rewrite <- Hv. destruct s; cbn [cond_Zopp]; ring. }
  assert (H2 : 2 ^ 53 < 2 ^ 1024) by (apply Z.pow_lt_mono_r; lia).
  destruct s; cbn [cond_Zopp] in H; lia.
Qed.

Lemma SFadd_whole x y a b :
  SpecFloat.valid_binary prec emax x = true -> SpecFloat.valid_binary prec emax y = true ->
  whole x a -> whole y b ->
  Z.abs a <= 2 ^ 53 -> Z.abs b <= 2 ^ 53 -> - 2 ^ 53 < a + b < 2 ^ 53 ->
  whole (SFadd prec emax x y) (a + b).
Proof.
  intros Vx Vy Hx Hy Ha Hb Hab.
  pose proof (whole_cases x a Hx Ha) as Cx. pose proof (whole_cases y b Hy Hb) as Cy.
  destruct Hx as [_ Hx], Hy as [_ Hy].
  destruct x as [sx|sx| |sx mx ex]; try contradiction;
    destruct y as [sy|sy| |sy my ey]; try contradiction; subst; cbn [SFadd].
  - destruct sx, sy; split; reflexivity.
  - split; [reflexivity|]. rewrite Hy. ring.
  - split; [reflexivity|]. rewrite Hx. ring.
  - cbn [SpecFloat.valid_binary] in Vx, Vy.
    apply bounded_spec in Vx as [Vx _], Vy as [Vy _].
    apply binary_normalize_whole; [lia| |exact Hab].
    rewrite Z.mul_add_distr_r, !aligned_value by lia.
    cbn [fval] in Hx, Hy. rewrite Hx, Hy. ring.
Qed.

Lemma SFsub_whole x y a b :
  SpecFloat.valid_binary prec emax x = true -> SpecFloat.valid_binary prec emax y = true ->
  whole x a -> whole y b ->
  Z.abs a <= 2 ^ 53 -> Z.abs b <= 2 ^ 53 -> - 2 ^ 53 < a - b < 2 ^ 53 ->
  whole (SFsub prec emax x y) (a - b).
Proof.
  intros Vx Vy Hx Hy Ha Hb Hab.
  pose proof (whole_cases x a Hx Ha) as Cx. pose proof (whole_cases y b Hy Hb) as Cy.
  destruct Hx as [_ Hx], Hy as [_ Hy].
  destruct x as [sx|sx| |sx mx ex]; try contradiction;
    destruct y as [sy|sy| |sy my ey]; try contradiction; subst; cbn [SFsub].
  - destruct sx, sy; split; reflexivity.
  - split; [reflexivity|]. cbn [fval] in *.
    replace (0 - b) with (- b) by ring. rewrite Z.mul_opp_l, <- Hy.
    destruct sy; cbn [negb cond_Zopp]; ring.
  - split; [reflexivity|]. rewrite Hx. ring.
  - cbn [SpecFloat.valid_binary] in Vx, Vy.
    apply bounded_spec in Vx as [Vx _], Vy as [Vy _].
    apply binary_normalize_whole; [lia| |exact Hab].
    rewrite Z.mul_sub_distr_r, !aligned_value by lia.
    cbn [fval] in Hx, Hy. rewrite Hx, Hy. ring.
Qed.

Lemma integer_whole x n : integer x n <-> whole (Prim2SF x) n.
Proof. unfold integer, whole, fv. rewrite Prim2SF_is_nan. reflexivity. Qed.

Lemma add_integer x y a b :
  integer x a -> integer y b ->
  Z.abs a <= 2 ^ 53 -> Z.abs b <= 2 ^ 53 -> - 2 ^ 53 < a + b < 2 ^ 53 ->
  integer (x + y)%float (a + b).
Proof.
  rewrite !integer_whole, FloatAxioms.add_spec. intros Hx Hy Ha Hb Hab.
  apply SFadd_whole; try assumption; apply Prim2SF_valid.
Qed.

Lemma sub_integer x y a b :
  integer x a -> integer y b ->
  Z.abs a <= 2 ^ 53 -> Z.abs b <= 2 ^ 53 -> - 2 ^ 53 < a - b < 2 ^ 53 ->
  integer (x - y)%float (a - b).
Proof.
  rewrite !integer_whole, FloatAxioms.sub_spec. intros Hx Hy Ha Hb Hab.
  apply SFsub_whole; try assumption; apply Prim2SF_valid.
Qed.

Lemma of_nat_integer n : Z.of_nat n < 2 ^ 53 -> integer (of_nat n) (Z.of_nat n).
Proof.
  intros H. apply integer_whole. unfold of_nat. rewrite FloatAxioms.of_uint63_spec.
  rewrite Uint63.of_Z_spec, Z.mod_small.
  - apply binary_normalize_whole; [lia|reflexivity|lia].
  - split; [lia|]. eapply Z.lt_trans; [exact H|]. reflexivity.
Qed.

Lemma zero_integer : integer 0%float 0.
Proof. split; reflexivity. Qed.

Lemma scaled_compare a b : (a * 2 ^ 1074 ?= b * 2 ^ 1074) = (a ?= b).
Proof.
  pose proof (pow2_pos 1074 ltac:(lia)) as Hu.
  destruct (Z.compare_spec a b) as [->|H|H].
  - apply Z.compare_refl.
  - apply Z.compare_lt_iff. apply Z.mul_lt_mono_pos_r; assumption.
  - apply Z.compare_gt_iff. apply Z.mul_lt_mono_pos_r; assumption.
Qed.

Lemma ltb_integer x y a b :
  integer x a -> integer y b -> (x <? y)%float = (a <? b).
Proof.
  intros [Nx Hx] [Ny Hy]. rewrite ltb_fv, Hx, Hy by assumption.
  unfold Z.ltb. rewrite scaled_compare. reflexivity.
Qed.

Lemma leb_integer x y a b :
  integer x a -> integer y b -> (x <=? y)%float = (a <=? b).
Proof.
  intros [Nx Hx] [Ny Hy]. rewrite leb_fv, Hx, Hy by assumption.
  unfold Z.leb. rewrite scaled_compare. reflexivity.
Qed.

Lemma Math_min_integer x y a b :
  integer x a -> integer y b -> integer (Math_min x y) (Z.min a b).
Proof.
  intros Hx Hy. unfold Math_min.
  rewrite (proj1 Hx), (proj1 Hy). cbn [orb].
  rewrite (ltb_integer x y a b Hx Hy), (ltb_integer y x b a Hy Hx).
  destruct (Z.ltb_spec a b) as [H|H]; [rewrite Z.min_l by lia; exact Hx|].
  destruct (Z.ltb_spec b a) as [H'|H']; [rewrite Z.min_r by lia; exact Hy|].
  assert (a = b) by lia. subst b. rewrite Z.min_id.
  destruct (_ && _); assumption.
Qed.

Lemma Math_max_integer x y a b :
  integer x a -> integer y b -> integer (Math_max x y) (Z.max a b).
Proof.
  intros Hx Hy. unfold Math_max.
  rewrite (proj1 Hx), (proj1 Hy). cbn [orb].
  rewrite (ltb_integer x y a b Hx Hy), (ltb_integer y x b a Hy Hx).
  destruct (Z.ltb_spec a b) as [H|H]; [rewrite Z.max_r by lia; exact Hy|].
  destruct (Z.ltb_spec b a) as [H'|H']; [rewrite Z.max_l by lia; exact Hx|].
  assert (a = b) by lia. subst b. rewrite Z.max_id.
  destruct (_ && _); assumption.
Qed.

Lemma to_integer_integer x a :
  integer x a -> Z.abs a <= 2 ^ 53 -> to_integer x = a.
Proof.
  intros Hx Ha. apply integer_whole in Hx.
  pose proof (whole_cases _ _ Hx Ha) as C. pose proof (Prim2SF_valid x) as V.
  destruct Hx as [_ Hv]. unfold to_integer.
  pose proof (pow2_pos 1074 ltac:(lia)) as Hu.
  destruct (Prim2SF x) as [s|s| |s m e]; try contradiction; [symmetry; exact C|].
  cbn [SpecFloat.valid_binary] in V. apply bounded_spec in V as [V _].
  cbn [fval] in Hv.
  apply (Z.mul_reg_r _ _ (2 ^ 1074)); [lia|]. rewrite <- Hv.
  destruct (Z.leb_spec 0 e) as [He|He].
  - rewrite (Z.pow_add_r 2 e 1074) by lia. destruct s; cbn [cond_Zopp]; ring.
  - assert (Hm : Z.pos m = Z.abs a * 2 ^ (- e)).
    { apply (Z.mul_reg_r _ _ (2 ^ (e + 1074)));
        [pose proof (pow2_pos (e + 1074) ltac:(lia)); lia|].
      rewrite <- Z.mul_assoc, <- Z.pow_add_r by lia.
      replace (- e + (e + 1074)) with 1074 by lia.
      destruct s; cbn [cond_Zopp] in Hv; nia. }
    rewrite Hm, Z.div_mul by (pose proof (pow2_pos (- e) ltac:(lia)); lia).
    rewrite <- Z.mul_assoc, <- Z.pow_add_r by lia.
    replace (- e + (e + 1074)) with 1074 by lia.
    destruct s; cbn [cond_Zopp] in *; nia.
Qed.

(** ** Normalization *)

Lemma list_ind2 {A} (P : list A -> Prop) :
  P [] -> (forall a, P [a]) ->
  (forall a b l, P l -> P (b :: l) -> P (a :: b :: l)) ->
  forall l, P l.
Proof.
  intros H0 H1 H2 l.
  enough (P l /\ forall a, P (a :: l)) by tauto.
  induction l as [|b l [IHl IHl']]; split; auto.
Qed.

Lemma drop_ws_suffix l : exists a, l = a ++ drop_ws l.
Proof.
  induction l as [|c r [a Ha]]; simpl.
  - exists []. reflexivity.
  - destruct (is_ws c).
    + exists (c :: a). simpl. congruence.
    + exists []. reflexivity.
Qed.

Lemma trim_decomp l : exists a z, l = a ++ trim l ++ z.
Proof.
  unfold trim.
  destruct (drop_ws_suffix l) as [a Ha].
  destruct (drop_ws_suffix (rev (drop_ws l))) as [b Hb].
  exists a, (rev b).
  rewrite <- rev_app_distr, <- Hb, rev_involutive. exact Ha.
Qed.

Lemma drop_ws_fix l :
  match l with [] => True | c :: _ => is_ws c = false end -> drop_ws l = l.
Proof. destruct l as [|c r]; simpl; [reflexivity|]. intros ->. reflexivity. Qed.

Lemma drop_ws_head l :
  match drop_ws l with [] => True | c :: _ => is_ws c = false end.
Proof.
  induction l as [|c r IH]; simpl; [exact I|].
  destruct (is_ws c) eqn:E; [exact IH|]. simpl. exact E.
Qed.

Lemma drop_ws_last_keeps l x :
  is_ws x = false -> exists m, drop_ws (l ++ [x]) = m ++ [x].
Proof.
  intros Hx. induction l as [|c r [m Hm]]; simpl.
  - rewrite Hx. exists []. reflexivity.
  - destruct (is_ws c).
    + exists m. exact Hm.
    + exists (c :: r). reflexivity.
Qed.

(** [trim] leaves a trimmed string as it is. *)
Lemma trim_idem l : trim (trim l) = trim l.
Proof.
  unfold trim.
  set (y := drop_ws l).
  assert (Hy : match y with [] => True | c :: _ => is_ws c = false end)
    by apply drop_ws_head.
  assert (Hfront : drop_ws (rev (drop_ws (rev y))) = rev (drop_ws (rev y))).
  { destruct y as [|c r]; [reflexivity|].
    change (rev (c :: r)) with (rev r ++ [c]).
    destruct (drop_ws_last_keeps (rev r) c Hy) as [m Hm].
    rewrite Hm, rev_app_distr. simpl. rewrite Hy. reflexivity. }
  rewrite Hfront, rev_involutive.
  rewrite (drop_ws_fix (drop_ws (rev y))) by apply drop_ws_head.
  reflexivity.
Qed.

(** *** What each pass leaves fixed *)

Lemma replace_nul_fix u : Forall (fun c => c <> NUL) u -> replace_nul u = u.
Proof.
  unfold replace_nul. induction 1 as [|c r Hc _ IH]; simpl; [reflexivity|].
  rewrite IH. destruct (N.eqb_spec c NUL); congruence.
Qed.

Lemma collapse_blanks_fix b u : blank_nf b u = true -> collapse_blanks_from b u = u.
Proof.
  revert b. induction u as [|c r IH]; intros b; simpl; [reflexivity|].
  destruct (is_sptab c).
  - destruct b; simpl; [discriminate|].
    destruct (N.eqb_spec c SP) as [->|]; simpl; [|discriminate].
    intros H. rewrite (IH true H). reflexivity.
  - intros H. rewrite (IH false H). reflexivity.
Qed.

Lemma replace_crlf_fix u : no_pair is_cr_lf u = true -> replace_crlf u = u.
Proof.
  induction u as [| a | a b l _ IH] using list_ind2; try reflexivity.
  intros H. simpl in H. apply andb_prop in H as [Hab Hrest].
  unfold is_cr_lf in Hab. apply negb_true_iff in Hab.
  change (replace_crlf (a :: b :: l))
    with (if (a =? CR)%N && (b =? LF)%N then LF :: replace_crlf l
          else a :: replace_crlf (b :: l)).
  rewrite Hab, (IH Hrest). reflexivity.
Qed.

Lemma collapse_newlines_fix n u : nl_nf n u = true -> collapse_newlines_from n u = u.
Proof.
  revert n. induction u as [|c r IH]; intros n; simpl; [reflexivity|].
  destruct (N.eqb_spec c LF) as [->|].
  - intros H. apply andb_prop in H as [Hn Hr]. rewrite Hn, (IH _ Hr). reflexivity.
  - intros H. rewrite (IH _ H). reflexivity.
Qed.

(** *** What each pass establishes *)

Lemma replace_nul_no_nul t : Forall (fun c => c <> NUL) (replace_nul t).
Proof.
  unfold replace_nul. induction t as [|c r IH]; simpl; constructor; auto.
  destruct (N.eqb_spec c NUL); [discriminate|assumption].
Qed.

Lemma collapse_blanks_nf b t : blank_nf b (collapse_blanks_from b t) = true.
Proof.
  revert b. induction t as [|c r IH]; intros b; simpl; [reflexivity|].
  destruct (is_sptab c) eqn:E.
  - destruct b; [apply IH|]. simpl. apply IH.
  - simpl. rewrite E. apply IH.
Qed.

Lemma nl_nf_antitone n m u : (m <= n)%nat -> nl_nf n u = true -> nl_nf m u = true.
Proof.
  destruct u as [|c r]; simpl; [reflexivity|].
  destruct (c =? LF)%N; [|tauto].
  intros Hle H. apply andb_prop in H as [Hn Hr].
  apply Nat.ltb_lt in Hn.
  assert (Hm : (m <? 2)%nat = true) by (apply Nat.ltb_lt; lia).
  rewrite Hm. simpl.
  clear Hm. revert Hr. generalize (S n), (S m), (le_n_S _ _ Hle).
  clear. revert r.
  induction r as [|d r IH]; intros n m Hle; simpl; [reflexivity|].
  destruct (d =? LF)%N; [|tauto].
  intros H. apply andb_prop in H as [Hn Hr]. apply Nat.ltb_lt in Hn.
  apply andb_true_intro. split; [apply Nat.ltb_lt; lia|].
  apply (IH (S n) (S m)); [lia|exact Hr].
Qed.

Lemma collapse_newlines_nf n t : nl_nf n (collapse_newlines_from n t) = true.
Proof.
  revert n. induction t as [|c r IH]; intros n; simpl; [reflexivity|].
  destruct (N.eqb_spec c LF) as [->|Hc].
  - destruct (n <? 2)%nat eqn:En.
    + simpl. rewrite En. apply IH.
    + apply (nl_nf_antitone (S n)); [lia|apply IH].
  - simpl. destruct (N.eqb_spec c LF); [contradiction|]. apply IH.
Qed.

(** *** What the later passes preserve *)

Lemma replace_crlf_cons2 a b l :
  replace_crlf (a :: b :: l) =
  if (a =? CR)%N && (b =? LF)%N then LF :: replace_crlf l
  else a :: replace_crlf (b :: l).
Proof. reflexivity. Qed.

Lemma Forall_collapse_blanks (P : N -> Prop) b t :
  P SP -> Forall P t -> Forall P (collapse_blanks_from b t).
Proof.
  intros HSP H. revert b. induction H as [|c r Hc _ IH]; intros b; simpl; [constructor|].
  destruct (is_sptab c); [destruct b|]; auto.
Qed.

Lemma Forall_replace_crlf (P : N -> Prop) t :
  P LF -> Forall P t -> Forall P (replace_crlf t).
Proof.
  intros HLF. induction t as [| a | a b l IHl IHbl] using list_ind2; auto.
  intros H. rewrite replace_crlf_cons2.
  inversion H as [|? ? Ha Hbl]; subst. inversion Hbl as [|? ? Hb Hl]; subst.
  destruct ((a =? CR)%N && (b =? LF)%N); constructor; auto.
Qed.

Lemma Forall_collapse_newlines (P : N -> Prop) n t :
  Forall P t -> Forall P (collapse_newlines_from n t).
Proof.
  intros H. revert n. induction H as [|c r Hc _ IH]; intros n; simpl; [constructor|].
  destruct (N.eqb_spec c LF) as [->|]; [destruct (n <? 2)%nat|]; auto.
Qed.

Lemma Forall_trim (P : N -> Prop) t : Forall P t -> Forall P (trim t).
Proof.
  intros H. destruct (trim_decomp t) as (a & z & E). rewrite E in H.
  apply Forall_app in H as [_ H]. apply Forall_app in H as [H _]. exact H.
Qed.

Lemma blank_nf_weaken b u : blank_nf b u = true -> blank_nf false u = true.
Proof.
  destruct b; [|tauto]. destruct u as [|c r]; simpl; [reflexivity|].
  destruct (is_sptab c); [discriminate|tauto].
Qed.

Lemma blank_nf_replace_crlf b u :
  blank_nf b u = true -> blank_nf b (replace_crlf u) = true.
Proof.
  revert b. induction u as [| a | a c l IHl IHcl] using list_ind2; intros b; auto.
  rewrite replace_crlf_cons2.
  destruct ((a =? CR)%N && (c =? LF)%N) eqn:E.
  - apply andb_prop in E as [Ea Ec].
    apply N.eqb_eq in Ea, Ec. subst a c. simpl. apply IHl.
  - simpl. destruct (is_sptab a).
    + intros H. apply andb_prop in H as [H1 H2]. rewrite H1. simpl.
      apply (IHcl true). exact H2.
    + apply (IHcl false).
Qed.

Lemma blank_nf_collapse_newlines n b u :
  (n = 0%nat \/ b = false) ->
  blank_nf b u = true -> blank_nf b (collapse_newlines_from n u) = true.
Proof.
  revert n b. induction u as [|c r IH]; intros n b Hnb; simpl; [reflexivity|].
  destruct (N.eqb_spec c LF) as [->|Hc].
  - simpl. intros H. destruct (n <? 2)%nat eqn:En.
    + simpl. apply IH; auto.
    + assert (b = false) as -> by (destruct Hnb; [subst; discriminate|assumption]).
      apply IH; auto.
  - destruct (is_sptab c) eqn:E; simpl; rewrite E.
    + intros H. apply andb_prop in H as [H1 H2]. rewrite H1. simpl. apply IH; auto.
    + apply IH; auto.
Qed.

Lemma blank_nf_app_l b u v : blank_nf b (u ++ v) = true -> blank_nf b u = true.
Proof.
  revert b. induction u as [|c r IH]; intros b; simpl; [reflexivity|].
  destruct (is_sptab c).
  - intros H. apply andb_prop in H as [H1 H2]. rewrite H1. simpl. eauto.
  - eauto.
Qed.

Lemma blank_nf_app_r b u v : blank_nf b (u ++ v) = true -> blank_nf false v = true.
Proof.
  revert b. induction u as [|c r IH]; intros b; simpl; [apply blank_nf_weaken|].
  destruct (is_sptab c).
  - intros H. apply andb_prop in H as [H1 H2]. eauto.
  - eauto.
Qed.

Lemma blank_nf_trim u : blank_nf false u = true -> blank_nf false (trim u) = true.
Proof.
  intros H. destruct (trim_decomp u) as (a & z & E). rewrite E in H.
  apply blank_nf_app_r in H. apply blank_nf_app_l in H. exact H.
Qed.

Lemma nl_nf_app_l n u v : nl_nf n (u ++ v) = true -> nl_nf n u = true.
Proof.
  revert n. induction u as [|c r IH]; intros n; simpl; [reflexivity|].
  destruct (c =? LF)%N.
  - intros H. apply andb_prop in H as [H1 H2]. rewrite H1. simpl. eauto.
  - eauto.
Qed.

Lemma nl_nf_app_r n u v : nl_nf n (u ++ v) = true -> nl_nf 0 v = true.
Proof.
  revert n. induction u as [|c r IH]; intros n; simpl.
  - apply nl_nf_antitone. lia.
  - destruct (c =? LF)%N.
    + intros H. apply andb_prop in H as [H1 H2]. eauto.
    + eauto.
Qed.

Lemma nl_nf_trim u : nl_nf 0 u = true -> nl_nf 0 (trim u) = true.
Proof.
  intros H. destruct (trim_decomp u) as (a & z & E). rewrite E in H.
  apply nl_nf_app_r in H. apply nl_nf_app_l in H. exact H.
Qed.

Lemma no_pair_cons bad a u :
  no_pair bad (a :: u) =
  match u with [] => true | b :: _ => negb (bad a b) end && no_pair bad u.
Proof. destruct u; reflexivity. Qed.

Lemma no_triple_cons bad a u :
  no_triple bad (a :: u) =
  match u with b :: c :: _ => negb (bad a b c) | _ => true end && no_triple bad u.
Proof. destruct u as [|b [|c u]]; reflexivity. Qed.

Lemma no_pair_app_l bad u v : no_pair bad (u ++ v) = true -> no_pair bad u = true.
Proof.
  induction u as [|a u IH]; [reflexivity|].
  change ((a :: u) ++ v) with (a :: (u ++ v)). rewrite !no_pair_cons.
  intros H. apply andb_prop in H as [H1 H2]. rewrite (IH H2), andb_true_r.
  destruct u; [reflexivity|exact H1].
Qed.

Lemma no_pair_app_r bad u v : no_pair bad (u ++ v) = true -> no_pair bad v = true.
Proof.
  induction u as [|a u IH]; [tauto|].
  change ((a :: u) ++ v) with (a :: (u ++ v)). rewrite no_pair_cons.
  intros H. apply andb_prop in H as [_ H2]. auto.
Qed.

Lemma no_pair_trim bad u : no_pair bad u = true -> no_pair bad (trim u) = true.
Proof.
  intros H. destruct (trim_decomp u) as (a & z & E). rewrite E in H.
  apply no_pair_app_r in H. apply no_pair_app_l in H. exact H.
Qed.

Lemma collapse_newlines_from_0_cons c r :
  collapse_newlines_from 0 (c :: r) =
  c :: collapse_newlines_from (if (c =? LF)%N then 1 else 0) r.
Proof. simpl. destruct (N.eqb_spec c LF) as [->|]; reflexivity. Qed.

Lemma no_pair_collapse_newlines bad n u :
  (forall y, bad LF y = false) ->
  no_pair bad u = true -> no_pair bad (collapse_newlines_from n u) = true.
Proof.
  intros Hbad. revert n. induction u as [|c r IH]; intros n; [reflexivity|].
  rewrite no_pair_cons. intros H. apply andb_prop in H as [H1 H2].
  simpl. destruct (N.eqb_spec c LF) as [->|Hc].
  - destruct (n <? 2)%nat; [|auto].
    rewrite no_pair_cons, (IH _ H2), andb_true_r.
    destruct (collapse_newlines_from (S n) r); [reflexivity|].
    rewrite Hbad. reflexivity.
  - rewrite no_pair_cons, (IH _ H2), andb_true_r.
    destruct r as [|d r]; [reflexivity|].
    rewrite collapse_newlines_from_0_cons. exact H1.
Qed.

(** A single pass of [replace_crlf] leaves no CR LF behind when the input
    has no CR CR LF. *)
Lemma replace_crlf_no_cr_lf u :
  no_triple is_cr_cr_lf u = true -> no_pair is_cr_lf (replace_crlf u) = true.
Proof.
  induction u as [| a | a b l IHl IHbl] using list_ind2; try reflexivity.
  rewrite no_triple_cons. intros H. apply andb_prop in H as [Habc Hbl].
  assert (Hl : no_triple is_cr_cr_lf l = true).
  { rewrite no_triple_cons in Hbl. apply andb_prop in Hbl as [_ Hl]. exact Hl. }
  rewrite replace_crlf_cons2.
  destruct ((a =? CR)%N && (b =? LF)%N) eqn:E.
  - rewrite no_pair_cons, (IHl Hl), andb_true_r.
    destruct (replace_crlf l); reflexivity.
  - rewrite no_pair_cons, (IHbl Hbl), andb_true_r.
    destruct l as [|c l].
    + simpl. unfold is_cr_lf. rewrite E. reflexivity.
    + rewrite replace_crlf_cons2.
      destruct ((b =? CR)%N && (c =? LF)%N) eqn:E2.
      * apply andb_prop in E2 as [Eb Ec].
        unfold is_cr_cr_lf in Habc. rewrite Eb, Ec, !andb_true_r in Habc.
        unfold is_cr_lf. apply negb_true_iff in Habc. rewrite Habc. reflexivity.
      * unfold is_cr_lf. rewrite E. reflexivity.
Qed.

Lemma no_crcrlf_replace_nul t :
  no_triple is_cr_cr_lf t = true -> no_triple is_cr_cr_lf (replace_nul t) = true.
Proof.
  assert (Hcr : forall c, ((if (c =? NUL)%N then SP else c) =? CR)%N = (c =? CR)%N).
  { intros c. destruct (N.eqb_spec c NUL) as [->|]; reflexivity. }
  assert (Hlf : forall c, ((if (c =? NUL)%N then SP else c) =? LF)%N = (c =? LF)%N).
  { intros c. destruct (N.eqb_spec c NUL) as [->|]; reflexivity. }
  unfold replace_nul. induction t as [|a t IH]; [reflexivity|].
  rewrite map_cons, !no_triple_cons. intros H. apply andb_prop in H as [H1 H2].
  rewrite (IH H2), andb_true_r.
  destruct t as [|b [|c t]]; try reflexivity.
  simpl. unfold is_cr_cr_lf in *. rewrite !Hcr, Hlf. exact H1.
Qed.

Lemma collapse_blanks_false_cons c r :
  collapse_blanks_from false (c :: r) =
  (if is_sptab c then SP else c) :: collapse_blanks_from (is_sptab c) r.
Proof. simpl. destruct (is_sptab c); reflexivity. Qed.

Lemma no_crcrlf_collapse_blanks b t :
  no_triple is_cr_cr_lf t = true ->
  no_triple is_cr_cr_lf (collapse_blanks_from b t) = true.
Proof.
  revert b. induction t as [|a t IH]; intros b; [reflexivity|].
  rewrite no_triple_cons. intros H. apply andb_prop in H as [H1 H2].
  simpl. destruct (is_sptab a) eqn:Ea.
  - destruct b; [auto|].
    rewrite no_triple_cons, (IH _ H2), andb_true_r.
    destruct (collapse_blanks_from true t) as [|x [|y ?]]; reflexivity.
  - rewrite no_triple_cons, (IH _ H2), andb_true_r.
    destruct t as [|x [|y t]]; try reflexivity.
    + simpl. destruct (is_sptab x); reflexivity.
    + rewrite collapse_blanks_false_cons.
      destruct (is_sptab x) eqn:Ex.
      * destruct (collapse_blanks_from true (y :: t)); [reflexivity|].
        unfold is_cr_cr_lf. rewrite andb_false_r. reflexivity.
      * rewrite collapse_blanks_false_cons.
        destruct (is_sptab y) eqn:Ey; [|exact H1].
        unfold is_cr_cr_lf. rewrite andb_false_r. reflexivity.
Qed.

(** The hypothesis of the theorem below, read as an occurrence. *)
Lemma crcrlf_free_spec t : crcrlf_free t <-> ~ occurs_in [CR; CR; LF] t.
Proof.
  unfold crcrlf_free, occurs_in. split.
  - intros H (pre & post & ->). revert H.
    induction pre as [|a pre IH].
    + simpl. discriminate.
    + change ((a :: pre) ++ [CR; CR; LF] ++ post)
        with (a :: (pre ++ [CR; CR; LF] ++ post)).
      rewrite no_triple_cons. intros H. apply andb_prop in H as [_ H]. auto.
  - intros H. induction t as [|a t IH]; [reflexivity|].
    rewrite no_triple_cons. apply andb_true_intro. split.
    + destruct t as [|b [|c t]]; try reflexivity.
      apply negb_true_iff. apply not_true_is_false. intros E.
      unfold is_cr_cr_lf in E.
      apply andb_prop in E as [E Ec]. apply andb_prop in E as [Ea Eb].
      apply N.eqb_eq in Ea, Eb, Ec. subst. apply H. exists [], t. reflexivity.
    + apply IH. intros (pre & post & ->). apply H. exists (a :: pre), post. reflexivity.
Qed.

(** C4 (as amended).  Normalizing twice gives the same text as normalizing
    once for every string that nowhere holds a carriage return followed by
    CR LF.  (The pass for line endings replaces CR LF once, from left to
    right, so CR CR LF leaves a CR LF behind.) *)
Theorem normalizeText_idempotent (t : jsstr) :
  crcrlf_free t -> normalizeText (normalizeText t) = normalizeText t.
Proof.
  intros Ht. unfold normalizeText at 1.
  set (u := normalizeText t).
  assert (Hnul : Forall (fun c => c <> NUL) u).
  { apply Forall_trim, Forall_collapse_newlines, Forall_replace_crlf; [discriminate|].
    apply Forall_collapse_blanks; [discriminate|]. apply replace_nul_no_nul. }
  assert (Hblank : blank_nf false u = true).
  { apply blank_nf_trim, blank_nf_collapse_newlines; [auto|].
    apply blank_nf_replace_crlf, collapse_blanks_nf. }
  assert (Hcrlf : no_pair is_cr_lf u = true).
  { apply no_pair_trim, no_pair_collapse_newlines; [reflexivity|].
    apply replace_crlf_no_cr_lf, no_crcrlf_collapse_blanks, no_crcrlf_replace_nul.
    exact Ht. }
  assert (Hnl : nl_nf 0 u = true).
  { apply nl_nf_trim, collapse_newlines_nf. }
  rewrite (replace_nul_fix u Hnul).
  unfold collapse_blanks. rewrite (collapse_blanks_fix false u Hblank).
  rewrite (replace_crlf_fix u Hcrlf).
  unfold collapse_newlines. rewrite (collapse_newlines_fix 0 u Hnl).
  apply trim_idem.
Qed.

Lemma normalizeText_idempotent_witness :
  crcrlf_free (js "  first	line  " ++ [CR; LF; LF; LF; LF; NUL] ++ js "second ") /\
  normalizeText (normalizeText (js "  first	line  " ++ [CR; LF; LF; LF; LF; NUL] ++ js "second "))
  = normalizeText (js "  first	line  " ++ [CR; LF; LF; LF; LF; NUL] ++ js "second ").
Proof.
  split; [reflexivity|].
  apply (normalizeText_idempotent
           (js "  first	line  " ++ [CR; LF; LF; LF; LF; NUL] ++ js "second ")).
  reflexivity.
Defined.

(** C4 as stated fails: on ["a\r\r\nb"] the first normalization gives
    ["a\r\nb"] and the second ["a\nb"]. *)
Lemma normalizeText_not_idempotent :
  ~ (forall t : jsstr, normalizeText (normalizeText t) = normalizeText t).
Proof.
  intros H. specialize (H ([97; CR; CR; LF; 98]%N)).
  vm_compute in H. discriminate H.
Qed.


(** ** Chunking *)

Section ChunkLoop.
Variables (t : jsstr) (chunkSize overlap : Z).
Let len := Z.of_nat (length t).

Lemma emitted_cons w ws :
  emitted t (w :: ws) =
  (if (30 <=? length (trim (slice t (fst w) (snd w))))%nat
   then [trim (slice t (fst w) (snd w))] else []) ++ emitted t ws.
Proof.
  unfold emitted. rewrite map_cons, filter_cons.
  destruct (Nat.leb_spec 30 (length (trim (slice t (fst w) (snd w)))));
    case_decide; try lia; reflexivity.
Qed.

Lemma chunkLoop_S fuel start out :
  chunkLoop (S fuel) t chunkSize overlap start out =
  if start <? len then
    let end_ := Z.min len (start + chunkSize) in
    let piece := trim (slice t start end_) in
    let out' := if (30 <=? length piece)%nat then out ++ [piece] else out in
    if len <=? end_ then Some out'
    else chunkLoop fuel t chunkSize overlap (Z.max 0 (end_ - overlap)) out'
  else Some out.
Proof. reflexivity. Qed.

Lemma spec_windows_S n start :
  spec_windows (S n) len chunkSize overlap start =
  if start <? len then
    let end_ := Z.min len (start + chunkSize) in
    (start, end_) ::
      (if len <=? end_ then []
       else spec_windows n len chunkSize overlap (Z.max 0 (end_ - overlap)))
  else [].
Proof. reflexivity. Qed.

(** Whatever the parameters, a run of the loop that ends has pushed the
    trimmed windows of [spec_windows] that are long enough, in order. *)
Lemma chunkLoop_spec fuel : forall start out r,
  chunkLoop fuel t chunkSize overlap start out = Some r ->
  r = out ++ emitted t (spec_windows fuel len chunkSize overlap start).
Proof.
  induction fuel as [|fuel IH]; intros start out r; [discriminate|].
  rewrite chunkLoop_S, spec_windows_S.
  destruct (start <? len) eqn:Hs.
  - cbv zeta. rewrite emitted_cons. cbn [fst snd].
    destruct (30 <=? length (trim (slice t start (Z.min len (start + chunkSize)))))%nat;
      destruct (len <=? Z.min len (start + chunkSize)) eqn:He; intros H.
    + inversion H. rewrite app_nil_r. reflexivity.
    + apply IH in H. rewrite H, <- app_assoc. reflexivity.
    + inversion H. rewrite app_nil_r. reflexivity.
    + apply IH in H. exact H.
  - intros H. inversion H. unfold emitted. rewrite app_nil_r. reflexivity.
Qed.

(** More fuel does not change a result. *)
Lemma chunkLoop_mono fuel : forall fuel' start out r,
  (fuel <= fuel')%nat ->
  chunkLoop fuel t chunkSize overlap start out = Some r ->
  chunkLoop fuel' t chunkSize overlap start out = Some r.
Proof.
  induction fuel as [|fuel IH]; intros fuel' start out r Hle; [discriminate|].
  destruct fuel' as [|fuel']; [lia|]. rewrite !chunkLoop_S. cbv zeta.
  destruct (start <? len); [|tauto].
  destruct (len <=? Z.min len (start + chunkSize)); [tauto|].
  apply IH. lia.
Qed.

(** With [overlap < chunkSize] every iteration that does not leave the loop
    moves [start] forward, so the loop ends within [len - start] steps. *)
Lemma chunkLoop_terminates fuel : forall start out,
  overlap < chunkSize -> 0 <= start ->
  (Z.to_nat (len - start) < fuel)%nat ->
  exists r, chunkLoop fuel t chunkSize overlap start out = Some r.
Proof.
  induction fuel as [|fuel IH]; intros start out Hlt Hstart Hfuel; [lia|].
  rewrite chunkLoop_S. cbv zeta. destruct (Z.ltb_spec start len) as [Hs|Hs]; [|eauto].
  destruct (Z.leb_spec len (Z.min len (start + chunkSize))) as [He|He]; [eauto|].
  apply IH; lia.
Qed.

Lemma spec_windows_mono n : forall n' start,
  (n <= n')%nat ->
  overlap < chunkSize -> 0 <= start ->
  (Z.to_nat (len - start) < n)%nat ->
  spec_windows n' len chunkSize overlap start = spec_windows n len chunkSize overlap start.
Proof.
  induction n as [|n IH]; intros n' start Hle Hlt Hstart Hn; [lia|].
  destruct n' as [|n']; [lia|]. rewrite !spec_windows_S. cbv zeta.
  destruct (Z.ltb_spec start len) as [Hs|Hs]; [|reflexivity].
  destruct (Z.leb_spec len (Z.min len (start + chunkSize))) as [He|He]; [reflexivity|].
  f_equal. apply IH; lia.
Qed.

End ChunkLoop.

(** *** The windows when [0 <= overlap < chunkSize] *)

Section Windows.
Variables (len chunkSize overlap : Z).
Hypothesis Hparams : 0 <= overlap < chunkSize.

Lemma windows_S n start :
  spec_windows (S n) len chunkSize overlap start =
  if start <? len then
    (start, Z.min len (start + chunkSize)) ::
      (if len <=? Z.min len (start + chunkSize) then []
       else spec_windows n len chunkSize overlap
              (Z.max 0 (Z.min len (start + chunkSize) - overlap)))
  else [].
Proof. reflexivity. Qed.

(** From a position [start] inside the text the loop visits a first
    window at [start], moves forward with every further window, and stops
    at a window that ends with the text, within [len - start] windows. *)
Lemma windows_forward n : forall start,
  0 <= start -> (Z.to_nat (len - start) < n)%nat ->
  let ws := spec_windows n len chunkSize overlap start in
  (length ws <= Z.to_nat (len - start))%nat /\
  (start < len -> head ws = Some (start, Z.min len (start + chunkSize))) /\
  (forall k s e, ws !! k = Some (s, e) ->
     start <= s /\ s < e /\ e = Z.min len (s + chunkSize)) /\
  (forall k s e s' e', ws !! k = Some (s, e) -> ws !! S k = Some (s', e') ->
     e < len /\ s' = e - overlap /\ s < s') /\
  (start < len -> exists s, last ws = Some (s, len)).
Proof.
  induction n as [|n IH]; intros start Hstart Hn; [lia|].
  cbv zeta. rewrite windows_S.
  destruct (Z.ltb_spec start len) as [Hs|Hs].
  2:{ cbn [length head]. repeat split; try lia; intros; try discriminate. }
  destruct (Z.leb_spec len (Z.min len (start + chunkSize))) as [He|He].
  - cbn [length head]. split; [lia|]. split; [reflexivity|]. split; [|split].
    + intros [|k] s e; [|discriminate]. intros [= <- <-]. lia.
    + intros [|k] s e s' e' _; discriminate.
    + intros _. exists start. cbn [last]. f_equal. f_equal. lia.
  - set (start' := Z.max 0 (Z.min len (start + chunkSize) - overlap)).
    assert (Hnext : start' = start + chunkSize - overlap) by (unfold start'; lia).
    destruct (IH start') as (Hlen & Hhead & Hlook & Hstep & Hlast); [lia|lia|].
    cbv zeta in Hlen, Hhead, Hlook, Hstep, Hlast.
    cbn [length head]. split; [lia|]. split; [reflexivity|]. split; [|split].
    + intros [|k] s e.
      * intros [= <- <-]. lia.
      * intros H. apply Hlook in H. lia.
    + intros [|k] s e s' e'.
      * intros [= <- <-] H. cbn [lookup list_lookup] in H.
        assert (Hh : head (spec_windows n len chunkSize overlap start')
                     = Some (s', e')) by (rewrite <- H; apply head_lookup).
        rewrite Hhead in Hh by lia. injection Hh as <- <-. lia.
      * intros H1 H2. exact (Hstep k s e s' e' H1 H2).
    + intros _. destruct Hlast as [s Hs']; [lia|]. exists s.
      rewrite last_cons, Hs'. reflexivity.
Qed.

End Windows.

(** *** The loop on doubles that are integers *)

Section DoubleLoop.
Variables (t : jsstr) (cs ov : float) (chunkSize overlap : Z).
Hypothesis Hcs : integer cs chunkSize.
Hypothesis Hov : integer ov overlap.
Hypothesis Hsize : Z.abs chunkSize < 2 ^ 52.
Hypothesis Hoverlap : Z.abs overlap < 2 ^ 52.
Hypothesis Hlen : Z.of_nat (length t) <= 2 ^ 52.

Lemma double_chunkLoop_S fuel start out :
  Double.chunkLoop (S fuel) t cs ov start out =
  let len := of_nat (length t) in
  if (start <? len)%float then
    let end_ := Math_min len (start + cs)%float in
    let piece := trim (slice t (to_integer start) (to_integer end_)) in
    let out' := if (30 <=? length piece)%nat then out ++ [piece] else out in
    if (len <=? end_)%float then Some out'
    else Double.chunkLoop fuel t cs ov (Math_max 0 (end_ - ov)%float) out'
  else Some out.
Proof. reflexivity. Qed.

(** On integers the loop on doubles is the loop on integers. *)
Lemma chunkLoop_double_integers fuel : forall start s out,
  integer start s -> 0 <= s <= 2 ^ 53 ->
  Double.chunkLoop fuel t cs ov start out = chunkLoop fuel t chunkSize overlap s out.
Proof.
  assert (H52 : 2 ^ 53 = 2 * 2 ^ 52) by reflexivity.
  assert (Hl : integer (of_nat (length t)) (Z.of_nat (length t))).
  { apply of_nat_integer. lia. }
  induction fuel as [|fuel IH]; intros start s out Hs Hb; [reflexivity|].
  rewrite double_chunkLoop_S, chunkLoop_S. cbv zeta.
  rewrite (ltb_integer _ _ _ _ Hs Hl).
  destruct (Z.ltb_spec s (Z.of_nat (length t))) as [Hlt|Hge]; [|reflexivity].
  assert (He : integer (Math_min (of_nat (length t)) (start + cs)%float)
                       (Z.min (Z.of_nat (length t)) (s + chunkSize))).
  { apply Math_min_integer; [exact Hl|]. apply add_integer; try assumption; lia. }
  rewrite (to_integer_integer _ _ Hs) by lia.
  rewrite (to_integer_integer _ _ He) by lia.
  rewrite (leb_integer _ _ _ _ Hl He).
  destruct (Z.leb_spec (Z.of_nat (length t)) (Z.min (Z.of_nat (length t)) (s + chunkSize)))
    as [Hend|Hend]; [reflexivity|].
  apply IH.
  - apply Math_max_integer; [exact zero_integer|].
    apply sub_integer; try assumption; lia.
  - lia.
Qed.

End DoubleLoop.

Lemma chunkText_double_integers fuel text (cs ov : float) (chunkSize overlap : Z) :
  integer cs chunkSize -> integer ov overlap ->
  Z.abs chunkSize < 2 ^ 52 -> Z.abs overlap < 2 ^ 52 ->
  Z.of_nat (length (normalizeText text)) <= 2 ^ 52 ->
  Double.chunkText_fuel fuel text cs ov = chunkText_fuel fuel text chunkSize overlap.
Proof.
  intros Hcs Hov Hsize Hoverlap Hlen.
  pose proof (chunkLoop_double_integers (normalizeText text) cs ov chunkSize overlap
                Hcs Hov Hsize Hoverlap Hlen fuel 0%float 0 [] zero_integer ltac:(lia)) as H.
  unfold Double.chunkText_fuel, chunkText_fuel.
  destruct (normalizeText text); [reflexivity|exact H].
Qed.

(** C9 (as amended).  Whenever [chunkSize] and [overlap] are doubles that
    are integers with [0 <= overlap < chunkSize < 2^52] (in particular the
    defaults 1200 and 200), and the normalized text has at most [2^52] code
    units (engines hold no string of [2^32]), the window loop of
    [chunkText] ends: it visits the windows [ws], at most as many as the
    normalized text has code units; every window starts after the one
    before it; the last window ends at the end of the text; and with one
    iteration more allowed than the text has code units, or any larger
    number, [chunkText] returns the trimmed windows of [ws] that keep 30
    code units. *)
Theorem chunkText_terminates (text : jsstr) (cs ov : float) (chunkSize overlap : Z) :
  integer cs chunkSize -> integer ov overlap ->
  0 <= overlap < chunkSize -> chunkSize < 2 ^ 52 ->
  Z.of_nat (length (normalizeText text)) <= 2 ^ 52 ->
  let t := normalizeText text in
  let len := Z.of_nat (length t) in
  exists ws,
    (forall fuel, (length t < fuel)%nat ->
       spec_windows fuel len chunkSize overlap 0 = ws /\
       Double.chunkText_fuel fuel text cs ov = Some (emitted t ws)) /\
    (length ws <= length t)%nat /\
    (forall k s e, ws !! k = Some (s, e) ->
       0 <= s /\ s < e /\ e = Z.min len (s + chunkSize)) /\
    (forall k s e s' e', ws !! k = Some (s, e) -> ws !! S k = Some (s', e') ->
       e < len /\ s' = e - overlap /\ s < s') /\
    (t <> [] -> exists s, last ws = Some (s, len)).
Proof.
  intros Hcs Hov Hp Hsize Hlong t len.
  exists (spec_windows (S (length t)) len chunkSize overlap 0).
  destruct (windows_forward len chunkSize overlap Hp (S (length t)) 0)
    as (Hlen & _ & Hlook & Hstep & Hlast); [lia|unfold len; lia|].
  cbv zeta in Hlen, Hlook, Hstep, Hlast.
  split; [|split; [|split; [|split]]].
  - intros fuel Hfuel.
    assert (Hw : spec_windows fuel len chunkSize overlap 0
                 = spec_windows (S (length t)) len chunkSize overlap 0).
    { apply spec_windows_mono; [lia|lia|lia|unfold len; lia]. }
    split; [exact Hw|]. rewrite <- Hw.
    rewrite (chunkText_double_integers fuel text cs ov chunkSize overlap Hcs Hov)
      by first [exact Hlong | lia].
    unfold chunkText_fuel. fold t. destruct t as [|c t'] eqn:Et.
    + destruct fuel as [|fuel]; [simpl in Hfuel; lia|reflexivity].
    + destruct (chunkLoop_terminates (c :: t') chunkSize overlap fuel 0 [])
        as [r Hr]; [lia|lia|unfold len in *; lia|].
      rewrite Hr. apply chunkLoop_spec in Hr. rewrite Hr. reflexivity.
  - unfold len in *. lia.
  - exact Hlook.
  - exact Hstep.
  - intros Ht. apply Hlast. unfold len. destruct t; [contradiction|simpl; lia].
Qed.

Lemma chunkText_terminates_witness :
  integer 1200 CHUNK_CHARS /\ integer 200 CHUNK_OVERLAP /\
  0 <= CHUNK_OVERLAP < CHUNK_CHARS /\ CHUNK_CHARS < 2 ^ 52 /\
  Z.of_nat (length (normalizeText (js "one two three four five six seven eight nine ten")))
    <= 2 ^ 52 /\
  let t := normalizeText (js "one two three four five six seven eight nine ten") in
  let len := Z.of_nat (length t) in
  exists ws,
    (forall fuel, (length t < fuel)%nat ->
       spec_windows fuel len CHUNK_CHARS CHUNK_OVERLAP 0 = ws /\
       Double.chunkText_fuel fuel (js "one two three four five six seven eight nine ten")
                             1200 200 = Some (emitted t ws)) /\
    (length ws <= length t)%nat /\
    (forall k s e, ws !! k = Some (s, e) ->
       0 <= s /\ s < e /\ e = Z.min len (s + CHUNK_CHARS)) /\
    (forall k s e s' e', ws !! k = Some (s, e) -> ws !! S k = Some (s', e') ->
       e < len /\ s' = e - CHUNK_OVERLAP /\ s < s') /\
    (t <> [] -> exists s, last ws = Some (s, len)).
Proof.
  split; [split; vm_compute; reflexivity|]. split; [split; vm_compute; reflexivity|].
  split; [unfold CHUNK_OVERLAP, CHUNK_CHARS; lia|].
  split; [unfold CHUNK_CHARS; lia|]. split; [vm_compute; discriminate|].
  apply (chunkText_terminates (js "one two three four five six seven eight nine ten")
                              1200 200 CHUNK_CHARS CHUNK_OVERLAP).
  - split; vm_compute; reflexivity.
  - split; vm_compute; reflexivity.
  - unfold CHUNK_OVERLAP, CHUNK_CHARS. lia.
  - unfold CHUNK_CHARS. lia.
  - vm_compute. discriminate.
Defined.

(** With the default parameters the loop on doubles is the loop on
    integers, which the properties below speak of. *)
Lemma chunkText_double_defaults fuel text :
  Z.of_nat (length (normalizeText text)) <= 2 ^ 52 ->
  Double.chunkText_fuel fuel text 1200 200
  = chunkText_fuel fuel text CHUNK_CHARS CHUNK_OVERLAP.
Proof.
  intros H. apply chunkText_double_integers; [..|exact H];
    first [split; vm_compute; reflexivity | unfold CHUNK_CHARS, CHUNK_OVERLAP; lia].
Qed.

(** The step of the loop on doubles from the position [2^-53] in a text
    of three code units, with [chunkSize = 1] and the largest double below
    1 as [overlap]: [end] is [2^-53 + 1], which rounds to 1, and
    [1 - overlap] is [2^-53] again. *)
Lemma chunkLoop_double_stuck fuel out :
  Double.chunkLoop (S fuel) [97; 98; 99]%N 1 0x1.fffffffffffffp-1 0x1p-53 out
  = Double.chunkLoop fuel [97; 98; 99]%N 1 0x1.fffffffffffffp-1 0x1p-53 out.
Proof. reflexivity. Qed.

Lemma chunkLoop_double_first fuel out :
  Double.chunkLoop (S fuel) [97; 98; 99]%N 1 0x1.fffffffffffffp-1 0 out
  = Double.chunkLoop fuel [97; 98; 99]%N 1 0x1.fffffffffffffp-1 0x1p-53 out.
Proof. reflexivity. Qed.

(** With a negative overlap the loop on integers ends without a window
    that reaches the end of the text: every window of ["abcdefghij"] with
    [chunkSize = 0] and [overlap = -1] is empty. *)
Lemma windows_negative_overlap fuel : forall start,
  0 <= start -> Forall (fun w => snd w < 10) (spec_windows fuel 10 0 (-1) start).
Proof.
  induction fuel as [|fuel IH]; intros start Hs; [constructor|].
  rewrite windows_S.
  destruct (Z.ltb_spec start 10) as [Hlt|Hge]; [|constructor].
  constructor; [cbn [snd]; lia|].
  destruct (Z.leb_spec 10 (Z.min 10 (start + 0))); [constructor|].
  apply IH. lia.
Qed.

(** C9 as stated fails in its general half, in two ways.  The parameters
    are doubles: with [chunkSize = 1] and [overlap = 0.9999999999999999]
    the loop never leaves the position [2^-53], whatever number of
    iterations is allowed.  And with integers, a negative overlap lets the
    loop end without any window that reaches the end of the text. *)
Lemma chunkText_general_half_fails :
  ~ (forall (text : jsstr) (chunkSize overlap : float),
       (overlap <? chunkSize)%float = true ->
       exists fuel out, Double.chunkText_fuel fuel text chunkSize overlap = Some out) /\
  ~ (forall (text : jsstr) (chunkSize overlap : Z),
       overlap < chunkSize -> normalizeText text <> [] ->
       exists fuel s e,
         (s, e) ∈ spec_windows fuel (Z.of_nat (length (normalizeText text)))
                               chunkSize overlap 0 /\
         Z.of_nat (length (normalizeText text)) <= e).
Proof.
  split.
  - intros H.
    destruct (H (js "abc") 1%float 0x1.fffffffffffffp-1%float) as (fuel & out & Hrun);
      [reflexivity|].
    revert Hrun. unfold Double.chunkText_fuel.
    change (normalizeText (js "abc")) with [97; 98; 99]%N. cbv iota.
    destruct fuel as [|fuel]; [discriminate|].
    rewrite chunkLoop_double_first. clear H. revert out. generalize (@nil jsstr).
    induction fuel as [|fuel IH]; intros acc out; [discriminate|].
    rewrite chunkLoop_double_stuck. apply IH.
  - intros H.
    destruct (H (js "abcdefghij") 0 (-1)) as (fuel & s & e & Hin & He);
      [lia|discriminate|].
    change (normalizeText (js "abcdefghij")) with (js "abcdefghij") in Hin, He.
    change (Z.of_nat (length (js "abcdefghij"))) with 10 in Hin, He.
    pose proof (windows_negative_overlap fuel 0 ltac:(lia)) as Hall.
    rewrite Forall_forall in Hall. specialize (Hall (s, e) Hin). cbn [snd] in Hall. lia.
Qed.

(** On the default parameters the loop on doubles and the loop on
    integers give the same chunks; here on a text of 2400 code units. *)
Lemma chunkText_double_agrees_example :
  Double.chunkText_fuel 2401 (concat (replicate 300 (js "A. B. C."))) 1200 200
  = chunkText_fuel 2401 (concat (replicate 300 (js "A. B. C."))) CHUNK_CHARS CHUNK_OVERLAP.
Proof. vm_compute. reflexivity. Qed.

(** The bound on the overlap is needed: with [overlap = chunkSize] the
    loop never leaves its first position. *)
Lemma chunkText_diverges_example :
  forall fuel, chunkText_fuel fuel (js "abc") 1 1 = None.
Proof.
  intros fuel. unfold chunkText_fuel.
  change (normalizeText (js "abc")) with (js "abc").
  change (js "abc") with [97; 98; 99]%N.
  generalize (@nil jsstr).
  induction fuel as [|fuel IH]; intros out; [reflexivity|].
  rewrite chunkLoop_S. apply IH.
Qed.

(** *** The windows of the default parameters *)

Section DefaultWindows.
Variable len : Z.

Lemma default_windows_S n start :
  spec_windows (S n) len CHUNK_CHARS CHUNK_OVERLAP start =
  if start <? len then
    (start, Z.min len (start + 1200)) ::
      (if len <=? Z.min len (start + 1200) then []
       else spec_windows n len CHUNK_CHARS CHUNK_OVERLAP (Z.max 0 (Z.min len (start + 1200) - 200)))
  else [].
Proof. reflexivity. Qed.

(** Window [k] counted from a window that starts at [start]. *)
Lemma default_windows_lookup n : forall start k s e,
  0 <= start ->
  spec_windows n len CHUNK_CHARS CHUNK_OVERLAP start !! k = Some (s, e) ->
  s = start + 1000 * Z.of_nat k /\ 0 <= s < len /\ e = Z.min len (s + CHUNK_CHARS).
Proof.
  induction n as [|n IH]; intros start k s e Hstart; [discriminate|].
  rewrite default_windows_S.
  destruct (Z.ltb_spec start len) as [Hs|Hs]; [|discriminate].
  destruct k as [|k].
  - intros [= <- <-]. unfold CHUNK_CHARS. lia.
  - destruct (Z.leb_spec len (Z.min len (start + 1200))) as [He|He]; [discriminate|].
    intros H. apply IH in H; [|lia].
    replace (Z.max 0 (Z.min len (start + 1200) - 200)) with (start + 1000) in H by lia.
    lia.
Qed.

Lemma default_windows_next n : forall start k s e s' e',
  0 <= start ->
  spec_windows n len CHUNK_CHARS CHUNK_OVERLAP start !! k = Some (s, e) ->
  spec_windows n len CHUNK_CHARS CHUNK_OVERLAP start !! S k = Some (s', e') ->
  e = s + CHUNK_CHARS /\ s' = e - CHUNK_OVERLAP /\ 0 <= s' /\ s < s' /\ s' < e /\ e < e'.
Proof.
  induction n as [|n IH]; intros start k s e s' e' Hstart; [discriminate|].
  rewrite default_windows_S.
  destruct (Z.ltb_spec start len) as [Hs|Hs]; [|discriminate].
  destruct (Z.leb_spec len (Z.min len (start + 1200))) as [He|He].
  - destruct k; discriminate.
  - destruct k as [|k].
    + intros [= <- <-] H. apply default_windows_lookup in H; [|lia].
      unfold CHUNK_CHARS, CHUNK_OVERLAP in *. lia.
    + intros H1 H2. eapply IH; [|exact H1|exact H2]. lia.
Qed.

Lemma default_windows_last n : forall start s e,
  0 <= start -> (Z.to_nat (len - start) < n)%nat ->
  last (spec_windows n len CHUNK_CHARS CHUNK_OVERLAP start) = Some (s, e) ->
  e = len.
Proof.
  induction n as [|n IH]; intros start s e Hstart Hn; [discriminate|].
  rewrite default_windows_S.
  destruct (Z.ltb_spec start len) as [Hs|Hs]; [|discriminate].
  destruct (Z.leb_spec len (Z.min len (start + 1200))) as [He|He].
  - intros [= <- <-]. lia.
  - rewrite last_cons.
    destruct (last (spec_windows n len CHUNK_CHARS CHUNK_OVERLAP
                      (Z.max 0 (Z.min len (start + 1200) - 200)))) as [[s1 e1]|] eqn:El.
    + intros [= <- <-]. apply IH in El; [exact El|lia|lia].
    + apply last_None in El. exfalso. revert El.
      destruct n as [|n]; [lia|]. rewrite default_windows_S.
      destruct (Z.ltb_spec (Z.max 0 (Z.min len (start + 1200) - 200)) len); [discriminate|lia].
Qed.

End DefaultWindows.

(** C3 (as amended).  With size 1200 and overlap 200 the loop runs over the
    windows [ws]: window [k] starts at [1000 k] and spans
    [start_k, start_k + 1200) clamped to the end of the normalized text; the
    next window starts at [end_k - 200], which is never negative, so
    consecutive windows share exactly the 200 code units [start_(k+1), end_k);
    the last window ends with the text and may be shorter.  A window is
    dropped exactly when fewer than 30 code units are left of it after
    trimming (white space inside it counts); the others are returned
    trimmed, in order. *)
Theorem chunkText_default_windows (text : jsstr) (fuel : nat) :
  let t := normalizeText text in
  let len := Z.of_nat (length t) in
  let ws := spec_windows fuel len CHUNK_CHARS CHUNK_OVERLAP 0 in
  (length t < fuel)%nat ->
  chunkText_fuel fuel text CHUNK_CHARS CHUNK_OVERLAP
    = Some (filter (fun p => (30 <= length p)%nat)
                   (map (fun w => trim (slice t (fst w) (snd w))) ws)) /\
  (forall k s e, ws !! k = Some (s, e) ->
     s = 1000 * Z.of_nat k /\ 0 <= s < len /\ e = Z.min len (s + CHUNK_CHARS)) /\
  (forall k s e s' e', ws !! k = Some (s, e) -> ws !! S k = Some (s', e') ->
     e = s + CHUNK_CHARS /\ s' = e - CHUNK_OVERLAP /\ 0 <= s' /\
     s < s' /\ s' < e /\ e < e') /\
  (forall s e, last ws = Some (s, e) -> e = len) /\
  (ws = [] <-> t = []).
Proof.
  intros t len ws Hfuel.
  split; [|split; [|split; [|split]]].
  - unfold chunkText_fuel. fold t.
    destruct t as [|c t'] eqn:Et.
    + subst ws len. destruct fuel; reflexivity.
    + destruct (chunkLoop_terminates (c :: t') CHUNK_CHARS CHUNK_OVERLAP fuel 0 [])
        as [r Hr]; [reflexivity|lia|simpl in *; lia|].
      rewrite Hr. apply chunkLoop_spec in Hr. rewrite Hr. reflexivity.
  - intros k s e H. apply default_windows_lookup in H; lia.
  - intros k s e s' e' H H0.
    eapply default_windows_next in H0; [|lia|exact H]. lia.
  - intros s e H. apply default_windows_last in H; [exact H|lia|lia].
  - split.
    + subst ws. destruct fuel as [|n]; [lia|]. rewrite default_windows_S.
      destruct (Z.ltb_spec 0 len) as [Hl|Hl]; [discriminate|].
      intros _. subst len. destruct t; [reflexivity|simpl in Hl; lia].
    + intros Ht. subst ws len. rewrite Ht. destruct fuel; reflexivity.
Qed.

Lemma chunkText_default_windows_witness :
  (length (normalizeText (concat (replicate 300 (js "A. B. C.")))) < 2401)%nat /\
  chunkText_fuel 2401 (concat (replicate 300 (js "A. B. C."))) CHUNK_CHARS CHUNK_OVERLAP
  = Some (filter (fun p => (30 <= length p)%nat)
            (map (fun w => trim (slice (normalizeText (concat (replicate 300 (js "A. B. C."))))
                                       (fst w) (snd w)))
                 [(0, 1200); (1000, 2200); (2000, 2400)])).
Proof.
  assert (H : (length (normalizeText (concat (replicate 300 (js "A. B. C.")))) < 2401)%nat).
  { apply Nat.ltb_lt. vm_compute. reflexivity. }
  split; [exact H|].
  exact (proj1 (chunkText_default_windows (concat (replicate 300 (js "A. B. C."))) 2401 H)).
Defined.

(** C3 as stated fails in its last part: the window
    ["a b c d e f g h i j k l m n o p"] has 16 code units that are not white
    space and is returned, because its 31 code units count. *)
Lemma chunkText_keeps_sparse_window :
  ~ (forall text fuel out,
       chunkText_fuel fuel text CHUNK_CHARS CHUNK_OVERLAP = Some out ->
       Forall (fun p => (30 <= non_ws_count p)%nat) out).
Proof.
  intros H.
  specialize (H (js "a b c d e f g h i j k l m n o p") 40%nat
                [js "a b c d e f g h i j k l m n o p"]).
  assert (E : chunkText_fuel 40 (js "a b c d e f g h i j k l m n o p")
                CHUNK_CHARS CHUNK_OVERLAP = Some [js "a b c d e f g h i j k l m n o p"])
    by (vm_compute; reflexivity).
  specialize (H E). inversion H as [|? ? Hc _]; subst.
  vm_compute in Hc. lia.
Qed.

(** ** Retrieval *)

(** [slice(0, k)] for a count that is not negative. *)
Lemma array_slice0_nonneg {A} (l : list A) (k : Z) :
  0 <= k -> array_slice0 l k = take (Z.to_nat k) l.
Proof.
  intros Hk. unfold array_slice0.
  destruct (Z.ltb_spec k 0) as [H|_]; [lia|].
  destruct (Z.le_ge_cases k (Z.of_nat (length l))) as [H|H].
  - rewrite Z.min_l by exact H. reflexivity.
  - rewrite Z.min_r by lia. rewrite Nat2Z.id.
    rewrite !take_ge by lia. reflexivity.
Qed.

(** [dot] is the dot product over the places both vectors have. *)
Lemma dot_take (a b : vec) n :
  (n <= length (zip a b))%nat ->
  fold_left (fun s xy => (s + fst xy * snd xy)%float) (take n (zip a b)) 0%float
  = dot_product n a b.
Proof.
  induction n as [|n IH]; intros Hn; [reflexivity|].
  destruct (lookup_lt_is_Some_2 (zip a b) n) as [[x y] Hxy]; [lia|].
  rewrite (take_S_r _ _ _ Hxy), fold_left_app, IH by lia. cbn [fold_left fst snd dot_product].
  apply lookup_zip_with_Some in Hxy as (x' & y' & [= -> ->] & Ha & Hb).
  rewrite (nth_lookup_Some _ _ 0%float _ Ha), (nth_lookup_Some _ _ 0%float _ Hb).
  reflexivity.
Qed.

Lemma dot_is_dot_product (a b : vec) :
  dot a b = dot_product (min (length a) (length b)) a b.
Proof.
  unfold dot. rewrite <- (dot_take a b) by (rewrite length_zip_with; lia).
  rewrite take_ge by (rewrite length_zip_with; lia). reflexivity.
Qed.

(** What is equal to something is a number. *)
Lemma eqb_is_number x s :
  (x =? s)%float = true -> PrimFloat.is_nan x = false /\ PrimFloat.is_nan s = false.
Proof.
  rewrite FloatAxioms.eqb_spec, <- !Prim2SF_is_nan. unfold SFeqb.
  destruct (Prim2SF x), (Prim2SF s); try discriminate; auto.
Qed.

(** A positive number is a number. *)
Lemma ltb_zero_is_number d : (0 <? d)%float = true -> PrimFloat.is_nan d = false.
Proof.
  rewrite FloatAxioms.ltb_spec, <- Prim2SF_is_nan.
  change (Prim2SF 0) with (S754_zero false). unfold SFltb.
  destruct (Prim2SF d); try discriminate; auto.
Qed.

(** Among numbers, the comparator puts [y] before [x] exactly when [y]
    scores higher. *)
Lemma by_score_desc_positive x y :
  PrimFloat.is_nan (score x) = false -> PrimFloat.is_nan (score y) = false ->
  (0 <? by_score_desc x y)%float = (fv (score x) <? fv (score y)).
Proof.
  intros Nx Ny. unfold by_score_desc.
  rewrite float_sub_sign, ltb_fv by assumption. reflexivity.
Qed.

Lemma score_ge_fv x y :
  PrimFloat.is_nan (score x) = false -> PrimFloat.is_nan (score y) = false ->
  score_ge x y <-> fv (score y) <= fv (score x).
Proof.
  intros Nx Ny. unfold score_ge. rewrite leb_fv by assumption. apply Z.leb_le.
Qed.

Section SortFacts.
Context {A : Type} (comparefn : A -> A -> float).

Lemma sort_insert_perm x l : sort_insert comparefn x l ≡ₚ x :: l.
Proof.
  induction l as [|y r IH]; simpl; [reflexivity|].
  destruct (0 <? comparefn x y)%float; try reflexivity.
  rewrite IH. apply Permutation_swap.
Qed.

Lemma array_sort_perm l : array_sort comparefn l ≡ₚ l.
Proof.
  induction l as [|x l IH]; simpl; [reflexivity|].
  rewrite sort_insert_perm, IH. reflexivity.
Qed.

End SortFacts.

Lemma scores_are_numbers_perm l l' :
  l ≡ₚ l' -> scores_are_numbers l -> scores_are_numbers l'.
Proof. unfold scores_are_numbers. intros H. rewrite H. tauto. Qed.

Lemma sort_insert_sorted x l :
  PrimFloat.is_nan (score x) = false -> scores_are_numbers l ->
  StronglySorted score_ge l ->
  StronglySorted score_ge (sort_insert by_score_desc x l).
Proof.
  intros Nx Nl Hs. induction Hs as [|y r Hr IH Hy]; simpl.
  - repeat constructor.
  - inversion Nl as [|? ? Ny Nr]; subst.
    rewrite by_score_desc_positive by assumption.
    destruct (Z.ltb_spec (fv (score x)) (fv (score y))) as [E|E].
    + constructor; [exact (IH Nr)|].
      rewrite (sort_insert_perm by_score_desc x r).
      constructor; [|exact Hy].
      apply score_ge_fv; [assumption|assumption|lia].
    + constructor; [constructor; assumption|].
      constructor; [apply score_ge_fv; assumption|].
      rewrite Forall_forall in Hy, Nr |- *. intros z Hz.
      specialize (Hy z Hz). specialize (Nr z Hz).
      apply score_ge_fv in Hy; [|assumption|assumption].
      apply score_ge_fv; [assumption|assumption|lia].
Qed.

Lemma array_sort_sorted l :
  scores_are_numbers l -> StronglySorted score_ge (array_sort by_score_desc l).
Proof.
  induction l as [|x l IH]; intros Nl; simpl; [constructor|].
  inversion Nl as [|? ? Nx Nr]; subst.
  apply sort_insert_sorted; [exact Nx| |exact (IH Nr)].
  eapply scores_are_numbers_perm; [|exact Nr].
  symmetry. apply array_sort_perm.
Qed.

(** Stability: among the entries of one score the order of the input is
    kept. *)
Lemma sort_insert_with_score s x l :
  with_score s (sort_insert by_score_desc x l) = with_score s (x :: l).
Proof.
  unfold with_score. induction l as [|y r IH]; simpl; [reflexivity|].
  destruct (0 <? by_score_desc x y)%float eqn:E; try reflexivity.
  rewrite (filter_cons _ y), IH, !(filter_cons _ x), (filter_cons _ y).
  destruct (decide ((score x =? s)%float = true)) as [Hx|Hx]; [|reflexivity].
  destruct (decide ((score y =? s)%float = true)) as [Hy|Hy]; [|reflexivity].
  exfalso.
  destruct (eqb_is_number _ _ Hx) as [Nx Ns]. destruct (eqb_is_number _ _ Hy) as [Ny _].
  rewrite by_score_desc_positive in E by assumption.
  rewrite eqb_fv in Hx, Hy by assumption.
  apply Z.eqb_eq in Hx, Hy. apply Z.ltb_lt in E. lia.
Qed.

Lemma array_sort_with_score s l :
  with_score s (array_sort by_score_desc l) = with_score s l.
Proof.
  induction l as [|x l IH]; simpl; [reflexivity|].
  rewrite sort_insert_with_score. unfold with_score in *.
  rewrite !(filter_cons _ x), IH. reflexivity.
Qed.

Lemma scored_chunks_elem chunks q r :
  r ∈ scored_chunks chunks q ->
  exists e, ch r ∈ chunks /\ embedding (ch r) = Some e /\ score r = dot q e.
Proof.
  unfold scored_chunks. rewrite list_elem_of_omap.
  intros (c & Hc & Hr). destruct (embedding c) as [e|] eqn:Ee; [|discriminate].
  injection Hr as <-. exists e. simpl. auto.
Qed.

Lemma scored_chunks_order chunks q :
  map ch (scored_chunks chunks q) = filter (fun c => embedding c <> None) chunks.
Proof.
  induction chunks as [|c cs IH]; [reflexivity|].
  rewrite filter_cons. unfold scored_chunks in *. cbn [omap list_omap].
  destruct (embedding c) as [e|].
  - cbn [map ch]. rewrite IH. destruct (decide (Some e <> None)) as [_|n]; [reflexivity|exfalso; apply n; discriminate].
  - rewrite IH. destruct (decide (@None vec <> None)); [congruence|reflexivity].
Qed.

(** C2 (as amended).  For every query vector, every chunk list and every
    count [k] that is not negative, provided no score is NaN: the retrieval
    result has at most [k] entries, is sorted by descending score, holds
    only chunks that have an embedding, each scored by the dot product of
    the query with that embedding (the products summed place by place, as
    doubles), is made of the first [k] of the sorted entries (no entry left
    out scores higher than one returned), and among entries of equal score
    keeps the order of the chunk list. *)
Theorem retrieval_topk (chunks : list Chunk) (q : vec) (k : Z) :
  let scored := scored_chunks chunks q in
  let result := topKByScore scored k in
  0 <= k ->
  scores_are_numbers scored ->
  Z.of_nat (length result) <= k /\
  StronglySorted score_ge result /\
  (forall r, r ∈ result ->
     exists e, ch r ∈ chunks /\ embedding (ch r) = Some e /\
               score r = dot_product (min (length q) (length e)) q e) /\
  (exists rest, result ++ rest ≡ₚ scored /\
     (Z.of_nat (length result) < k -> rest = []) /\
     forall x y, x ∈ result -> y ∈ rest -> score_ge x y) /\
  (forall s, with_score s result `prefix_of` with_score s scored) /\
  map ch scored = filter (fun c => embedding c <> None) chunks /\
  retrieveTopChunks chunks q = topKByScore scored TOP_K.
Proof.
  intros scored result Hk Hnum.
  assert (Hres : result = take (Z.to_nat k) (array_sort by_score_desc scored)).
  { unfold result, topKByScore. apply array_slice0_nonneg. exact Hk. }
  pose proof (array_sort_sorted scored Hnum) as Hsorted.
  pose proof (array_sort_perm by_score_desc scored) as Hperm.
  rewrite <- (take_drop (Z.to_nat k) (array_sort by_score_desc scored)) in Hsorted, Hperm.
  rewrite <- Hres in Hsorted, Hperm.
  split; [|split; [|split; [|split; [|split; [|split]]]]].
  - rewrite Hres, length_take. lia.
  - eapply StronglySorted_app_1_l. exact Hsorted.
  - intros r Hr.
    destruct (scored_chunks_elem chunks q r) as (e & Hin & He & Hs).
    { fold scored. rewrite <- Hperm. apply elem_of_app. left. exact Hr. }
    exists e. rewrite Hs, dot_is_dot_product. auto.
  - exists (drop (Z.to_nat k) (array_sort by_score_desc scored)).
    split; [exact Hperm|]. split.
    + rewrite Hres, length_take. intros Hlt. apply drop_ge. lia.
    + intros x y Hx Hy. eapply StronglySorted_app_1_elem_of; eassumption.
  - intros s. rewrite <- (array_sort_with_score s scored).
    rewrite <- (take_drop (Z.to_nat k) (array_sort by_score_desc scored)).
    rewrite <- Hres. unfold with_score. rewrite filter_app.
    apply prefix_app_r. reflexivity.
  - apply scored_chunks_order.
  - reflexivity.
Qed.

(** Four chunks for the examples: one whose embedding is absent, two that
    tie on the query (0, 1, 0), and one that is the query. *)
Lemma retrieval_topk_witness :
  let c1 := mkChunk [(js "id", JStr (js "a"))] (Some [1; 0; 0]%float) in
  let c2 := mkChunk [(js "id", JStr (js "b"))] None in
  let c3 := mkChunk [(js "id", JStr (js "c"))] (Some [0; 0; 1]%float) in
  let c4 := mkChunk [(js "id", JStr (js "d"))] (Some [0; 1; 0]%float) in
  let chunks := [c1; c2; c3; c4] in
  let q := [0; 1; 0]%float in
  let scored := scored_chunks chunks q in
  let result := topKByScore scored 2 in
  0 <= 2 /\
  scores_are_numbers scored /\
  map ch result = [c4; c1] /\
  Z.of_nat (length result) <= 2 /\
  StronglySorted score_ge result /\
  (forall r, r ∈ result ->
     exists e, ch r ∈ chunks /\ embedding (ch r) = Some e /\
               score r = dot_product (min (length q) (length e)) q e) /\
  (exists rest, result ++ rest ≡ₚ scored /\
     (Z.of_nat (length result) < 2 -> rest = []) /\
     forall x y, x ∈ result -> y ∈ rest -> score_ge x y) /\
  (forall s, with_score s result `prefix_of` with_score s scored) /\
  map ch scored = filter (fun c => embedding c <> None) chunks /\
  retrieveTopChunks chunks q = topKByScore scored TOP_K.
Proof.
  intros c1 c2 c3 c4 chunks q scored result.
  assert (Hnum : scores_are_numbers scored) by (repeat constructor).
  split; [lia|]. split; [exact Hnum|]. split; [vm_compute; reflexivity|].
  apply (retrieval_topk chunks q 2); [lia|exact Hnum].
Defined.

(** C2 as stated fails in two ways.  A score can be NaN (here the product
    of 0 and Infinity), and then the result is not sorted by score: no
    order of a NaN and a number is.  And a negative [k] counts from the
    end: [slice(0, -1)] of three entries returns two. *)
Lemma retrieval_nan_or_negative_count :
  ~ (forall chunks q k,
       0 <= k -> StronglySorted score_ge (topKByScore (scored_chunks chunks q) k)) /\
  ~ (forall chunks q k,
       scores_are_numbers (scored_chunks chunks q) ->
       Z.of_nat (length (topKByScore (scored_chunks chunks q) k)) <= k).
Proof.
  split.
  - intros H.
    specialize (H [mkChunk [(js "id", JStr (js "a"))] (Some [infinity]);
                   mkChunk [(js "id", JStr (js "b"))] (Some [1%float])]
                  [0%float] 6 ltac:(lia)).
    inversion H as [|x l _ Hx Heq]; subst.
    inversion Hx as [|y l' Hy _]; subst.
    vm_compute in Hy. discriminate Hy.
  - intros H.
    specialize (H [mkChunk [(js "id", JStr (js "a"))] (Some [1%float]);
                   mkChunk [(js "id", JStr (js "b"))] (Some [1%float]);
                   mkChunk [(js "id", JStr (js "c"))] (Some [1%float])]
                  [1%float] (-1) ltac:(repeat constructor)).
    vm_compute in H. apply H. reflexivity.
Qed.

(** The sixth scenario of the specification, with three axes: the chunk
    whose embedding is the query comes first with score 1, and the two
    chunks that tie follow in the order of the chunk list. *)
Lemma retrieveTopChunks_example :
  let c1 := mkChunk [(js "id", JStr (js "a"))] (Some [1; 0; 0]%float) in
  let c2 := mkChunk [(js "id", JStr (js "b"))] None in
  let c3 := mkChunk [(js "id", JStr (js "c"))] (Some [0; 0; 1]%float) in
  let c4 := mkChunk [(js "id", JStr (js "d"))] (Some [0; 1; 0]%float) in
  map ch (retrieveTopChunks [c1; c2; c3; c4] [0; 1; 0]%float) = [c4; c1; c3].
Proof. vm_compute. reflexivity. Qed.

(** Rounding decides a tie: the embedding (1, 2^-60) scores 1 on the query
    (1, 1), as (1, 0) does, and the two keep the order of the chunk list. *)
Lemma retrieveTopChunks_rounding_example :
  let plain := mkChunk [(js "id", JStr (js "plain"))] (Some [1; 0]%float) in
  let tilted := mkChunk [(js "id", JStr (js "tilted"))] (Some [1; 0x1p-60]%float) in
  map ch (retrieveTopChunks [plain; tilted] [1; 1]%float) = [plain; tilted] /\
  map score (retrieveTopChunks [plain; tilted] [1; 1]%float) = [1; 1]%float.
Proof. vm_compute. split; reflexivity. Qed.


(** ** Citation parsing *)

Lemma citation_text_eq ds :
  citation_text ds = LBRACKET :: UPPER_C :: ds ++ [RBRACKET].
Proof. reflexivity. Qed.

Lemma span_digits_app ds c rest :
  Forall (fun c => is_digit c = true) ds -> is_digit c = false ->
  span_digits (ds ++ c :: rest) = (ds, c :: rest).
Proof.
  intros H Hc. induction H as [|d ds Hd _ IH]; simpl.
  - rewrite Hc. reflexivity.
  - rewrite Hd, IH. reflexivity.
Qed.

Lemma span_digits_spec l ds rest :
  span_digits l = (ds, rest) ->
  l = ds ++ rest /\ Forall (fun c => is_digit c = true) ds.
Proof.
  revert ds rest. induction l as [|c r IH]; intros ds rest; simpl.
  - intros [= <- <-]. auto.
  - destruct (is_digit c) eqn:Ec.
    + destruct (span_digits r) as [ds' rest'].
      intros [= <- <-]. destruct (IH _ _ eq_refl) as [-> H].
      split; [reflexivity|]. constructor; assumption.
    + intros [= <- <-]. auto.
Qed.

(** The regular expression matches at the head of [l] exactly when [l]
    starts with a citation text, and it captures the digits of that text. *)
Lemma match_citation_Some l ds :
  match_citation l = Some ds <->
  digits ds /\ exists rest, l = citation_text ds ++ rest.
Proof.
  split.
  - destruct l as [|a [|b r]]; try discriminate. simpl.
    destruct (N.eqb_spec a LBRACKET) as [->|]; [|discriminate].
    destruct (N.eqb_spec b UPPER_C) as [->|]; [|discriminate]. simpl.
    destruct (span_digits r) as [[|d ds'] [|c rest]] eqn:E; try discriminate.
    destruct (N.eqb_spec c RBRACKET) as [->|]; [|discriminate].
    intros [= <-]. apply span_digits_spec in E as [-> Hd].
    split; [split; [discriminate|exact Hd]|].
    exists rest. unfold citation_text. simpl. rewrite <- app_assoc. reflexivity.
  - intros [[Hne Hd] [rest ->]]. unfold citation_text. simpl.
    rewrite <- app_assoc. simpl.
    rewrite span_digits_app by (exact Hd || reflexivity).
    destruct ds; [contradiction|reflexivity].
Qed.

(** Two citation texts at the head of one string are the same text. *)
Lemma citation_prefix_unique ds1 ds2 rest1 rest2 :
  digits ds1 -> digits ds2 ->
  citation_text ds1 ++ rest1 = citation_text ds2 ++ rest2 -> ds1 = ds2.
Proof.
  intros H1 H2 E.
  assert (M1 : match_citation (citation_text ds1 ++ rest1) = Some ds1)
    by (apply match_citation_Some; eauto).
  assert (M2 : match_citation (citation_text ds2 ++ rest2) = Some ds2)
    by (apply match_citation_Some; eauto).
  rewrite E in M1. congruence.
Qed.

Lemma occurs_in_cons needle c r :
  occurs_in needle (c :: r) <->
  (exists post, c :: r = needle ++ post) \/ occurs_in needle r.
Proof.
  unfold occurs_in. split.
  - intros ([|a pre] & post & E).
    + left. exists post. exact E.
    + right. injection E as -> ->. eauto.
  - intros [[post E]|(pre & post & ->)].
    + exists [], post. exact E.
    + exists (c :: pre), post. reflexivity.
Qed.

Lemma cited_nil v : ~ cited v [].
Proof.
  intros (ds & _ & (pre & post & E) & _). rewrite citation_text_eq in E.
  destruct pre; discriminate.
Qed.

Lemma cited_cons_skip v c r :
  c <> LBRACKET -> cited v (c :: r) <-> cited v r.
Proof.
  intros Hc. unfold cited. split.
  - intros (ds & Hd & Ho & Hv). exists ds. split; [exact Hd|]. split; [|exact Hv].
    apply occurs_in_cons in Ho as [[post E]|Ho]; [|exact Ho].
    rewrite citation_text_eq in E. injection E as -> _. contradiction.
  - intros (ds & Hd & Ho & Hv). exists ds. split; [exact Hd|]. split; [|exact Hv].
    apply occurs_in_cons. right. exact Ho.
Qed.

Lemma cited_cons_no_match v c r :
  match_citation (c :: r) = None -> cited v (c :: r) <-> cited v r.
Proof.
  intros Hm. unfold cited. split.
  - intros (ds & Hd & Ho & Hv). exists ds. split; [exact Hd|]. split; [|exact Hv].
    apply occurs_in_cons in Ho as [[post E]|Ho]; [|exact Ho].
    assert (match_citation (c :: r) = Some ds) by (apply match_citation_Some; eauto).
    congruence.
  - intros (ds & Hd & Ho & Hv). exists ds. split; [exact Hd|]. split; [|exact Hv].
    apply occurs_in_cons. right. exact Ho.
Qed.

Lemma cited_cons_match v c r ds :
  match_citation (c :: r) = Some ds ->
  cited v (c :: r) <-> v = Number_of_digits ds \/ cited v r.
Proof.
  intros Hm. pose proof Hm as Hm'. apply match_citation_Some in Hm' as [Hd [rest E]].
  unfold cited. split.
  - intros (ds' & Hd' & Ho & Hv).
    apply occurs_in_cons in Ho as [[post E']|Ho].
    + left. rewrite E in E'. apply citation_prefix_unique in E'; try assumption.
      subst. reflexivity.
    + right. exists ds'. auto.
  - intros [->|(ds' & Hd' & Ho & Hv)].
    + exists ds. split; [exact Hd|]. split; [|reflexivity].
      exists [], rest. exact E.
    + exists ds'. split; [exact Hd'|]. split; [|exact Hv].
      apply occurs_in_cons. right. exact Ho.
Qed.

Lemma digit_not_bracket c : is_digit c = true -> c <> LBRACKET.
Proof. intros H ->. discriminate H. Qed.

(** The scan with [skip] code units still inside the last match.  None of
    them is an opening bracket, so no citation text starts among them. *)
Lemma scan_citations_spec l : forall skip used v,
  Forall (fun c => c <> LBRACKET) (take skip l) ->
  v ∈ scan_citations skip l used <-> v ∈ used \/ cited v l.
Proof.
  induction l as [|c r IH]; intros skip used v Hskip.
  - simpl. pose proof (cited_nil v). tauto.
  - destruct skip as [|k].
    + cbn [scan_citations]. destruct (match_citation (c :: r)) as [ds|] eqn:Em.
      * rewrite IH.
        -- rewrite (cited_cons_match v c r ds Em), elem_of_union, elem_of_singleton.
           tauto.
        -- apply match_citation_Some in Em as [[_ Hd] [rest E]].
           unfold citation_text in E. simpl in E. injection E as -> ->.
           rewrite <- app_assoc. simpl.
           replace (length ds + 2)%nat with (S (length ds + 1)) by lia. simpl.
           constructor; [discriminate|].
           rewrite take_app_add'; [|reflexivity]. simpl.
           apply Forall_app. split.
           ++ eapply Forall_impl; [exact Hd|]. apply digit_not_bracket.
           ++ constructor; [discriminate|constructor].
      * rewrite IH by constructor.
        rewrite (cited_cons_no_match v c r Em). reflexivity.
    + cbn [scan_citations]. simpl in Hskip.
      inversion Hskip as [|? ? Hc Hrest]; subst.
      rewrite IH by exact Hrest.
      rewrite (cited_cons_skip v c r Hc). reflexivity.
Qed.

(** C6 (as amended).  The set returned for an answer holds exactly the
    Numbers [Number(d)] of the digit strings [d] (one or more ASCII digits,
    leading zeros included) for which ["[C" + d + "]"] occurs in the answer. *)
Theorem parseUsedCitations_spec (answerText : jsstr) (v : jsnum) :
  v ∈ parseUsedCitations answerText <->
  exists ds, digits ds /\ occurs_in (citation_text ds) answerText /\
             Number_of_digits ds = v.
Proof.
  unfold parseUsedCitations. rewrite scan_citations_spec by constructor.
  fold (cited v answerText). rewrite elem_of_empty. tauto.
Qed.

(** C6 as stated fails: for the answer ["[C01]"] the set holds 1, and
    ["[C" + 1 + "]"], which is ["[C1]"], does not occur in the answer. *)
Lemma parseUsedCitations_leading_zero :
  ~ (forall (answerText : jsstr) (n : N),
       Fin n ∈ parseUsedCitations answerText <->
       occurs_in (citation_text (dec n)) answerText).
Proof.
  intros H. specialize (H (js "[C01]") 1%N).
  assert (Hin : Fin 1 ∈ parseUsedCitations (js "[C01]")).
  { unfold parseUsedCitations. apply scan_citations_spec; [constructor|].
    right. exists (js "01").
    split; [split; [discriminate|repeat constructor]|].
    split; [exists [], []; reflexivity|reflexivity]. }
  apply H in Hin. destruct Hin as (pre & post & E).
  vm_compute in E.
  repeat (destruct pre as [|? pre]; simpl in E; try discriminate E;
          injection E as ? E; subst).
Qed.


(** ** Commands *)

Lemma bind_Ok {A B} (m : M A) (k : A -> M B) w a w' :
  m w = (Ok a, w') -> (m ≫= k) w = k a w'.
Proof. intros H. unfold mbind, M_bind, bind. rewrite H. reflexivity. Qed.

Lemma bind_Throw {A B} (m : M A) (k : A -> M B) w e w' :
  m w = (Throw e, w') -> (m ≫= k) w = (Throw e, w').
Proof. intros H. unfold mbind, M_bind, bind. rewrite H. reflexivity. Qed.



(** C1 (as amended).  A call of [ask] with a question that is not blank,
    made while the in-memory chunk list is empty, shows the alert that asks
    for material to be uploaded and indexed, and returns; nothing else of the
    page changes, so no message is appended to the transcript. *)
Theorem ask_no_chunks_alert (env : Env) (questionText : jsstr)
    (strict showContext : bool) (w : World) :
  trim questionText <> [] ->
  chunks (st w) = [] ->
  exists w',
    ask env questionText strict showContext w = (Ok tt, w') /\
    alerts w' = alerts w ++ [MSG_NO_CORPUS] /\
    chat (ui w') = chat (ui w) /\
    st w' = st w /\ ui w' = ui w /\ db w' = db w /\ downloads w' = downloads w.
Proof.
  intros Hq Hc. unfold ask.
  destruct (trim questionText) as [|c r]; [contradiction|].
  eexists. split.
  - erewrite bind_Ok by reflexivity. cbv beta. rewrite Hc. reflexivity.
  - simpl. repeat split; reflexivity.
Qed.

Lemma ask_no_chunks_alert_witness :
  trim (js "What is A?") <> [] /\ chunks (st engine_world) = [] /\
  exists w',
    ask demo_env (js "What is A?") true false engine_world = (Ok tt, w') /\
    alerts w' = alerts engine_world ++ [MSG_NO_CORPUS] /\
    chat (ui w') = chat (ui engine_world) /\
    st w' = st engine_world /\ ui w' = ui engine_world /\
    db w' = db engine_world /\ downloads w' = downloads engine_world.
Proof.
  split; [discriminate|]. split; [reflexivity|].
  apply (ask_no_chunks_alert demo_env (js "What is A?") true false engine_world).
  - discriminate.
  - reflexivity.
Defined.

(** C1 as stated fails: after an import the chunk list is not empty but no
    chunk has an embedding; [ask] then raises no alert and appends the
    question and the answer to the transcript. *)
Lemma ask_unindexed_chunks_proceeds :
  ~ (forall env questionText strict showContext w,
       Forall (fun c => embedding c = None) (chunks (st w)) ->
       alerts (snd (ask env questionText strict showContext w))
         = alerts w ++ [MSG_NO_CORPUS] /\
       chat (ui (snd (ask env questionText strict showContext w))) = chat (ui w)).
Proof.
  intros H.
  specialize (H demo_env (js "What is A?") true false imported_world).
  assert (Hc : Forall (fun c => embedding c = None) (chunks (st imported_world))).
  { vm_compute. repeat constructor. }
  destruct (H Hc) as [_ Hchat]. vm_compute in Hchat. discriminate Hchat.
Qed.

(** *** The store *)

Lemma db_request_accepted env r w :
  db_fault env r = None -> db_request env r w = (Ok tt, w).
Proof. intros H. unfold db_request. rewrite H. reflexivity. Qed.

Lemma db_request_rejected env r e w :
  db_fault env r = Some e -> db_request env r w = (Throw e, w).
Proof. intros H. unfold db_request. rewrite H. reflexivity. Qed.

(** A request changes nothing of the page. *)
Lemma db_request_world env r w : snd (db_request env r w) = w.
Proof. unfold db_request. destruct (db_fault env r); reflexivity. Qed.

Lemma accepts_app env rs rs' : accepts env (rs ++ rs') <-> accepts env rs /\ accepts env rs'.
Proof. apply Forall_app. Qed.

Lemma accepts_put env store :
  accepts env (PUT_REQUESTS store) ->
  db_fault env (OpenToPut store) = None /\ db_fault env (PutTx store) = None.
Proof.
  intros H. inversion H as [|? ? H1 H']; subst. inversion H' as [|? ? H2 _]; subst. auto.
Qed.

(** What a transaction of [dbPutMany] leaves: the store as it was when the
    database cannot be opened or the transaction is rejected, and else the
    store with the records put. *)
Lemma put_transaction_rejected {V} env store key_of (objs : list V) sel upd e w :
  db_fault env (PutTx store) = Some e ->
  exists e', put_transaction env store key_of objs sel upd w = (Throw e', w).
Proof.
  intros H. unfold put_transaction. rewrite H.
  destruct (put_all key_of objs (sel (db w))) as [[[]|d] s]; eauto.
Qed.

Lemma put_transaction_accepted {V} env store key_of (objs : list V) sel upd w :
  db_fault env (PutTx store) = None ->
  put_transaction env store key_of objs sel upd w =
  (fst (put_all key_of objs (sel (db w))),
   with_db (upd (snd (put_all key_of objs (sel (db w))))) w).
Proof.
  intros H. unfold put_transaction. rewrite H.
  destruct (put_all key_of objs (sel (db w))). reflexivity.
Qed.

Lemma dbPutMany_docs_eq env objs w :
  accepts env (PUT_REQUESTS STORE_DOCS) ->
  dbPutMany_docs env objs w =
  (fst (put_all doc_key objs (db_docs (db w))),
   with_db (fun d => mkDb (snd (put_all doc_key objs (db_docs (db w)))) (db_chunks d)) w).
Proof.
  intros H. apply accepts_put in H as [H1 H2]. unfold dbPutMany_docs.
  erewrite bind_Ok by (apply db_request_accepted; exact H1).
  exact (put_transaction_accepted env STORE_DOCS doc_key objs db_docs
           (fun s d => mkDb s (db_chunks d)) w H2).
Qed.

Lemma dbPutMany_chunks_eq env objs w :
  accepts env (PUT_REQUESTS STORE_CHUNKS) ->
  dbPutMany_chunks env objs w =
  (fst (put_all chunk_key objs (db_chunks (db w))),
   with_db (fun d => mkDb (db_docs d) (snd (put_all chunk_key objs (db_chunks (db w))))) w).
Proof.
  intros H. apply accepts_put in H as [H1 H2]. unfold dbPutMany_chunks.
  erewrite bind_Ok by (apply db_request_accepted; exact H1).
  exact (put_transaction_accepted env STORE_CHUNKS chunk_key objs db_chunks
           (fun s d => mkDb (db_docs d) s) w H2).
Qed.

(** Whether or not the store takes them, a write of records changes the
    page in its store only, and there in the one object store. *)
Lemma dbPutMany_docs_cases env objs w :
  snd (dbPutMany_docs env objs w) = w \/
  dbPutMany_docs env objs w =
  (fst (put_all doc_key objs (db_docs (db w))),
   with_db (fun d => mkDb (snd (put_all doc_key objs (db_docs (db w)))) (db_chunks d)) w).
Proof.
  unfold dbPutMany_docs.
  destruct (db_fault env (OpenToPut STORE_DOCS)) as [e|] eqn:E1.
  { left. erewrite bind_Throw by (apply db_request_rejected; exact E1). reflexivity. }
  erewrite bind_Ok by (apply db_request_accepted; exact E1).
  destruct (db_fault env (PutTx STORE_DOCS)) as [e|] eqn:E2.
  - left. destruct (put_transaction_rejected env STORE_DOCS doc_key objs db_docs
                      (fun s d => mkDb s (db_chunks d)) e w E2) as [e' ->]. reflexivity.
  - right. exact (put_transaction_accepted env STORE_DOCS doc_key objs db_docs
                    (fun s d => mkDb s (db_chunks d)) w E2).
Qed.

Lemma dbPutMany_chunks_cases env objs w :
  snd (dbPutMany_chunks env objs w) = w \/
  dbPutMany_chunks env objs w =
  (fst (put_all chunk_key objs (db_chunks (db w))),
   with_db (fun d => mkDb (db_docs d) (snd (put_all chunk_key objs (db_chunks (db w))))) w).
Proof.
  unfold dbPutMany_chunks.
  destruct (db_fault env (OpenToPut STORE_CHUNKS)) as [e|] eqn:E1.
  { left. erewrite bind_Throw by (apply db_request_rejected; exact E1). reflexivity. }
  erewrite bind_Ok by (apply db_request_accepted; exact E1).
  destruct (db_fault env (PutTx STORE_CHUNKS)) as [e|] eqn:E2.
  - left. destruct (put_transaction_rejected env STORE_CHUNKS chunk_key objs db_chunks
                      (fun s d => mkDb (db_docs d) s) e w E2) as [e' ->]. reflexivity.
  - right. exact (put_transaction_accepted env STORE_CHUNKS chunk_key objs db_chunks
                    (fun s d => mkDb (db_docs d) s) w E2).
Qed.

(** A write of records either is made, all requests being granted, or is
    rejected and leaves the page as it was. *)
Lemma dbPutMany_docs_decide env objs w :
  (accepts env (PUT_REQUESTS STORE_DOCS) /\
   dbPutMany_docs env objs w =
   (fst (put_all doc_key objs (db_docs (db w))),
    with_db (fun d => mkDb (snd (put_all doc_key objs (db_docs (db w)))) (db_chunks d)) w)) \/
  (~ accepts env (PUT_REQUESTS STORE_DOCS) /\
   exists e, dbPutMany_docs env objs w = (Throw e, w)).
Proof.
  destruct (db_fault env (OpenToPut STORE_DOCS)) as [e|] eqn:E1.
  { right. split; [intros H; apply accepts_put in H as [H _]; congruence|].
    exists e. unfold dbPutMany_docs.
    erewrite bind_Throw by (apply db_request_rejected; exact E1). reflexivity. }
  destruct (db_fault env (PutTx STORE_DOCS)) as [e|] eqn:E2.
  - right. split; [intros H; apply accepts_put in H as [_ H]; congruence|].
    unfold dbPutMany_docs. erewrite bind_Ok by (apply db_request_accepted; exact E1).
    exact (put_transaction_rejected env STORE_DOCS doc_key objs db_docs
             (fun s d => mkDb s (db_chunks d)) e w E2).
  - left. assert (H : accepts env (PUT_REQUESTS STORE_DOCS)) by (repeat constructor; assumption).
    split; [exact H|]. apply dbPutMany_docs_eq. exact H.
Qed.

Lemma dbPutMany_chunks_decide env objs w :
  (accepts env (PUT_REQUESTS STORE_CHUNKS) /\
   dbPutMany_chunks env objs w =
   (fst (put_all chunk_key objs (db_chunks (db w))),
    with_db (fun d => mkDb (db_docs d) (snd (put_all chunk_key objs (db_chunks (db w))))) w)) \/
  (~ accepts env (PUT_REQUESTS STORE_CHUNKS) /\
   exists e, dbPutMany_chunks env objs w = (Throw e, w)).
Proof.
  destruct (db_fault env (OpenToPut STORE_CHUNKS)) as [e|] eqn:E1.
  { right. split; [intros H; apply accepts_put in H as [H _]; congruence|].
    exists e. unfold dbPutMany_chunks.
    erewrite bind_Throw by (apply db_request_rejected; exact E1). reflexivity. }
  destruct (db_fault env (PutTx STORE_CHUNKS)) as [e|] eqn:E2.
  - right. split; [intros H; apply accepts_put in H as [_ H]; congruence|].
    unfold dbPutMany_chunks. erewrite bind_Ok by (apply db_request_accepted; exact E1).
    exact (put_transaction_rejected env STORE_CHUNKS chunk_key objs db_chunks
             (fun s d => mkDb (db_docs d) s) e w E2).
  - left. assert (H : accepts env (PUT_REQUESTS STORE_CHUNKS)) by (repeat constructor; assumption).
    split; [exact H|]. apply dbPutMany_chunks_eq. exact H.
Qed.

Lemma dbClearAll_accepted env w :
  accepts env CLEAR_REQUESTS ->
  dbClearAll env w = (Ok tt, with_db (fun _ => mkDb [] []) w).
Proof.
  intros H. inversion H as [|? ? H1 H']; subst. inversion H' as [|? ? H2 H'']; subst.
  inversion H'' as [|? ? H3 _]; subst. unfold dbClearAll.
  erewrite bind_Ok by (apply db_request_accepted; exact H1).
  erewrite bind_Ok by (apply db_request_accepted; exact H2).
  erewrite bind_Ok by reflexivity.
  erewrite bind_Ok by (apply db_request_accepted; exact H3).
  reflexivity.
Qed.

(** [dbClearAll] touches the store only. *)
Lemma dbClearAll_frame env w :
  st (snd (dbClearAll env w)) = st w /\ ui (snd (dbClearAll env w)) = ui w /\
  alerts (snd (dbClearAll env w)) = alerts w /\
  downloads (snd (dbClearAll env w)) = downloads w.
Proof.
  unfold dbClearAll, mbind, M_bind, bind, db_request.
  destruct (db_fault env OpenToClear); [auto|].
  destruct (db_fault env (ClearTx STORE_DOCS)); [auto|]. cbn [modify throw mret M_ret ret].
  destruct (db_fault env (ClearTx STORE_CHUNKS)); auto.
Qed.

Lemma call_args_fits {A} env (l : list A) : fits env l -> call_args (arg_limit env) l = Ok l.
Proof.
  unfold fits, call_args. intros H.
  destruct (N.ltb_spec (arg_limit env) (N.of_nat (length l))); [lia|reflexivity].
Qed.

(** *** Import *)

(** X30.  An import file whose [docs] member or whose [chunks] member is
    missing or falsy (absent, [null], [false], [0], the empty string; also a
    file that is not an object) is refused with the alert for a malformed file
    before the store is cleared: the store, the in-memory documents and
    chunks and the view are left as they were. *)
Theorem importJSON_refuses_missing_members (env : Env) (data : json) (w : World) :
  truthy (get data (js "docs")) = false \/ truthy (get data (js "chunks")) = false ->
  exists w',
    importJSON env (Json data) w = (Ok tt, w') /\
    alerts w' = alerts w ++ [MSG_BAD_FORMAT] /\
    db w' = db w /\ st w' = st w /\ ui w' = ui w /\ downloads w' = downloads w.
Proof.
  intros H. unfold importJSON.
  assert (Hguard : negb (truthy (get data (js "docs")))
                   || negb (truthy (get data (js "chunks"))) = true).
  { destruct H as [-> | ->]; [reflexivity|apply orb_true_r]. }
  eexists. split.
  - erewrite bind_Ok by reflexivity. cbv beta. rewrite Hguard. reflexivity.
  - simpl. repeat split; reflexivity.
Qed.

Lemma importJSON_refuses_missing_members_witness :
  (truthy (get (JObj [(js "version", JNum 1); (js "docs", JArr [demo_doc])]) (js "docs")) = false \/
   truthy (get (JObj [(js "version", JNum 1); (js "docs", JArr [demo_doc])]) (js "chunks")) = false) /\
  exists w',
    importJSON demo_env (Json (JObj [(js "version", JNum 1); (js "docs", JArr [demo_doc])]))
               imported_world = (Ok tt, w') /\
    alerts w' = alerts imported_world ++ [MSG_BAD_FORMAT] /\
    db w' = db imported_world /\ st w' = st imported_world /\
    ui w' = ui imported_world /\ downloads w' = downloads imported_world.
Proof.
  split; [right; reflexivity|].
  apply (importJSON_refuses_missing_members demo_env
           (JObj [(js "version", JNum 1); (js "docs", JArr [demo_doc])]) imported_world).
  right. reflexivity.
Defined.

(** C7.  The claim fails on the code: a file whose [docs] member is the
    number 5 has no docs array, yet it passes the test of [importJSON]
    (5 is truthy).  Run on a page that holds one document and one chunk,
    in memory and in the store, the import clears the store, replaces both
    lists by empty ones, empties the transcript, and only then stops, with
    a TypeError at [push(...data.docs)] and without any alert. *)
Theorem importJSON_docs_number_wipes :
  let before := imported_world in
  let run := importJSON demo_env (Json demo_payload_docs_number) before in
  is_array (get demo_payload_docs_number (js "docs")) = false /\
  length (docs (st before)) = 1%nat /\ length (chunks (st before)) = 1%nat /\
  length (db_docs (db before)) = 1%nat /\ length (db_chunks (db before)) = 1%nat /\
  fst run = Throw TypeError /\
  db (snd run) = mkDb [] [] /\
  docs (st (snd run)) = [] /\ chunks (st (snd run)) = [] /\
  chat (ui (snd run)) = [] /\
  alerts (snd run) = alerts before.
Proof. vm_compute. repeat split; reflexivity. Qed.

(** A file with both arrays passes the test; when the store lets itself be
    cleared and each array fits a call, the in-memory lists are replaced,
    and the store writes follow. *)
Lemma importJSON_arrays (env : Env) (data : json) (ds cs : list json) (w : World) :
  get data (js "docs") = Some (JArr ds) ->
  get data (js "chunks") = Some (JArr cs) ->
  accepts env CLEAR_REQUESTS -> fits env ds -> fits env cs ->
  importJSON env (Json data) w
  = import_commit env ds (map raw_chunk cs) (import_replaced ds (map raw_chunk cs) w).
Proof.
  intros Hd Hc Hclear Hds Hcs. unfold importJSON.
  erewrite bind_Ok by reflexivity. cbv beta.
  rewrite Hd, Hc. cbn [truthy negb orb].
  erewrite bind_Ok by (apply dbClearAll_accepted; exact Hclear).
  do 3 (erewrite bind_Ok by reflexivity).
  erewrite bind_Ok by reflexivity.
  erewrite bind_Ok by (unfold lift; cbn [spread_args]; rewrite (call_args_fits env ds Hds); reflexivity).
  erewrite bind_Ok by reflexivity.
  erewrite bind_Ok by reflexivity.
  erewrite bind_Ok by (unfold lift; rewrite (call_args_fits env (map raw_chunk cs))
                         by (unfold fits in *; rewrite length_map; exact Hcs); reflexivity).
  erewrite bind_Ok by reflexivity.
  erewrite bind_Ok by reflexivity.
  reflexivity.
Qed.

Lemma put_all_ok {V} (key_of : V -> option json) objs : forall s,
  Forall (fun o => key_of o <> None) objs ->
  fst (put_all key_of objs s) = Ok tt.
Proof.
  induction objs as [|o r IH]; intros s H; [reflexivity|].
  inversion H as [|? ? Ho Hr]; subst. simpl.
  destruct (key_of o); [|contradiction]. apply IH. exact Hr.
Qed.

Lemma importable_doc_key d : importable_doc d = true -> doc_key d <> None.
Proof. unfold importable_doc. destruct (doc_key d); [discriminate|]. discriminate. Qed.

Lemma importable_chunk_key x :
  importable_chunk x = true -> chunk_key (raw_chunk x) <> None.
Proof.
  unfold importable_chunk. destruct (chunk_key (raw_chunk x)); discriminate.
Qed.

Lemma doc_rows_ok cs ds :
  forallb importable_doc ds = true -> exists rows, doc_rows cs ds = Ok rows.
Proof.
  induction ds as [|d r IH]; simpl; [eauto|].
  intros H. apply andb_prop in H as [Hd Hr]. destruct (IH Hr) as [rows Hrows].
  unfold importable_doc in Hd.
  destruct d as [| | | | | | |ms]; try discriminate Hd. cbn [doc_key get prop] in *.
  destruct (key_of_members ms); [|discriminate Hd].
  destruct (escapeHtml_value (assoc (js "name") ms)) as [name|e]; [|discriminate Hd].
  apply negb_true_iff in Hd. rewrite Hd, Hrows. eauto.
Qed.

Lemma renderDocs_ok w :
  forallb importable_doc (docs (st w)) = true ->
  exists x, renderDocs w = (Ok tt, with_ui (set_docsList x) w).
Proof.
  intros H. unfold renderDocs.
  erewrite bind_Ok by reflexivity. erewrite bind_Ok by reflexivity. cbv beta.
  destruct (length (docs (st w)) =? 0)%nat; [eexists; reflexivity|].
  destruct (doc_rows_ok (chunks (st w)) _ H) as [rows Hrows].
  erewrite bind_Ok by (unfold lift; rewrite Hrows; reflexivity).
  eexists. reflexivity.
Qed.

(** C8 (as amended).  Import does not read the [version] member.  Every
    file that carries a [docs] array of records the store and the document
    list take (objects with a valid [id], whose [name] is a string or
    absent and whose [size] converts to a number) and a [chunks] array of
    records with a valid [id] is imported, whatever its [version] is and
    also without one, provided IndexedDB rejects none of the requests of
    the import and each array fits the arguments of one call: the command
    returns, the in-memory lists are the imported ones with every
    embedding absent, and completion is announced. *)
Theorem importJSON_accepts_any_version (env : Env) (data : json) (ds cs : list json)
    (w : World) :
  get data (js "docs") = Some (JArr ds) ->
  get data (js "chunks") = Some (JArr cs) ->
  forallb importable_doc ds = true ->
  forallb importable_chunk cs = true ->
  accepts env IMPORT_REQUESTS ->
  fits env ds -> fits env cs ->
  exists w',
    importJSON env (Json data) w = (Ok tt, w') /\
    docs (st w') = ds /\
    chunks (st w') = map raw_chunk cs /\
    alerts w' = alerts w ++ [MSG_IMPORT_DONE].
Proof.
  intros Hd Hc Hds Hcs Hreq Hfd Hfc.
  unfold IMPORT_REQUESTS in Hreq.
  apply accepts_app in Hreq as [Hclear Hreq]. apply accepts_app in Hreq as [Hpd Hpc].
  rewrite (importJSON_arrays env data ds cs w Hd Hc Hclear Hfd Hfc). unfold import_commit.
  set (w1 := import_replaced ds (map raw_chunk cs) w).
  assert (H1 : fst (put_all doc_key ds (db_docs (db w1))) = Ok tt).
  { apply put_all_ok. apply Forall_forall. intros d Hin.
    apply importable_doc_key. rewrite forallb_forall in Hds. apply Hds.
    apply list_elem_of_In. exact Hin. }
  erewrite bind_Ok by (rewrite (dbPutMany_docs_eq env ds w1 Hpd), H1; reflexivity).
  set (w2 := with_db _ w1).
  assert (H2 : fst (put_all chunk_key (map raw_chunk cs) (db_chunks (db w2))) = Ok tt).
  { apply put_all_ok. apply Forall_forall. intros c Hin.
    apply list_elem_of_fmap in Hin as (x & -> & Hx).
    apply importable_chunk_key. rewrite forallb_forall in Hcs. apply Hcs.
    apply list_elem_of_In. exact Hx. }
  erewrite bind_Ok by (rewrite (dbPutMany_chunks_eq env _ w2 Hpc), H2; reflexivity).
  set (w3 := with_db _ w2).
  destruct (renderDocs_ok w3 Hds) as [x Hx].
  erewrite bind_Ok by exact Hx.
  eexists. split; [reflexivity|].
  simpl. auto.
Qed.

Lemma importJSON_accepts_any_version_witness :
  get demo_payload_v2 (js "docs") = Some (JArr [demo_doc]) /\
  get demo_payload_v2 (js "chunks") = Some (JArr [demo_chunk_json]) /\
  forallb importable_doc [demo_doc] = true /\
  forallb importable_chunk [demo_chunk_json] = true /\
  accepts demo_env IMPORT_REQUESTS /\
  fits demo_env [demo_doc] /\ fits demo_env [demo_chunk_json] /\
  exists w',
    importJSON demo_env (Json demo_payload_v2) engine_world = (Ok tt, w') /\
    docs (st w') = [demo_doc] /\
    chunks (st w') = map raw_chunk [demo_chunk_json] /\
    alerts w' = alerts engine_world ++ [MSG_IMPORT_DONE].
Proof.
  assert (Hreq : accepts demo_env IMPORT_REQUESTS) by (repeat constructor).
  assert (Hfd : fits demo_env [demo_doc]) by (vm_compute; discriminate).
  assert (Hfc : fits demo_env [demo_chunk_json]) by (vm_compute; discriminate).
  split; [reflexivity|]. split; [reflexivity|].
  split; [reflexivity|]. split; [reflexivity|].
  split; [exact Hreq|]. split; [exact Hfd|]. split; [exact Hfc|].
  apply (importJSON_accepts_any_version demo_env demo_payload_v2 [demo_doc]
           [demo_chunk_json] engine_world); try reflexivity; assumption.
Defined.

(** C8 as stated fails: a file marked version 2 is imported to the end. *)
Lemma importJSON_version_2_completes :
  ~ (forall env data w,
       import_completed (importJSON env (Json data) w) ->
       get data (js "version") = Some (JNum 1)).
Proof.
  intros H. specialize (H demo_env demo_payload_v2 engine_world).
  assert (Hc : import_completed (importJSON demo_env (Json demo_payload_v2) engine_world)).
  { split; vm_compute; reflexivity. }
  specialize (H Hc). vm_compute in H. discriminate H.
Qed.

(** The conditions on the records are needed: a version 1 file with both
    arrays whose document has no [id] stops at the store with a DataError,
    after the store was cleared and the lists were replaced. *)
Lemma importJSON_version_1_without_id :
  fst (importJSON demo_env
         (Json (JObj [ (js "version", JNum 1);
                       (js "docs", JArr [JObj [(js "name", JStr (js "x"))]]);
                       (js "chunks", JArr []) ]))
         engine_world) = Throw DataError.
Proof. vm_compute. reflexivity. Qed.

(** So is the condition on [size]: a document whose [size] is the object
    [{"toString": 1, "valueOf": 1}] is stored, and then the document list
    cannot be drawn; the import stops with a TypeError and announces
    nothing. *)
Lemma importJSON_size_object :
  let d := JObj [ (js "id", JStr (js "d1")); (js "name", JStr (js "x"));
                  (js "size", JObj [(js "toString", JNum 1); (js "valueOf", JNum 1)]) ] in
  let run := importJSON demo_env
               (Json (JObj [ (js "version", JNum 1); (js "docs", JArr [d]);
                             (js "chunks", JArr []) ]))
               engine_world in
  fst run = Throw TypeError /\ alerts (snd run) = [] /\
  length (db_docs (db (snd run))) = 1%nat.
Proof. vm_compute. repeat split; reflexivity. Qed.

(** And so is the condition on the store: when the database cannot be
    opened, a well-formed version 1 file is not imported, and the page
    stays as it was. *)
Lemma importJSON_store_unavailable (w : World) :
  let env := mkEnv false (Ok demo_hf) (js "2026-01-01T00:00:00.000Z") 1767225600000%N
                   demo_to_text 125000%N
                   (fun _ => Some (ExternalError (js "InvalidStateError"))) in
  importJSON env (Json demo_payload_v2) w
  = (Throw (ExternalError (js "InvalidStateError")), w).
Proof. reflexivity. Qed.

(** *** Export and import *)

Lemma keeps_st_bind {A B} (m : M A) (k : A -> M B) :
  keeps_st m -> (forall a, keeps_st (k a)) -> keeps_st (m ≫= k).
Proof.
  intros Hm Hk w. unfold mbind, M_bind, bind.
  specialize (Hm w). destruct (m w) as [[a|e] w']; simpl in *.
  - rewrite Hk. exact Hm.
  - exact Hm.
Qed.

Lemma keeps_st_dbPutMany_docs env objs : keeps_st (dbPutMany_docs env objs).
Proof.
  intros w. destruct (dbPutMany_docs_cases env objs w) as [-> | ->]; reflexivity.
Qed.

Lemma keeps_st_dbPutMany_chunks env objs : keeps_st (dbPutMany_chunks env objs).
Proof.
  intros w. destruct (dbPutMany_chunks_cases env objs w) as [-> | ->]; reflexivity.
Qed.

Lemma keeps_st_renderDocs : keeps_st renderDocs.
Proof.
  intros w. unfold renderDocs.
  erewrite bind_Ok by reflexivity. erewrite bind_Ok by reflexivity. cbv beta.
  destruct (length (docs (st w)) =? 0)%nat; [reflexivity|].
  unfold mbind, M_bind, bind, lift.
  destruct (doc_rows _ _); reflexivity.
Qed.

Lemma keeps_st_import_commit env ds rc : keeps_st (import_commit env ds rc).
Proof.
  unfold import_commit.
  apply keeps_st_bind; [apply keeps_st_dbPutMany_docs|intros _].
  apply keeps_st_bind; [apply keeps_st_dbPutMany_chunks|intros _].
  apply keeps_st_bind; [apply keeps_st_renderDocs|intros _].
  apply keeps_st_bind; [intros w; reflexivity|intros _].
  intros w. reflexivity.
Qed.

Lemma assoc_map_values {A B} (g : A -> B) k (ms : list (jsstr * A)) :
  assoc k (map (fun kv => (fst kv, g (snd kv))) ms) = option_map g (assoc k ms).
Proof.
  induction ms as [|[k' v] r IH]; [reflexivity|]. cbn [map assoc fst snd].
  destruct (jsstr_eqb k' k); [reflexivity|exact IH].
Qed.

(** The five exported properties of a chunk come back from the file as
    [JSON.stringify] wrote them. *)
Lemma raw_chunk_export_chunk c f :
  f ∈ exported_fields ->
  chunk_get (raw_chunk (json_roundtrip (stringify_literal (export_chunk c)))) f
  = option_map json_roundtrip (chunk_get c f).
Proof.
  unfold exported_fields, export_chunk, stringify_literal, raw_chunk, chunk_get.
  intros Hf. cbn [props spread_props omap list_omap snd fst json_roundtrip].
  repeat (apply elem_of_cons in Hf as [->|Hf]);
    [..|inversion Hf];
    destruct (assoc (js "id") (props c)), (assoc (js "docId") (props c)),
      (assoc (js "docName") (props c)), (assoc (js "page") (props c)),
      (assoc (js "text") (props c)); reflexivity.
Qed.

Lemma stable_fields_get c f :
  stable_fields c -> f ∈ exported_fields ->
  option_map json_roundtrip (chunk_get c f) = chunk_get c f.
Proof.
  unfold stable_fields. rewrite Forall_forall. intros H Hf. specialize (H f Hf).
  destruct (chunk_get c f) as [v|]; [|reflexivity]. cbn [option_map]. f_equal. exact H.
Qed.

Lemma map_json_stable ds : Forall json_stable ds -> map json_roundtrip ds = ds.
Proof.
  induction 1 as [|d r Hd _ IH]; [reflexivity|]. cbn [map]. rewrite Hd, IH. reflexivity.
Qed.

(** C5 (as amended).  For every in-memory state whose documents and
    exported chunk fields hold no [-0] and no infinity, [exportJSON] offers
    a file (version 1) whose import, into any page of a browser that lets
    the store be cleared and takes each list as the arguments of one call,
    leaves the in-memory documents equal to the exported ones and the
    in-memory chunks equal to the exported ones on [id], [docId],
    [docName], [page] and [text], one for one and in order, with the
    embedding absent on every chunk.  (The in-memory lists are replaced
    before the records are written, so this holds whether or not the store
    takes the records.) *)
Theorem export_import_roundtrip (env env' : Env) (w w0 : World) :
  Forall json_stable (docs (st w)) ->
  Forall stable_fields (chunks (st w)) ->
  accepts env' CLEAR_REQUESTS ->
  fits env' (docs (st w)) -> fits env' (chunks (st w)) ->
  exists fname payload w1,
    exportJSON env w = (Ok tt, w1) /\
    st w1 = st w /\
    downloads w1 = downloads w ++ [(fname, payload)] /\
    get payload (js "version") = Some (JNum 1) /\
    docs (st (snd (importJSON env' (Json payload) w0))) = docs (st w) /\
    Forall2 (fun c c' =>
               embedding c' = None /\
               forall f, f ∈ exported_fields -> chunk_get c' f = chunk_get c f)
            (chunks (st w))
            (chunks (st (snd (importJSON env' (Json payload) w0)))).
Proof.
  intros Hdocs Hchunks Hclear Hfd Hfc.
  exists (js "kb-ai-export-" ++ dec (now_ms env) ++ js ".json"),
         (export_payload env (st w)).
  eexists. split; [reflexivity|].
  split; [reflexivity|]. split; [reflexivity|]. split; [reflexivity|].
  rewrite (importJSON_arrays env' (export_payload env (st w))
             (map json_roundtrip (docs (st w)))
             (map (fun c => json_roundtrip (stringify_literal (export_chunk c)))
                  (chunks (st w))) w0)
    by (try reflexivity; try assumption; unfold fits in *; rewrite length_map; assumption).
  rewrite keeps_st_import_commit. cbn [st import_replaced docs chunks].
  split; [apply map_json_stable; exact Hdocs|].
  clear Hfc. induction Hchunks as [|c cs Hc _ IH]; cbn [map]; constructor.
  - split; [reflexivity|]. intros f Hf.
    rewrite raw_chunk_export_chunk by exact Hf. apply stable_fields_get; assumption.
  - exact IH.
Qed.

Lemma export_import_roundtrip_witness :
  Forall json_stable (docs (st imported_world)) /\
  Forall stable_fields (chunks (st imported_world)) /\
  accepts demo_env CLEAR_REQUESTS /\
  fits demo_env (docs (st imported_world)) /\ fits demo_env (chunks (st imported_world)) /\
  exists fname payload w1,
    exportJSON demo_env imported_world = (Ok tt, w1) /\
    st w1 = st imported_world /\
    downloads w1 = downloads imported_world ++ [(fname, payload)] /\
    get payload (js "version") = Some (JNum 1) /\
    docs (st (snd (importJSON demo_env (Json payload) empty_world)))
      = docs (st imported_world) /\
    Forall2 (fun c c' =>
               embedding c' = None /\
               forall f, f ∈ exported_fields -> chunk_get c' f = chunk_get c f)
            (chunks (st imported_world))
            (chunks (st (snd (importJSON demo_env (Json payload) empty_world)))).
Proof.
  assert (H1 : Forall json_stable (docs (st imported_world)))
    by (repeat constructor).
  assert (H2 : Forall stable_fields (chunks (st imported_world)))
    by (repeat constructor).
  assert (H3 : accepts demo_env CLEAR_REQUESTS) by (repeat constructor).
  assert (H4 : fits demo_env (docs (st imported_world))) by (vm_compute; discriminate).
  assert (H5 : fits demo_env (chunks (st imported_world))) by (vm_compute; discriminate).
  split; [exact H1|]. split; [exact H2|]. split; [exact H3|].
  split; [exact H4|]. split; [exact H5|].
  exact (export_import_roundtrip demo_env demo_env imported_world empty_world H1 H2 H3 H4 H5).
Defined.

(** C5 as stated fails: a document whose [size] was read from [1e999] holds
    an infinity, which [JSON.stringify] writes as [null]; after the export
    and the import the document is another one. *)
Lemma export_import_loses_infinity :
  ~ (forall env env' w w0 fname payload,
       downloads (snd (exportJSON env w)) = downloads w ++ [(fname, payload)] ->
       docs (st (snd (importJSON env' (Json payload) w0))) = docs (st w)).
Proof.
  intros H.
  specialize (H demo_env demo_env
                (snd (importJSON demo_env (Json demo_payload_1e999) empty_world))
                empty_world
                (js "kb-ai-export-1767225600000.json")
                (export_payload demo_env
                   (st (snd (importJSON demo_env (Json demo_payload_1e999) empty_world))))).
  assert (E : docs (st (snd (importJSON demo_env (Json demo_payload_1e999) empty_world)))
              = [demo_doc_1e999]) by (vm_compute; reflexivity).
  rewrite E in H. specialize (H ltac:(vm_compute; reflexivity)).
  vm_compute in H. discriminate H.
Qed.

(** The third scenario of the specification in small: what was imported is
    exported and imported again, and the lists are the same. *)
Lemma export_import_example :
  let payload := export_payload demo_env (st imported_world) in
  docs (st (snd (importJSON demo_env (Json payload) empty_world))) = docs (st imported_world) /\
  chunks (st (snd (importJSON demo_env (Json payload) empty_world))) = chunks (st imported_world).
Proof. vm_compute. split; reflexivity. Qed.


(** ** HTML escaping *)

(** Case analysis on a code unit that a definition matches against
    numerals. *)
Ltac split_code_unit :=
  repeat match goal with
         | |- context [match ?p with _ => _ end] => is_var p; destruct p
         end.

Lemma escape_char_plain c : html_special c = false -> escape_char c = [c].
Proof.
  unfold html_special, escape_char. split_code_unit; (reflexivity || discriminate).
Qed.

Lemma html_special_cases c :
  html_special c = true -> c = 38%N \/ c = 60%N \/ c = 62%N \/ c = 34%N \/ c = 39%N.
Proof.
  unfold html_special. split_code_unit; try discriminate; intros _; auto 6.
Qed.

(** The entities, one code unit at a time. *)
Lemma escape_char_special c :
  html_special c = true ->
  (c = 38%N /\ escape_char c = [38; 97; 109; 112; 59]%N) \/
  (c = 60%N /\ escape_char c = [38; 108; 116; 59]%N) \/
  (c = 62%N /\ escape_char c = [38; 103; 116; 59]%N) \/
  (c = 34%N /\ escape_char c = [38; 113; 117; 111; 116; 59]%N) \/
  (c = 39%N /\ escape_char c = [38; 35; 51; 57; 59]%N).
Proof.
  intros H. apply html_special_cases in H as [->|[->|[->|[->| ->]]]];
    vm_compute; auto 10.
Qed.

Lemma escape_char_head c :
  match escape_char c with
  | [] => False
  | x :: _ => if html_special c then x = 38%N else x = c
  end.
Proof.
  destruct (html_special c) eqn:E.
  - apply escape_char_special in E as [[_ ->]|[[_ ->]|[[_ ->]|[[_ ->]|[_ ->]]]]]; reflexivity.
  - rewrite escape_char_plain by exact E. reflexivity.
Qed.

(** X1.  The text [escapeHtml] returns holds none of the characters
    [<], [>], double quote and single quote, whatever string it is given:
    each of them has been replaced by its entity. *)
Theorem escapeHtml_no_markup (s : jsstr) :
  Forall (fun c => c <> 60%N /\ c <> 62%N /\ c <> 34%N /\ c <> 39%N) (escapeHtml s).
Proof.
  unfold escapeHtml. induction s as [|c r IH]; [constructor|].
  cbn [map concat]. apply Forall_app. split; [|exact IH].
  destruct (html_special c) eqn:E.
  - apply escape_char_special in E as [[_ ->]|[[_ ->]|[[_ ->]|[[_ ->]|[_ ->]]]]];
      repeat constructor; discriminate.
  - rewrite escape_char_plain by exact E. constructor; [|constructor].
    repeat split; intros ->; discriminate E.
Qed.

Lemma escapeHtml_cons c r : escapeHtml (c :: r) = escape_char c ++ escapeHtml r.
Proof. reflexivity. Qed.

(** X2.  [escapeHtml] loses nothing: two strings with the same escaped
    text are the same string. *)
Theorem escapeHtml_injective (s1 s2 : jsstr) :
  escapeHtml s1 = escapeHtml s2 -> s1 = s2.
Proof.
  revert s2. induction s1 as [|c1 r1 IH]; intros [|c2 r2].
  - reflexivity.
  - rewrite escapeHtml_cons. pose proof (escape_char_head c2) as H.
    destruct (escape_char c2); [contradiction|discriminate].
  - rewrite escapeHtml_cons. pose proof (escape_char_head c1) as H.
    destruct (escape_char c1); [contradiction|discriminate].
  - rewrite !escapeHtml_cons.
    destruct (html_special c1) eqn:E1, (html_special c2) eqn:E2.
    + apply escape_char_special in E1 as [[-> ->]|[[-> ->]|[[-> ->]|[[-> ->]|[-> ->]]]]];
      apply escape_char_special in E2 as [[-> ->]|[[-> ->]|[[-> ->]|[[-> ->]|[-> ->]]]]];
      cbn [app]; intros H; try discriminate H;
      f_equal; apply IH; congruence.
    + rewrite (escape_char_plain c2) by exact E2.
      apply escape_char_special in E1 as [[_ ->]|[[_ ->]|[[_ ->]|[[_ ->]|[_ ->]]]]];
        cbn [app]; intros [= <- _]; discriminate E2.
    + rewrite (escape_char_plain c1) by exact E1.
      apply escape_char_special in E2 as [[_ ->]|[[_ ->]|[[_ ->]|[[_ ->]|[_ ->]]]]];
        cbn [app]; intros [= -> _]; discriminate E1.
    + rewrite !escape_char_plain by assumption. cbn [app].
      intros [= -> H]. f_equal. apply IH. exact H.
Qed.

Lemma escapeHtml_injective_witness :
  escapeHtml (js "a < b & c") = escapeHtml [97; 32; 60; 32; 98; 32; 38; 32; 99]%N /\
  js "a < b & c" = [97; 32; 60; 32; 98; 32; 38; 32; 99]%N.
Proof.
  split; [reflexivity|].
  apply (escapeHtml_injective (js "a < b & c") [97; 32; 60; 32; 98; 32; 38; 32; 99]%N).
  reflexivity.
Defined.

Lemma asBubbleHtml_app a b : asBubbleHtml (a ++ b) = asBubbleHtml a ++ asBubbleHtml b.
Proof.
  unfold asBubbleHtml, escapeHtml.
  rewrite map_app, concat_app, map_app, concat_app. reflexivity.
Qed.

(** X3.  [asBubbleHtml] works code unit by code unit: the HTML of a
    concatenation is the concatenation of the HTMLs (so the bubble of a
    streamed answer is the HTML of its deltas, joined), a line feed between
    two texts becomes [<br>] between their HTMLs, and the result holds no line
    feed. *)
Theorem asBubbleHtml_stream (a b : jsstr) :
  asBubbleHtml (a ++ b) = asBubbleHtml a ++ asBubbleHtml b /\
  asBubbleHtml (a ++ LF :: b) = asBubbleHtml a ++ js "<br>" ++ asBubbleHtml b /\
  Forall (fun c => c <> LF) (asBubbleHtml a).
Proof.
  split; [apply asBubbleHtml_app|]. split.
  - rewrite asBubbleHtml_app. reflexivity.
  - unfold asBubbleHtml. induction (escapeHtml a) as [|c r IH]; [constructor|].
    cbn [map concat]. apply Forall_app. split; [|exact IH].
    destruct (N.eqb_spec c LF) as [->|Hc].
    + vm_compute. repeat constructor; discriminate.
    + constructor; [exact Hc|constructor].
Qed.

(** ** The normal form of [normalizeText] *)

Lemma drop_ws_length l : (length (drop_ws l) <= length l)%nat.
Proof.
  destruct (drop_ws_suffix l) as [a Ha].
  rewrite Ha at 2. rewrite length_app. lia.
Qed.

Lemma trim_length l : (length (trim l) <= length l)%nat.
Proof.
  destruct (trim_decomp l) as (a & z & H).
  rewrite H at 2. rewrite !length_app. lia.
Qed.

Lemma trimmed_trim l : trimmed (trim l).
Proof.
  split.
  - pose proof (trim_idem l) as Hi.
    destruct (trim l) as [|c r] eqn:E; [exact I|].
    destruct (is_ws c) eqn:Ec; [|reflexivity]. exfalso.
    assert (Hlen : (length (trim (c :: r)) <= length r)%nat).
    { unfold trim at 1. rewrite length_rev.
      etransitivity; [apply drop_ws_length|]. rewrite length_rev.
      cbn [drop_ws]. rewrite Ec. apply drop_ws_length. }
    rewrite Hi in Hlen. simpl in Hlen. lia.
  - unfold trim. rewrite rev_involutive. apply drop_ws_head.
Qed.

Lemma blank_nf_no_tab b u : blank_nf b u = true -> Forall (fun c => c <> TAB) u.
Proof.
  revert b. induction u as [|c r IH]; intros b; [constructor|].
  cbn [blank_nf]. destruct (is_sptab c) eqn:E.
  - intros H. apply andb_prop in H as [H1 H2]. apply andb_prop in H1 as [_ H1].
    constructor; [|eauto]. apply N.eqb_eq in H1. rewrite H1. discriminate.
  - intros H. constructor; [|eauto]. intros ->. discriminate E.
Qed.

Lemma blank_nf_no_double_space u : blank_nf false u = true -> ~ occurs_in [SP; SP] u.
Proof.
  intros H (pre & post & ->). apply blank_nf_app_r in H. discriminate H.
Qed.

Lemma nl_nf_no_triple_newline u : nl_nf 0 u = true -> ~ occurs_in [LF; LF; LF] u.
Proof.
  intros H (pre & post & ->). apply nl_nf_app_r in H. discriminate H.
Qed.

Lemma normalizeText_blank_nf t : blank_nf false (normalizeText t) = true.
Proof.
  unfold normalizeText. apply blank_nf_trim.
  apply blank_nf_collapse_newlines; [left; reflexivity|].
  apply blank_nf_replace_crlf. apply collapse_blanks_nf.
Qed.

Lemma normalizeText_nl_nf t : nl_nf 0 (normalizeText t) = true.
Proof. unfold normalizeText. apply nl_nf_trim. apply collapse_newlines_nf. Qed.

(** X4.  Whatever the input, the text [normalizeText] returns holds
    no NUL and no tab, no two spaces in a row and no three line feeds in a row,
    and neither starts nor ends with white space. *)
Theorem normalizeText_normal_form (t : jsstr) :
  let u := normalizeText t in
  Forall (fun c => c <> NUL /\ c <> TAB) u /\
  ~ occurs_in [SP; SP] u /\
  ~ occurs_in [LF; LF; LF] u /\
  trimmed u.
Proof.
  intros u. split; [|split; [|split]].
  - apply Forall_and. split.
    + unfold u, normalizeText. apply Forall_trim, Forall_collapse_newlines.
      apply Forall_replace_crlf; [discriminate|].
      apply Forall_collapse_blanks; [discriminate|]. apply replace_nul_no_nul.
    + apply (blank_nf_no_tab false). apply normalizeText_blank_nf.
  - apply blank_nf_no_double_space, normalizeText_blank_nf.
  - apply nl_nf_no_triple_newline, normalizeText_nl_nf.
  - apply trimmed_trim.
Qed.

(** ** The chunks of the default parameters *)

Lemma chunkText_default_fuel text :
  chunkText_fuel (S (length (normalizeText text))) text CHUNK_CHARS CHUNK_OVERLAP
  = Some (chunkText text).
Proof.
  unfold chunkText.
  destruct (chunkText_fuel (S (length (normalizeText text))) text CHUNK_CHARS CHUNK_OVERLAP)
    as [r|] eqn:E; [reflexivity|]. exfalso. revert E.
  unfold chunkText_fuel. destruct (normalizeText text) as [|c t] eqn:Et; [discriminate|].
  destruct (chunkLoop_terminates (c :: t) CHUNK_CHARS CHUNK_OVERLAP
              (S (length (c :: t))) 0 []) as [r Hr]; [reflexivity|lia|lia|].
  rewrite Hr. discriminate.
Qed.

Lemma chunkText_emitted text :
  let t := normalizeText text in
  chunkText text =
  emitted t (spec_windows (S (length t)) (Z.of_nat (length t)) CHUNK_CHARS CHUNK_OVERLAP 0).
Proof.
  intros t. pose proof (chunkText_default_fuel text) as H. fold t in H.
  unfold chunkText_fuel in H. fold t in H.
  destruct t as [|c r] eqn:Et.
  - injection H as <-. reflexivity.
  - apply chunkLoop_spec in H. exact H.
Qed.

Lemma slice_window (t : jsstr) (s e : Z) :
  0 <= s <= e -> e <= Z.of_nat (length t) ->
  slice t s e = take (Z.to_nat (e - s)) (drop (Z.to_nat s) t).
Proof.
  intros Hs He. unfold slice.
  destruct (Z.ltb_spec s 0); [lia|]. destruct (Z.ltb_spec e 0); [lia|].
  rewrite !Z.min_l by lia. reflexivity.
Qed.

Lemma occurs_in_trans a b c : occurs_in a b -> occurs_in b c -> occurs_in a c.
Proof.
  intros (p1 & q1 & ->) (p2 & q2 & ->).
  exists (p2 ++ p1), (q1 ++ q2). rewrite <- !app_assoc. reflexivity.
Qed.

Lemma occurs_in_length a b : occurs_in a b -> (length a <= length b)%nat.
Proof. intros (p & q & ->). rewrite !length_app. lia. Qed.

(** Every chunk is a window of the normalized text, trimmed. *)
Lemma chunkText_pieces text p :
  p ∈ chunkText text ->
  (30 <= length p)%nat /\ (length p <= 1200)%nat /\ trimmed p /\
  occurs_in p (normalizeText text).
Proof.
  rewrite chunkText_emitted. set (t := normalizeText text).
  unfold emitted. rewrite list_elem_of_filter, list_elem_of_fmap.
  intros [Hlen ([s e] & -> & Hw)]. cbn [fst snd] in *.
  apply list_elem_of_lookup in Hw as [k Hk].
  apply default_windows_lookup in Hk as (_ & Hs & He); [|lia].
  unfold CHUNK_CHARS in He.
  assert (Hsl : slice t s e = take (Z.to_nat (e - s)) (drop (Z.to_nat s) t)).
  { apply slice_window; lia. }
  split; [exact Hlen|]. split; [|split].
  - etransitivity; [apply trim_length|]. rewrite Hsl, length_take. lia.
  - apply trimmed_trim.
  - apply occurs_in_trans with (slice t s e).
    + destruct (trim_decomp (slice t s e)) as (a & z & H). exists a, z. exact H.
    + exists (take (Z.to_nat s) t), (drop (Z.to_nat (e - s)) (drop (Z.to_nat s) t)).
      rewrite Hsl, take_drop, take_drop. reflexivity.
Qed.

(** X5.  With the default size and overlap every chunk
    [chunkText] returns has between 30 and 1200 code units, neither starts
    nor ends with white space, and occurs in the normalized text as a
    substring. *)
Theorem chunkText_chunks_bounded (text : jsstr) :
  Forall (fun p => (30 <= length p <= 1200)%nat /\ trimmed p /\
                   occurs_in p (normalizeText text))
         (chunkText text).
Proof.
  apply Forall_forall. intros p Hp.
  apply chunkText_pieces in Hp as (H1 & H2 & H3 & H4). auto.
Qed.

Lemma chunkText_nil_of_short text :
  (length (normalizeText text) < 30)%nat -> chunkText text = [].
Proof.
  intros Hlen. destruct (chunkText text) as [|p r] eqn:E; [reflexivity|]. exfalso.
  assert (Hp : p ∈ chunkText text) by (rewrite E; left).
  apply chunkText_pieces in Hp as (H1 & _ & _ & H4).
  apply occurs_in_length in H4. lia.
Qed.

(** X6.  A text whose normalized form has fewer than 30 code units
    gives no chunk at all. *)
Theorem chunkText_short_text (text : jsstr) :
  (length (normalizeText text) < 30)%nat -> chunkText text = [].
Proof. apply chunkText_nil_of_short. Qed.

Lemma chunkText_short_text_witness :
  (length (normalizeText (js "  too short to index  ")) < 30)%nat /\
  chunkText (js "  too short to index  ") = [].
Proof.
  split; [vm_compute; lia|].
  apply (chunkText_short_text (js "  too short to index  ")). vm_compute. lia.
Defined.

(** X7.  The number of chunks is at most the length of the normalized
    text divided by 1000, rounded up: each window starts 1000 code units after
    the one before. *)
Theorem chunkText_count (text : jsstr) :
  Z.of_nat (length (chunkText text))
  <= (Z.of_nat (length (normalizeText text)) + 999) / 1000.
Proof.
  rewrite chunkText_emitted. set (t := normalizeText text).
  set (ws := spec_windows _ _ _ _ _).
  assert (Hws : Z.of_nat (length ws) <= (Z.of_nat (length t) + 999) / 1000).
  { destruct (length ws) as [|k] eqn:Ek.
    - apply Z.div_pos; lia.
    - destruct (lookup_lt_is_Some_2 ws k) as [[s e] Hk]; [lia|].
      apply default_windows_lookup in Hk as (Hs & Hr & _); [|lia].
      apply Z.div_le_lower_bound; lia. }
  etransitivity; [|exact Hws]. apply inj_le.
  unfold emitted. etransitivity; [apply length_filter|]. rewrite length_map. lia.
Qed.

(** ** Numbers: progress, dot product, decimal labels *)

Lemma clamp01_range x : (0 <= clamp01 x <= 1)%Q.
Proof.
  unfold clamp01. split.
  - apply Q.le_max_l.
  - apply Q.max_lub; [discriminate|apply Q.le_min_l].
Qed.

Lemma clamp01_id x : (0 <= x <= 1)%Q -> (clamp01 x == x)%Q.
Proof.
  intros [H0 H1]. unfold clamp01.
  rewrite (Q.min_r 1 x) by exact H1. apply Q.max_r. exact H0.
Qed.

(** X8.  [setProgress] always leaves a value between 0 and 1 in the
    progress bar: the argument itself when it lies in that range, 0 for an
    argument below it and 1 for an argument above it. *)
Theorem setProgress_clamped (v : Q) (w : World) :
  let p := progress (ui (snd (setProgress v w))) in
  (0 <= p <= 1)%Q /\
  ((0 <= v <= 1)%Q -> (p == v)%Q) /\
  ((v <= 0)%Q -> (p == 0)%Q) /\
  ((1 <= v)%Q -> (p == 1)%Q).
Proof.
  cbn. split; [apply clamp01_range|]. split; [apply clamp01_id|]. split.
  - intros H. unfold clamp01. apply Q.max_l.
    apply Qle_trans with v; [apply Q.le_min_r|exact H].
  - intros H. unfold clamp01. rewrite (Q.min_l 1 v) by exact H.
    apply Q.max_r. discriminate.
Qed.

(** The sums of [dot a b] and of [dot b a] run over the same places in
    the same order, from any starting value. *)
Lemma dot_from (a : vec) : forall (b : vec) (s : float),
  fold_left (fun s xy => (s + fst xy * snd xy)%float) (zip a b) s
  = fold_left (fun s xy => (s + fst xy * snd xy)%float) (zip b a) s.
Proof.
  induction a as [|x a IH]; intros [|y b] s; try reflexivity.
  cbn [zip_with fold_left fst snd]. rewrite (float_mul_comm x y). apply IH.
Qed.

(** X9.  [dot] is symmetric: exchanging the query and the chunk vector
    gives the same score, also when their lengths differ. *)
Theorem dot_symmetric (a b : vec) : dot a b = dot b a.
Proof. unfold dot. apply dot_from. Qed.

(** ** Tensor rows *)

Lemma tensor_rows_eq n d (xs : list float) :
  tensor_rows (mkTensor (n, d) xs) = map (fun i => take d (drop (i * d) xs)) (seq 0 n).
Proof. reflexivity. Qed.

Lemma concat_rows d : forall n (xs : list float),
  length xs = (n * d)%nat ->
  concat (map (fun i => take d (drop (i * d) xs)) (seq 0 n)) = xs.
Proof.
  induction n as [|n IH]; intros xs Hlen.
  - destruct xs; [reflexivity|discriminate].
  - rewrite seq_S, map_app, concat_app. cbn [map concat Nat.add].
    rewrite app_nil_r.
    transitivity (take (n * d) xs ++ drop (n * d) xs); [|apply take_drop]. f_equal.
    + etransitivity; [|apply (IH (take (n * d) xs)); rewrite length_take; lia].
      f_equal. apply map_ext_in. intros i Hi. apply in_seq in Hi.
      rewrite skipn_firstn_comm, take_take. f_equal. nia.
    + apply take_ge. rewrite length_drop. lia.
Qed.

(** X10.  When the data of a tensor of dimensions [n, d] has
    [n * d] entries, the rows [embedTexts] cuts out of it are [n] rows of [d]
    entries each, and joined in order they are the data again. *)
Theorem tensor_rows_shape (n d : nat) (xs : list float) :
  length xs = (n * d)%nat ->
  let rows := tensor_rows (mkTensor (n, d) xs) in
  length rows = n /\ Forall (fun r => length r = d) rows /\ concat rows = xs.
Proof.
  intros Hlen rows. unfold rows. rewrite tensor_rows_eq.
  split; [rewrite length_map, length_seq; reflexivity|]. split.
  - apply Forall_forall. intros r Hr. apply list_elem_of_fmap in Hr as (i & -> & Hi).
    apply elem_of_seq in Hi. rewrite length_take, length_drop. nia.
  - apply concat_rows. exact Hlen.
Qed.

Lemma tensor_rows_shape_witness :
  length [1; 0; 0; 1; 1; 1]%float = (3 * 2)%nat /\
  let rows := tensor_rows (mkTensor (3%nat, 2%nat) [1; 0; 0; 1; 1; 1]%float) in
  length rows = 3%nat /\ Forall (fun r => length r = 2%nat) rows /\
  concat rows = [1; 0; 0; 1; 1; 1]%float.
Proof.
  split; [reflexivity|].
  apply (tensor_rows_shape 3 2 [1; 0; 0; 1; 1; 1]%float). reflexivity.
Defined.

(** The number of rows is the [n] of [dims], whatever [data] holds. *)
Lemma tensor_rows_length t : length (tensor_rows t) = fst (dims t).
Proof.
  destruct t as [[n d] xs]. rewrite tensor_rows_eq, length_map, length_seq. reflexivity.
Qed.

(** ** Decimal labels and citations *)

Lemma decimal_value_snoc ds c :
  decimal_value (ds ++ [c]) = (10 * decimal_value ds + (c - 48))%N.
Proof. unfold decimal_value. rewrite fold_left_app. reflexivity. Qed.

(** The digits [dec_aux] writes in front of [acc], given enough fuel. *)
Lemma dec_aux_spec f : forall n acc,
  (n < 2 ^ N.of_nat (S f))%N ->
  exists ds, dec_aux (S f) n acc = ds ++ acc /\ digits ds /\ decimal_value ds = n.
Proof.
  induction f as [|f IH]; intros n acc Hn.
  - exists [(48 + n mod 10)%N].
    assert (n = 0 \/ n = 1)%N as [-> | ->] by (change (n < 2)%N in Hn; lia);
      (split; [reflexivity|]); (split; [|reflexivity]);
      (split; [discriminate|repeat constructor]).
  - cbn [dec_aux].
    assert (Hdiv : (n / 10 < 2 ^ N.of_nat (S f))%N).
    { rewrite Nat2N.inj_succ, N.pow_succ_r' in Hn.
      apply N.Div0.div_lt_upper_bound.
      generalize dependent (2 ^ N.of_nat (S f))%N. intros; lia. }
    clear Hn.
    pose proof (N.div_mod n 10 ltac:(lia)) as E.
    assert (Hlt : (n mod 10 < 10)%N) by (apply N.mod_lt; lia).
    revert Hdiv E Hlt. generalize (n / 10)%N (n mod 10)%N. intros q m Hdiv E Hlt.
    assert (Hm : is_digit (48 + m) = true).
    { unfold is_digit. apply andb_true_intro. split; apply N.leb_le; lia. }
    destruct (N.eqb_spec q 0) as [Hz|Hz].
    + exists [(48 + m)%N]. split; [reflexivity|].
      split; [split; [discriminate|]|].
      * constructor; [exact Hm|constructor].
      * unfold decimal_value. cbn [fold_left]. lia.
    + destruct (IH q ((48 + m)%N :: acc) Hdiv) as (ds & E' & [Hne Hd] & Hv).
      change (dec_aux (S f) q ((48 + m)%N :: acc) = ds ++ (48 + m)%N :: acc) in E'.
      exists (ds ++ [(48 + m)%N]).
      split; [rewrite <- app_assoc; exact E'|]. split; [split|].
      * destruct ds; discriminate.
      * apply Forall_app. split; [exact Hd|]. constructor; [exact Hm|constructor].
      * rewrite decimal_value_snoc, Hv. lia.
Qed.

(** [String(n)] is a run of digits whose value is [n]. *)
Lemma dec_spec n : digits (dec n) /\ decimal_value (dec n) = n.
Proof.
  unfold dec.
  destruct (dec_aux_spec (N.to_nat (N.log2 n)) n []) as (ds & E & Hd & Hv).
  - rewrite Nat2N.inj_succ, N2Nat.id.
    destruct n as [|p]; [reflexivity|]. apply N.log2_spec. lia.
  - rewrite E, app_nil_r. auto.
Qed.

Lemma dec_inj n m : dec n = dec m -> n = m.
Proof.
  intros H. rewrite <- (proj2 (dec_spec n)), <- (proj2 (dec_spec m)), H. reflexivity.
Qed.

(** X11.  The label [buildContext] writes for a block is read back by
    [parseUsedCitations]: for every number [n] below 2^53 an answer that
    holds the text "[C" + String(n) + "]" anywhere marks [n] as used. *)
Theorem label_is_cited (n : N) (pre post : jsstr) :
  (n < 2 ^ 53)%N ->
  Fin n ∈ parseUsedCitations (pre ++ js "[C" ++ dec n ++ js "]" ++ post).
Proof.
  intros Hn. unfold parseUsedCitations.
  apply scan_citations_spec; [constructor|]. right.
  destruct (dec_spec n) as [Hd Hv].
  exists (dec n). split; [exact Hd|]. split.
  - exists pre, post. unfold citation_text. rewrite <- !app_assoc. reflexivity.
  - unfold Number_of_digits, round_double. rewrite Hv.
    destruct (N.ltb_spec n (2 ^ 53)); [reflexivity|lia].
Qed.

Lemma label_is_cited_witness :
  (12 < 2 ^ 53)%N /\
  Fin 12 ∈ parseUsedCitations (js "See " ++ js "[C" ++ dec 12 ++ js "]" ++ js " and [C3].").
Proof.
  split; [reflexivity|].
  apply (label_is_cited 12 (js "See ") (js " and [C3].")). reflexivity.
Defined.


(** ** Commands: frames and outcomes *)

Lemma wp_bind {A B} (m : M A) (k : A -> M B) Q w :
  wp m (fun r w' => match r with
                    | Ok a => wp (k a) Q w'
                    | Throw e => Q (Throw e) w'
                    end) w ->
  wp (m ≫= k) Q w.
Proof.
  unfold wp, mbind, M_bind, bind. destruct (m w) as [[a|e] w']; cbn; auto.
Qed.

Lemma wp_conseq {A} (m : M A) (Q Q' : Result A -> World -> Prop) w :
  wp m Q w -> (forall r w', Q r w' -> Q' r w') -> wp m Q' w.
Proof. unfold wp. auto. Qed.

Section Preserves.
Variable R : World -> World -> Prop.
Hypothesis R_refl : forall w, R w w.
Hypothesis R_trans : forall a b c, R a b -> R b c -> R a c.

Lemma preserves_bind {A B} (m : M A) (k : A -> M B) :
  preserves R m -> (forall a, preserves R (k a)) -> preserves R (m ≫= k).
Proof.
  intros Hm Hk w. unfold mbind, M_bind, bind.
  specialize (Hm w). destruct (m w) as [[a|e] w']; cbn in *; [|exact Hm].
  eapply R_trans; [exact Hm|apply Hk].
Qed.

Lemma preserves_ret {A} (a : A) : preserves R (mret a).
Proof. intros w. apply R_refl. Qed.

Lemma preserves_throw {A} e : preserves R (@throw A e).
Proof. intros w. apply R_refl. Qed.

Lemma preserves_lift {A} (r : Result A) : preserves R (lift r).
Proof. intros w. apply R_refl. Qed.

Lemma preserves_gets {A} (f : World -> A) : preserves R (gets f).
Proof. intros w. apply R_refl. Qed.
End Preserves.

Lemma corpus_kept_refl w : corpus_kept w w.
Proof. repeat split. Qed.

Lemma corpus_kept_trans a b c : corpus_kept a b -> corpus_kept b c -> corpus_kept a c.
Proof.
  intros (H1 & H2 & H3 & H4 & H5) (G1 & G2 & G3 & G4 & G5).
  repeat split; congruence.
Qed.

Lemma transcript_kept_refl w : transcript_kept w w.
Proof. split; reflexivity. Qed.

Lemma transcript_kept_trans a b c :
  transcript_kept a b -> transcript_kept b c -> transcript_kept a c.
Proof. intros [H1 H2] [G1 G2]. split; congruence. Qed.

Lemma corpus_kept_ui f : preserves corpus_kept (modify (with_ui f)).
Proof. intros w. repeat split. Qed.

Lemma corpus_kept_hf h : preserves corpus_kept (modify (with_st (set_hf h))).
Proof. intros w. repeat split. Qed.

Lemma corpus_kept_embedder e : preserves corpus_kept (modify (with_st (set_embedder e))).
Proof. intros w. repeat split. Qed.

Lemma corpus_kept_alert msg : preserves corpus_kept (alert msg).
Proof. intros w. repeat split. Qed.

Lemma corpus_kept_refreshStats : preserves corpus_kept refreshStats.
Proof. intros w. repeat split. Qed.

Lemma corpus_kept_addMessage role text : preserves corpus_kept (addMessage role text).
Proof. intros w. repeat split. Qed.

Create HintDb frame discriminated.
#[local] Hint Resolve corpus_kept_refl corpus_kept_trans transcript_kept_refl
  transcript_kept_trans : frame.
#[local] Hint Resolve preserves_ret preserves_throw preserves_lift preserves_gets : frame.
#[local] Hint Resolve corpus_kept_ui corpus_kept_hf corpus_kept_embedder corpus_kept_alert
  corpus_kept_refreshStats corpus_kept_addMessage : frame.
#[local] Hint Extern 1 (preserves _ (setStatus _)) => unfold setStatus : frame.
#[local] Hint Extern 1 (preserves _ (setProgress _)) => unfold setProgress : frame.
#[local] Hint Extern 1 (preserves _ (set_bubble _ _)) => unfold set_bubble : frame.
#[local] Hint Extern 1 (preserves _ (set_meta _ _)) => unfold set_meta : frame.

(** One step through the text of a command. *)
Ltac frame_step :=
  lazymatch goal with
  | |- preserves _ (mbind _ _) =>
    apply preserves_bind; [solve [eauto with frame]| |intros ?]
  | |- preserves _ (match ?x with _ => _ end) => destruct x
  | |- preserves _ _ => solve [eauto with frame]
  end.

Ltac frame := cbv zeta; repeat frame_step.

Lemma transcript_kept_status s : preserves transcript_kept (setStatus s).
Proof. intros w. split; reflexivity. Qed.

Lemma transcript_kept_progress v : preserves transcript_kept (setProgress v).
Proof. intros w. split; reflexivity. Qed.

Lemma transcript_kept_embedStatus s :
  preserves transcript_kept (modify (with_ui (set_embedStatus s))).
Proof. intros w. split; reflexivity. Qed.

Lemma transcript_kept_st f : preserves transcript_kept (modify (with_st f)).
Proof. intros w. split; reflexivity. Qed.

Lemma transcript_kept_refreshStats : preserves transcript_kept refreshStats.
Proof. intros w. split; reflexivity. Qed.

#[local] Hint Resolve transcript_kept_status transcript_kept_progress
  transcript_kept_embedStatus transcript_kept_st transcript_kept_refreshStats : frame.

Lemma hands_on_refl I w : hands_on I w w.
Proof. intros H. exact H. Qed.

Lemma hands_on_trans I a b c : hands_on I a b -> hands_on I b c -> hands_on I a c.
Proof. unfold hands_on. auto. Qed.

#[local] Hint Resolve hands_on_refl hands_on_trans : frame.

Lemma wp_preserves {A} R (m : M A) w : preserves R m -> wp m (fun _ w' => R w w') w.
Proof. intros H. apply H. Qed.

Section CommandFacts.
Variable env : Env.

Lemma corpus_kept_ensureEmbedder : preserves corpus_kept (ensureEmbedder env).
Proof. unfold ensureEmbedder. frame. Qed.

Lemma transcript_kept_ensureEmbedder : preserves transcript_kept (ensureEmbedder env).
Proof. unfold ensureEmbedder. frame. Qed.

#[local] Hint Resolve corpus_kept_ensureEmbedder transcript_kept_ensureEmbedder : frame.

Lemma corpus_kept_embedTexts texts : preserves corpus_kept (embedTexts env texts).
Proof. unfold embedTexts. frame. Qed.

Lemma transcript_kept_embedTexts texts : preserves transcript_kept (embedTexts env texts).
Proof. unfold embedTexts. frame. Qed.

Lemma corpus_kept_consume_deltas el ds failure : forall answer,
  preserves corpus_kept (consume_deltas el ds failure answer).
Proof.
  induction ds as [|d r IH]; intros answer; cbn [consume_deltas];
    [destruct failure; frame|].
  destruct d as [[|c cs]|]; [apply IH| |apply IH].
  apply preserves_bind; [eauto with frame|frame|intros _; apply IH].
Qed.

#[local] Hint Resolve corpus_kept_embedTexts transcript_kept_embedTexts
  corpus_kept_consume_deltas : frame.

(** X12.  [ask] never changes the corpus: on every path, failures
    included, the generator, the documents, the chunks with their embeddings,
    the store and the downloads are what they were before the call. *)
Theorem ask_keeps_corpus (questionText : jsstr) (strict showContext : bool) (w : World) :
  corpus_kept w (snd (ask env questionText strict showContext w)).
Proof.
  revert w. change (preserves corpus_kept (ask env questionText strict showContext)).
  unfold ask. frame.
Qed.

(** X13.  With a non-blank question and at least one chunk, but no
    generator loaded, [ask] only shows the alert that asks to load the local
    model: it returns, and nothing else of the page changes (the embedder is
    not loaded and no message is added). *)
Theorem ask_without_engine (questionText : jsstr) (strict showContext : bool) (w : World) :
  trim questionText <> [] -> chunks (st w) <> [] -> engine (st w) = None ->
  ask env questionText strict showContext w = alert MSG_NO_ENGINE w.
Proof.
  intros Hq Hc He. unfold ask.
  destruct (trim questionText) as [|c r]; [contradiction|].
  unfold mbind, M_bind, bind, gets. cbn [fst snd].
  destruct (chunks (st w)) as [|c0 cs]; [contradiction|].
  cbn [length Nat.eqb]. rewrite He. reflexivity.
Qed.

End CommandFacts.

Lemma ask_without_engine_witness :
  trim (js "What is A?") <> [] /\ chunks (st corpus_world) <> [] /\
  engine (st corpus_world) = None /\
  ask demo_env (js "What is A?") true true corpus_world = alert MSG_NO_ENGINE corpus_world.
Proof.
  split; [discriminate|]. split; [discriminate|]. split; [reflexivity|].
  apply (ask_without_engine demo_env (js "What is A?") true true corpus_world).
  - discriminate.
  - discriminate.
  - reflexivity.
Defined.

(** ** The transcript during [ask] *)

Lemma hands_on_transcript_kept {A} I (m : M A) :
  (forall w w', chat (ui w') = chat (ui w) -> I w -> I w') ->
  preserves transcript_kept m -> preserves (hands_on I) m.
Proof. intros HI Hm w Hw. eapply HI; [apply Hm|exact Hw]. Qed.

Lemma answering_chat base q w w' :
  chat (ui w') = chat (ui w) -> answering base q w -> answering base q w'.
Proof. unfold answering. intros ->. auto. Qed.

Lemma alter_last_two {A} (f : A -> A) (base : list A) x y :
  alter f (S (length base)) (base ++ [x; y]) = base ++ [x; f y].
Proof.
  induction base as [|a base IH]; [reflexivity|].
  change (a :: alter f (S (length base)) (base ++ [x; y]) = a :: (base ++ [x; f y])).
  rewrite IH. reflexivity.
Qed.

Lemma answering_set_bubble base q html :
  preserves (hands_on (answering base q)) (set_bubble (S (length base)) html).
Proof.
  intros w (b & m & H). unfold answering. cbn. rewrite H, alter_last_two.
  eexists _, _. reflexivity.
Qed.

Lemma answering_set_meta base q nodes :
  preserves (hands_on (answering base q)) (set_meta (S (length base)) nodes).
Proof.
  intros w (b & m & H). unfold answering. cbn. rewrite H, alter_last_two.
  eexists _, _. reflexivity.
Qed.

#[local] Hint Resolve answering_set_bubble answering_set_meta : frame.
#[local] Hint Extern 2 (preserves (hands_on (answering _ _)) _) =>
  apply hands_on_transcript_kept; [apply answering_chat|] : frame.

Lemma answering_consume_deltas base q ds failure : forall answer,
  preserves (hands_on (answering base q))
            (consume_deltas (S (length base)) ds failure answer).
Proof.
  induction ds as [|d r IH]; intros answer; cbn [consume_deltas];
    [destruct failure; frame|].
  destruct d as [[|c cs]|]; [apply IH| |apply IH].
  apply preserves_bind; [eauto with frame|frame|intros _; apply IH].
Qed.

#[local] Hint Resolve answering_consume_deltas : frame.

Section Transcript.
Variable env : Env.

#[local] Hint Resolve transcript_kept_ensureEmbedder transcript_kept_embedTexts : frame.

(** X14.  [ask] leaves the transcript as it was or adds exactly two
    messages at its end: the question as typed (escaped) under the role
    "user", and one message of the role "assistant".  Messages that were
    already there are never altered, on any path. *)
Theorem ask_transcript (questionText : jsstr) (strict showContext : bool) (w : World) :
  let w' := snd (ask env questionText strict showContext w) in
  chat (ui w') = chat (ui w) \/
  exists b m,
    chat (ui w') = chat (ui w) ++ [mkMessage (js "user") (asBubbleHtml questionText) [];
                                   mkMessage (js "assistant") b m].
Proof.
  cbv zeta.
  change (wp (ask env questionText strict showContext)
            (fun _ w' => chat (ui w') = chat (ui w) \/ answering (chat (ui w)) questionText w') w).
  unfold ask. destruct (trim questionText) as [|c0 r0]; [left; reflexivity|].
  apply wp_bind. unfold wp at 1. cbn [gets fst snd].
  destruct (length (chunks (st w)) =? 0)%nat; [left; reflexivity|].
  apply wp_bind. unfold wp at 1. cbn [gets fst snd].
  destruct (engine (st w)) as [create|]; [|left; reflexivity].
  apply wp_bind.
  eapply wp_conseq; [apply (wp_preserves transcript_kept), transcript_kept_ensureEmbedder|].
  intros [[]|e] w1 [Hchat _]; [|left; exact Hchat].
  apply wp_bind. unfold wp at 1. cbn [addMessage fst snd].
  apply wp_bind. unfold wp at 1. cbn [addMessage fst snd ui with_ui chat set_chat].
  rewrite length_app, Hchat. cbn [length]. rewrite Nat.add_1_r.
  eapply wp_conseq.
  - apply (wp_preserves (hands_on (answering (chat (ui w)) questionText))). frame.
  - intros r w' Hw'. right. apply Hw'.
    exists (asBubbleHtml (js "생각 중…" ++ [LF] ++ js "(근거 검색 + 답변 생성)")), [].
    cbn [chat ui with_ui set_chat]. rewrite <- app_assoc. reflexivity.
Qed.

End Transcript.

(** ** Loading the embedder *)

(** Run the first command of a sequence. *)
Ltac wp_focus :=
  lazymatch goal with
  | |- wp (mbind _ _) _ _ => apply wp_bind; wp_focus
  | |- _ => idtac
  end.

Ltac wp_run :=
  wp_focus; unfold wp at 1;
  try unfold setStatus; try unfold setProgress; try unfold alert;
  try unfold set_bubble; try unfold set_meta;
  cbn [gets modify lift addMessage mret M_ret ret throw fst snd].

Section EmbedderFacts.
Variable env : Env.

(** X15.  [ensureEmbedder] returns exactly when an embedder is
    loaded afterwards.  When it throws, none was loaded before, none is loaded
    after, and the progress bar stays at 0.02; when an embedder is loaded
    already the call changes nothing at all. *)
Theorem ensureEmbedder_outcome (w : World) :
  let r := ensureEmbedder env w in
  match fst r with
  | Ok _ => embedder (st (snd r)) <> None
  | Throw _ => embedder (st w) = None /\ embedder (st (snd r)) = None /\
               progress (ui (snd r)) = clamp01 (2 # 100)
  end /\
  (embedder (st w) <> None -> r = (Ok tt, w)).
Proof.
  cbv zeta. split.
  - change (wp (ensureEmbedder env)
              (fun r w' => match r with
                           | Ok _ => embedder (st w') <> None
                           | Throw _ => embedder (st w) = None /\ embedder (st w') = None /\
                                        progress (ui w') = clamp01 (2 # 100)
                           end) w).
    unfold ensureEmbedder. wp_run.
    destruct (embedder (st w)) as [p0|] eqn:E; [unfold wp; cbn [mret M_ret ret fst snd]; congruence|].
    do 3 wp_run. wp_run. cbn [hf st with_ui].
    destruct (hf (st w)) as [lib|].
    + do 2 wp_run.
      cbv zeta; match goal with |- context [pipeline lib ?d] => destruct (pipeline lib d) as [p|e] end; [|cbn [embedder st with_ui progress ui set_progress]; auto].
      do 4 wp_run. unfold wp. cbn [refreshStats modify fst snd]. discriminate.
    + wp_run. destruct (import_transformers env) as [lib|e];
        [|cbn [embedder st with_ui progress ui set_progress]; auto].
      do 3 wp_run.
      cbv zeta; match goal with |- context [pipeline lib ?d] => destruct (pipeline lib d) as [p|e] end;
        [|cbn [embedder st with_ui with_st set_hf progress ui set_progress]; auto].
      do 4 wp_run. unfold wp. cbn [refreshStats modify fst snd]. discriminate.
  - intros H. unfold ensureEmbedder.
    rewrite (bind_Ok _ _ w (embedder (st w)) w) by reflexivity.
    destruct (embedder (st w)); [reflexivity|contradiction].
Qed.

End EmbedderFacts.

(** ** Streaming *)

Lemma with_bubble_twice el h1 h2 c :
  with_bubble el h2 (with_bubble el h1 c) = with_bubble el h2 c.
Proof.
  unfold with_bubble. rewrite list_alter_alter_eq. apply list_alter_ext.
  - intros m _. reflexivity.
  - reflexivity.
Qed.

Lemma consume_deltas_run el ds failure : forall answer w,
  fst (consume_deltas el ds failure answer w)
    = match failure with
      | None => Ok (answer ++ streamed_text ds)
      | Some e => Throw e
      end /\
  chat (ui (snd (consume_deltas el ds failure answer w))) =
    (if bool_decide (streamed_text ds = []) then chat (ui w)
     else with_bubble el (asBubbleHtml (answer ++ streamed_text ds)) (chat (ui w))).
Proof.
  induction ds as [|d r IH]; intros answer w.
  - cbn [consume_deltas]. change (streamed_text []) with (@nil N).
    rewrite app_nil_r. destruct failure; split; reflexivity.
  - assert (Hskip : forall d', default [] d' = [] -> streamed_text (d' :: r) = streamed_text r).
    { intros d' Hd. unfold streamed_text. cbn [map concat]. rewrite Hd. reflexivity. }
    destruct d as [[|c cs]|]; cbn [consume_deltas].
    + rewrite Hskip by reflexivity. apply IH.
    + set (a' := answer ++ c :: cs).
      set (w1 := snd (set_bubble el (asBubbleHtml a') w)).
      rewrite (bind_Ok _ _ w tt w1) by reflexivity.
      destruct (IH a' w1) as [H1 H2]. rewrite H1, H2.
      assert (Ha : a' ++ streamed_text r = answer ++ streamed_text (Some (c :: cs) :: r)).
      { unfold a', streamed_text. cbn [map concat default]. rewrite <- app_assoc. reflexivity. }
      rewrite Ha. split; [destruct failure; reflexivity|].
      rewrite (bool_decide_false (streamed_text (Some (c :: cs) :: r) = [])) by discriminate.
      change (chat (ui w1)) with (with_bubble el (asBubbleHtml a') (chat (ui w))).
      destruct (bool_decide (streamed_text r = [])) eqn:Eb.
      * apply bool_decide_eq_true in Eb. rewrite Eb, app_nil_r in Ha.
        clearbody a'. subst a'. reflexivity.
      * apply with_bubble_twice.
    + rewrite Hskip by reflexivity. apply IH.
Qed.

Section AskFacts.
Variable env : Env.

(** X16.  The loop over the stream of [ask] takes the deltas in arrival
    order.  When the stream ends after them, the loop returns the deltas
    that carry text, joined; when the stream fails after them, the loop
    throws that failure.  Either way, unless all the deltas are empty the
    bubble of the message is the HTML of the whole text received, and the
    corpus is untouched. *)
Theorem consume_deltas_streams (el : nat) (ds : list (option jsstr))
    (failure : option Exn) (w : World) :
  let r := consume_deltas el ds failure [] w in
  fst r = match failure with
          | None => Ok (streamed_text ds)
          | Some e => Throw e
          end /\
  corpus_kept w (snd r) /\
  chat (ui (snd r)) =
    (if bool_decide (streamed_text ds = []) then chat (ui w)
     else with_bubble el (asBubbleHtml (streamed_text ds)) (chat (ui w))).
Proof.
  cbv zeta. destruct (consume_deltas_run el ds failure [] w) as [H1 H2].
  split; [exact H1|]. split; [apply corpus_kept_consume_deltas|exact H2].
Qed.

End AskFacts.

(** ** The panel of retrieved chunks *)

Lemma escapeHtml_value_closed v :
  escapeHtml_value v = if text_or_absent v then Ok (escaped_text v) else Throw TypeError.
Proof. destruct v as [[]|]; reflexivity. Qed.

(** The loop of [renderContextDetails] from position [idx] on, with the
    rows [acc] already made. *)
Lemma render_blocks_closed_form (usedSet : gset jsnum) : forall items idx acc,
  (fix blocks (idx : nat) (items : list Scored) (acc : list ContextBlock)
       : Result MetaNode :=
     match items with
     | [] => Ok (MetaDetails acc)
     | item :: r =>
       let c := ch item in
       let label := N.of_nat (idx + 1) in
       match escapeHtml_value (chunk_get c (js "docName")) with
       | Throw e => Throw e
       | Ok doc =>
         if throws_on_conversion (chunk_get c (js "page")) then Throw TypeError
         else
           match escapeHtml_value (chunk_get c (js "text")) with
           | Throw e => Throw e
           | Ok text =>
             blocks (S idx) r
               (acc ++ [mkContextBlock label doc (chunk_get c (js "page"))
                          (bool_decide (Fin label ∈ usedSet)) (score item) text])
           end
       end
     end) idx items acc
  = if forallb renderable items
    then Ok (MetaDetails (acc ++ imap (fun i => context_block usedSet (idx + i)) items))
    else Throw TypeError.
Proof.
  induction items as [|item r IH]; intros idx acc.
  - cbn [imap forallb]. rewrite app_nil_r. reflexivity.
  - cbn [forallb]. unfold renderable at 1. cbv zeta. rewrite !escapeHtml_value_closed.
    destruct (text_or_absent (chunk_get (ch item) (js "docName"))); [|reflexivity].
    destruct (throws_on_conversion (chunk_get (ch item) (js "page"))); [reflexivity|].
    destruct (text_or_absent (chunk_get (ch item) (js "text"))); [|reflexivity].
    cbn [andb]. rewrite IH. cbn [imap]. rewrite <- app_assoc. cbn [app].
    unfold context_block at 2. rewrite Nat.add_0_r.
    destruct (forallb renderable r); [|reflexivity].
    do 4 f_equal. apply imap_ext. intros i x _. cbn [compose].
    replace (S idx + i)%nat with (idx + S i)%nat by lia. reflexivity.
Qed.

(** X17.  [renderContextDetails] in closed form: when the
    [docName] and the [text] of every retrieved chunk are strings (or
    absent) and its [page] converts to a string, it returns one row per
    chunk, in order, labelled 1, 2, ... with
    the escaped document name and text, the page and the score, and marked as
    used exactly when its label is in the set of cited numbers; otherwise it
    throws a [TypeError]. *)
Theorem renderContextDetails_closed_form (scoredChunks : list Scored) (usedSet : gset jsnum) :
  renderContextDetails scoredChunks usedSet =
  if forallb renderable scoredChunks
  then Ok (MetaDetails (imap (context_block usedSet) scoredChunks))
  else Throw TypeError.
Proof.
  unfold renderContextDetails. rewrite render_blocks_closed_form. reflexivity.
Qed.

Lemma renderContextDetails_details top used d :
  renderContextDetails top used = Ok d -> exists blocks, d = MetaDetails blocks.
Proof.
  unfold renderContextDetails. rewrite render_blocks_closed_form.
  destruct (forallb renderable top); [|discriminate].
  intros [= <-]. eauto.
Qed.

(** ** A completed answer *)

Section AskCompleted.
Variable env : Env.

(** X18.  When [ask] returns after a non-blank question on a page with
    chunks and a generator, the generator was called once, its stream ended
    without failure, and the transcript is the old one followed by the
    question and one assistant message whose bubble is the HTML of the
    streamed answer (the placeholder "답변 생성 중…" when no delta carried text)
    and whose meta lines are: in strict mode the warning when the answer cites
    no [C#], the source line, and with [showContext] the panel of retrieved
    chunks.  The status reads "완료" and the progress bar is back at 0. *)
Theorem ask_completed (questionText : jsstr) (strict showContext : bool) (w : World)
    (create : Engine) :
  trim questionText <> [] -> chunks (st w) <> [] -> engine (st w) = Some create ->
  fst (ask env questionText strict showContext w) = Ok tt ->
  let w' := snd (ask env questionText strict showContext w) in
  exists msgs temp stream details,
    create msgs temp = Ok stream /\ failure stream = None /\
    let answer := streamed_text (deltas stream) in
    chat (ui w') =
      chat (ui w) ++
        [mkMessage (js "user") (asBubbleHtml questionText) [];
         mkMessage (js "assistant") (answer_bubble answer)
           (citation_warning strict answer ++ source_line :: details)] /\
    (if showContext then exists blocks, details = [MetaDetails blocks] else details = []) /\
    status (ui w') = js "완료" /\ progress (ui w') = clamp01 0.
Proof.
  intros Hq Hc Heng. cbv zeta.
  change (wp (ask env questionText strict showContext)
    (fun r w' => r = Ok tt ->
      exists msgs temp stream details,
        create msgs temp = Ok stream /\ failure stream = None /\
        chat (ui w') =
          chat (ui w) ++
            [mkMessage (js "user") (asBubbleHtml questionText) [];
             mkMessage (js "assistant") (answer_bubble (streamed_text (deltas stream)))
               (citation_warning strict (streamed_text (deltas stream)) ++ source_line :: details)] /\
        (if showContext then exists blocks, details = [MetaDetails blocks] else details = []) /\
        status (ui w') = js "완료" /\ progress (ui w') = clamp01 0) w).
  unfold ask. destruct (trim questionText) as [|c0 r0]; [contradiction|]. clear Hq.
  wp_run. destruct (chunks (st w)) as [|ch0 chs] eqn:Ech; [contradiction|]. clear Hc.
  cbn [length Nat.eqb].
  wp_run. rewrite Heng.
  wp_focus.
  eapply wp_conseq; [apply (wp_preserves transcript_kept), transcript_kept_ensureEmbedder|].
  intros [[]|e] w1 [Hchat _]; [|discriminate].
  do 2 wp_run. cbn [ui with_ui chat set_chat].
  rewrite length_app, Hchat. cbn [length]. rewrite Nat.add_1_r.
  set (base := chat (ui w)).
  do 2 wp_run.
  wp_focus.
  eapply wp_conseq; [apply (wp_preserves transcript_kept), transcript_kept_embedTexts|].
  intros [rows|e] w2 [Hchat2 _]; [|discriminate].
  cbn [chat ui with_ui set_chat set_status set_progress] in Hchat2.
  wp_run. wp_run.
  destruct (retrieve_for (head rows) (chunks (st w2))) as [top|e]; [|discriminate].
  wp_run. destruct (buildContext env top) as [context|e]; [|discriminate].
  cbv zeta.
  do 4 wp_run.
  wp_run.
  match goal with |- context [create ?m ?t] => destruct (create m t) as [stream|e] eqn:Ecreate end;
    [|discriminate].
  wp_focus.
  destruct (failure stream) as [e|] eqn:Efail.
  { match goal with
    | |- wp (consume_deltas ?el ?ds ?f ?a) _ ?W =>
      destruct (consume_deltas_run el ds f a W) as [H1 _]; unfold wp at 1; rewrite H1
    end. discriminate. }
  match goal with
  | |- wp (consume_deltas ?el ?ds ?f ?a) _ ?W =>
    destruct (consume_deltas_run el ds f a W) as [H1 H3];
    unfold wp at 1; rewrite H1;
    cbn [chat ui with_ui set_chat set_status set_progress] in H3;
    rewrite Hchat2, <- app_assoc in H3; cbn [app] in H3;
    fold (with_bubble (S (length base)) (asBubbleHtml (js "답변 생성 중…"))) in H3;
    unfold with_bubble in H3; rewrite !alter_last_two in H3; cbn [msg_role meta] in H3;
    set (w3 := snd (consume_deltas el ds f a W)) in *; clearbody w3
  end.
  rewrite app_nil_l in *.
  set (answer := streamed_text (deltas stream)) in *.
  assert (H3' : chat (ui w3) =
                base ++ [mkMessage (js "user") (asBubbleHtml questionText) [];
                         mkMessage (js "assistant") (answer_bubble answer) []]).
  { rewrite H3. unfold answer_bubble. destruct answer.
    - rewrite bool_decide_true by reflexivity. reflexivity.
    - rewrite bool_decide_false by discriminate. reflexivity. }
  clear H1 H3 Hchat2 Hchat.
  do 3 wp_run.
  assert (Hfinal : forall details W,
    chat (ui W) = base ++ [mkMessage (js "user") (asBubbleHtml questionText) [];
                           mkMessage (js "assistant") (answer_bubble answer)
                             (citation_warning strict answer ++ source_line :: details)] ->
    (if showContext then exists blocks, details = [MetaDetails blocks] else details = []) ->
    progress (ui W) = clamp01 0 ->
    wp (setStatus (js "완료") ≫= fun _ => refreshStats)
      (fun r w' => r = Ok tt ->
        exists msgs temp stream details,
          create msgs temp = Ok stream /\ failure stream = None /\
          chat (ui w') =
            base ++
              [mkMessage (js "user") (asBubbleHtml questionText) [];
               mkMessage (js "assistant") (answer_bubble (streamed_text (deltas stream)))
                 (citation_warning strict (streamed_text (deltas stream)) ++ source_line :: details)] /\
          (if showContext then exists blocks, details = [MetaDetails blocks] else details = []) /\
          status (ui w') = js "완료" /\ progress (ui w') = clamp01 0) W).
  { intros details W HW Hdet Hprog. wp_run. unfold wp. cbn [refreshStats modify fst snd].
    intros _. eexists _, _, stream, details.
    split; [exact Ecreate|]. split; [exact Efail|].
    cbn [chat ui with_ui set_status set_stats status progress].
    split; [exact HW|]. split; [exact Hdet|]. split; [reflexivity|exact Hprog]. }
  wp_focus. destruct showContext.
  - wp_run.
    destruct (renderContextDetails top (parseUsedCitations answer)) as [details|e] eqn:Er;
      [|discriminate].
    wp_run. apply (Hfinal [details]).
    + cbn [chat ui with_ui set_chat set_progress]. rewrite H3', !alter_last_two.
      reflexivity.
    + apply renderContextDetails_details in Er as [blocks ->]. eauto.
    + reflexivity.
  - wp_run. apply (Hfinal []).
    + cbn [chat ui with_ui set_chat set_progress]. rewrite H3', !alter_last_two.
      reflexivity.
    + reflexivity.
    + reflexivity.
Qed.

End AskCompleted.

Lemma ask_completed_witness :
  trim (js "What is A?") <> [] /\ chunks (st imported_world) <> [] /\
  engine (st imported_world) = Some demo_engine /\
  fst (ask demo_env (js "What is A?") true true imported_world) = Ok tt /\
  let w' := snd (ask demo_env (js "What is A?") true true imported_world) in
  exists msgs temp stream details,
    demo_engine msgs temp = Ok stream /\ failure stream = None /\
    let answer := streamed_text (deltas stream) in
    chat (ui w') =
      chat (ui imported_world) ++
        [mkMessage (js "user") (asBubbleHtml (js "What is A?")) [];
         mkMessage (js "assistant") (answer_bubble answer)
           (citation_warning true answer ++ source_line :: details)] /\
    (if true then exists blocks, details = [MetaDetails blocks] else details = []) /\
    status (ui w') = js "완료" /\ progress (ui w') = clamp01 0.
Proof.
  split; [discriminate|]. split; [discriminate|]. split; [reflexivity|].
  split; [vm_compute; reflexivity|].
  apply (ask_completed demo_env (js "What is A?") true true imported_world demo_engine).
  - discriminate.
  - discriminate.
  - reflexivity.
  - vm_compute. reflexivity.
Defined.

(** ** Embedding in batches *)

Lemma strings_of_strings ts : strings_of (map (fun s => Some (JStr s)) ts) = Some ts.
Proof.
  induction ts as [|s r IH]; [reflexivity|].
  cbn [map strings_of]. rewrite IH. reflexivity.
Qed.

Lemma assign_embeddings_props batch vecs :
  map props (assign_embeddings batch vecs) = map props batch.
Proof.
  unfold assign_embeddings. revert vecs.
  induction batch as [|c r IH]; intros vecs; [reflexivity|].
  cbn [imap map props]. f_equal.
  destruct vecs as [|v vs]; cbn [compose]; [apply (IH [])|apply (IH vs)].
Qed.

Lemma embed_batch_props_eq i (cs : list Chunk) vecs :
  map props (take i cs ++ assign_embeddings (take BATCH (drop i cs)) vecs
               ++ drop (i + BATCH) cs)
  = map props cs.
Proof.
  rewrite !map_app, assign_embeddings_props, <- !map_app.
  rewrite <- drop_drop, take_drop, take_drop. reflexivity.
Qed.

Section IngestionFacts.
Variable env : Env.
Variable toLowerCase : jsstr -> jsstr.
Variable embedder_other : Embedder -> list (option json) -> Result Tensor.

#[local] Hint Resolve corpus_kept_ensureEmbedder transcript_kept_ensureEmbedder : frame.

(** On strings [embedTexts_values] is [embedTexts]. *)
Lemma embedTexts_values_strings ts :
  embedTexts_values env embedder_other (map (fun s => Some (JStr s)) ts) = embedTexts env ts.
Proof.
  unfold embedTexts_values, embedTexts. rewrite strings_of_strings. reflexivity.
Qed.

End IngestionFacts.


(** ** Ingestion *)

Section IndexFileFacts.
Variable env : Env.
Variable toLowerCase : jsstr -> jsstr.
Variable embedder_other : Embedder -> list (option json) -> Result Tensor.

#[local] Hint Resolve corpus_kept_ensureEmbedder transcript_kept_ensureEmbedder : frame.

Lemma corpus_kept_embedTexts_values vs :
  preserves corpus_kept (embedTexts_values env embedder_other vs).
Proof. unfold embedTexts_values. frame. Qed.

Lemma transcript_kept_embedTexts_values vs :
  preserves transcript_kept (embedTexts_values env embedder_other vs).
Proof. unfold embedTexts_values. frame. Qed.

#[local] Hint Resolve corpus_kept_embedTexts_values transcript_kept_embedTexts_values : frame.

Lemma corpus_kept_embed_batch i cs :
  preserves corpus_kept (embed_batch env embedder_other i cs).
Proof. unfold embed_batch. frame. Qed.

Lemma transcript_kept_embed_batch i cs :
  preserves transcript_kept (embed_batch env embedder_other i cs).
Proof. unfold embed_batch. frame. Qed.

#[local] Hint Resolve corpus_kept_embed_batch transcript_kept_embed_batch : frame.

Lemma corpus_kept_pdf_pages docId name numPages pages : forall i acc,
  preserves corpus_kept (pdf_pages docId name numPages i pages acc).
Proof.
  induction pages as [|p r IH]; intros i acc; cbn [pdf_pages]; [frame|].
  cbv zeta. apply preserves_bind; [eauto with frame|frame|intros _].
  apply preserves_bind; [eauto with frame|frame|intros _]. apply IH.
Qed.

Lemma corpus_kept_embed_new_chunks starts : forall cs,
  preserves corpus_kept (embed_new_chunks env embedder_other starts cs).
Proof.
  induction starts as [|i r IH]; intros cs; cbn [embed_new_chunks]; [frame|].
  apply preserves_bind; [eauto with frame|frame|intros cs'].
  cbv zeta. apply preserves_bind; [eauto with frame|frame|intros _]. apply IH.
Qed.

(** The batch loop changes embeddings only. *)
Lemma embed_batch_props i cs w :
  match fst (embed_batch env embedder_other i cs w) with
  | Ok cs' => map props cs' = map props cs
  | Throw _ => True
  end.
Proof.
  unfold embed_batch. cbv zeta.
  unfold mbind, M_bind, bind.
  destruct (embedTexts_values env embedder_other _ w) as [[vecs|e] w']; [|exact I].
  cbn [mret M_ret ret fst]. apply embed_batch_props_eq.
Qed.

Lemma embed_new_chunks_props starts : forall cs w,
  match fst (embed_new_chunks env embedder_other starts cs w) with
  | Ok cs' => map props cs' = map props cs
  | Throw _ => True
  end.
Proof.
  induction starts as [|i r IH]; intros cs w; cbn [embed_new_chunks]; [reflexivity|].
  unfold mbind, M_bind, bind.
  pose proof (embed_batch_props i cs w) as Hb.
  destruct (embed_batch env embedder_other i cs w) as [[cs1|e] w1]; [|exact I].
  cbn [fst] in Hb. cbv zeta. unfold setProgress, modify.
  specialize (IH cs1 (with_ui (set_progress (clamp01
    ((45 # 100) + (50 # 100) *
       (num (i + length (take BATCH (drop i cs))) / num (Nat.max 1 (length cs)))))) w1)).
  destruct (embed_new_chunks env embedder_other r cs1 _) as [[cs2|e] w2]; [|exact I].
  cbn [fst] in *. congruence.
Qed.

End IndexFileFacts.

Section IndexFileOutcome.
Variable env : Env.
Variable toLowerCase : jsstr -> jsstr.
Variable embedder_other : Embedder -> list (option json) -> Result Tensor.

Lemma made_for_props docId c c' :
  props c' = props c -> made_for docId c -> made_for docId c'.
Proof.
  unfold made_for, has_text, has_key, chunk_key, chunk_get. intros ->. auto.
Qed.

Lemma Forall_made_for_props docId (cs cs' : list Chunk) :
  map props cs' = map props cs -> Forall (made_for docId) cs -> Forall (made_for docId) cs'.
Proof.
  revert cs'. induction cs as [|c r IH]; intros [|c' r'] H; try discriminate H.
  - constructor.
  - injection H as Hc Hr. intros Hall. inversion Hall; subst.
    constructor; [eapply made_for_props; eauto|auto].
Qed.

Lemma new_chunk_made_for docId name pageNo c piece :
  made_for docId (new_chunk docId name pageNo c piece).
Proof. repeat split. Qed.

Lemma page_chunks_made_for docId name pageNo pageText :
  Forall (made_for docId) (page_chunks docId name pageNo pageText).
Proof.
  unfold page_chunks. apply Forall_forall. intros c Hc.
  apply list_elem_of_lookup in Hc as [k Hk].
  rewrite list_lookup_imap in Hk.
  destruct (chunkText pageText !! k) as [piece|]; [|discriminate].
  injection Hk as <-. apply new_chunk_made_for.
Qed.

Lemma pdf_pages_result docId name numPages pages : forall i acc w,
  fst (pdf_pages docId name numPages i pages acc w) =
  Ok (acc ++ concat (imap (fun k pageText => page_chunks docId name (i + k + 1) pageText)
                          pages)).
Proof.
  induction pages as [|p r IH]; intros i acc w.
  - cbn [pdf_pages imap concat]. rewrite app_nil_r. reflexivity.
  - cbn [pdf_pages]. cbv zeta.
    unfold mbind, M_bind, bind, setStatus, setProgress, modify.
    rewrite IH. cbn [imap concat]. rewrite <- app_assoc, Nat.add_0_r. do 4 f_equal.
    apply imap_ext. intros k x _. cbn [compose]. f_equal. lia.
Qed.

Lemma made_for_has_key docId cs :
  Forall (made_for docId) cs -> Forall (fun c => chunk_key c <> None) cs.
Proof.
  intros H. eapply Forall_impl; [exact H|].
  intros c (_ & _ & Hk). unfold has_key in Hk.
  destruct (chunk_key c); [discriminate|discriminate].
Qed.

End IndexFileOutcome.

Lemma data_kept_refl w : data_kept w w.
Proof. repeat split. Qed.

Lemma data_kept_trans a b c : data_kept a b -> data_kept b c -> data_kept a c.
Proof. intros (H1 & H2 & H3) (G1 & G2 & G3). repeat split; congruence. Qed.

Lemma data_kept_ui f : preserves data_kept (modify (with_ui f)).
Proof. intros w. repeat split. Qed.

#[local] Hint Resolve data_kept_refl data_kept_trans data_kept_ui : frame.

Lemma data_kept_renderDocs : preserves data_kept renderDocs.
Proof. unfold renderDocs. frame. Qed.

Lemma dbPutMany_docs_one env doc k w :
  accepts env (PUT_REQUESTS STORE_DOCS) ->
  doc_key doc = Some k ->
  dbPutMany_docs env [doc] w =
  (Ok tt, with_db (fun d => mkDb (store_put k doc (db_docs d)) (db_chunks d)) w).
Proof.
  intros Ha Hk. rewrite dbPutMany_docs_eq by exact Ha. cbn [put_all]. rewrite Hk. reflexivity.
Qed.

(** Settle a frame fact about a page that differs from a known one in its
    view only. *)
Ltac corpus_solve :=
  unfold corpus_kept, data_kept in *;
  cbn [st ui db downloads with_ui with_st with_db engine docs chunks set_docs set_chunks] in *;
  intuition congruence.

Section IndexFileTheorem.
Variable env : Env.
Variable toLowerCase : jsstr -> jsstr.
Variable embedder_other : Embedder -> list (option json) -> Result Tensor.

(** X19.  [indexFile] changes the corpus in memory first and the store
    after, and how far it gets is decided by what it is given.  Either the
    generator, documents, chunks, store and downloads are untouched (every
    failure of loading, reading or embedding ends here); or the document
    record was appended to the documents, with chunks made that each carry
    the document id, a string text and a string id, and then: the chunks
    are too many for one call and [push] throws RangeError with nothing
    else written; or the chunks are appended and the write of the record is
    rejected, the store staying as it was; or the record is stored and the
    write of the chunks is rejected; or record and chunks are stored. *)
Theorem indexFile_outcomes (docId : jsstr) (file : File) (w : World) :
  let r := indexFile env toLowerCase embedder_other docId file w in
  corpus_kept w (snd r) \/
  exists newChunks,
    Forall (made_for docId) newChunks /\
    ingested env (doc_record (now_iso env) docId file) docId newChunks (fst r) w (snd r).
Proof.
  cbv zeta.
  change (wp (indexFile env toLowerCase embedder_other docId file)
            (fun r w' => corpus_kept w w' \/
               exists newChunks,
                 Forall (made_for docId) newChunks /\
                 ingested env (doc_record (now_iso env) docId file) docId newChunks r w w') w).
  unfold indexFile. cbv zeta.
  wp_focus. eapply wp_conseq; [apply (wp_preserves corpus_kept), corpus_kept_ensureEmbedder|].
  intros [[]|e] w1 H1; [|left; exact H1].
  do 2 wp_run.
  match goal with
  | |- wp (mbind ?k _) ?Q _ =>
    assert (HK : forall made W, corpus_kept w W -> Forall (made_for docId) made ->
                 wp (k made) Q W)
  end.
  { intros made W HW Hmade. wp_run. wp_focus.
    match goal with
    | |- wp (embed_new_chunks _ _ ?s ?cs) _ ?W' =>
      pose proof (embed_new_chunks_props env embedder_other s cs W') as Hp;
      pose proof (corpus_kept_embed_new_chunks env embedder_other s cs W') as Hc;
      unfold wp at 1;
      destruct (embed_new_chunks env embedder_other s cs W') as [[newChunks|e] w3]
    end; cbn [fst snd] in *; cbv beta iota; [|left; corpus_solve].
    apply (Forall_made_for_props docId made newChunks Hp) in Hmade.
    assert (Hw3 : corpus_kept w w3).
    { eapply corpus_kept_trans; [exact HW|]. corpus_solve. }
    clear Hc HW Hp. destruct Hw3 as (He3 & Hd3 & Hc3 & Hdb3 & Hdl3).
    wp_run. wp_run. unfold call_args.
    destruct (N.ltb_spec (arg_limit env) (N.of_nat (length newChunks))) as [Hbig|Hfit];
      cbv beta iota.
    { right. exists newChunks. split; [exact Hmade|]. unfold ingested.
      cbn [st db downloads with_st engine docs chunks set_docs].
      rewrite He3, Hd3, Hc3, Hdb3, Hdl3.
      split; [reflexivity|]. split; [reflexivity|]. split; [reflexivity|].
      left. unfold fits. split; [lia|]. auto. }
    assert (Hfits : fits env newChunks) by exact Hfit.
    wp_run. wp_focus. unfold wp at 1.
    match goal with
    | |- context [dbPutMany_docs env ?objs ?W'] =>
      destruct (dbPutMany_docs_decide env objs W') as [[Had _]|[Had [e1 Heq]]]
    end;
      [rewrite (dbPutMany_docs_one env _ (JStr docId) _ Had) by reflexivity
      |rewrite Heq]; cbn [fst snd].
    2:{ right. exists newChunks. split; [exact Hmade|]. unfold ingested.
        cbn [st db downloads with_st engine docs chunks set_docs set_chunks].
        rewrite He3, Hd3, Hc3, Hdb3, Hdl3.
        split; [reflexivity|]. split; [reflexivity|]. split; [reflexivity|].
        right. split; [exact Hfits|]. split; [reflexivity|].
        left. split; [exact Had|]. split; [discriminate|reflexivity]. }
    wp_focus. unfold wp at 1.
    match goal with
    | |- context [dbPutMany_chunks env ?objs ?W'] =>
      destruct (dbPutMany_chunks_decide env objs W') as [[Hac Heq']|[Hac [e2 Heq']]]
    end; rewrite Heq'; cbn [fst snd].
    2:{ right. exists newChunks. split; [exact Hmade|]. unfold ingested.
        cbn [st db downloads with_st with_db engine docs chunks set_docs set_chunks
             db_docs db_chunks].
        rewrite He3, Hd3, Hc3, Hdb3, Hdl3.
        split; [reflexivity|]. split; [reflexivity|]. split; [reflexivity|].
        right. split; [exact Hfits|]. split; [reflexivity|].
        right. split; [exact Had|]. split; [reflexivity|].
        left. split; [exact Hac|]. split; [discriminate|reflexivity]. }
    pose proof (put_all_ok chunk_key newChunks (db_chunks (db w3))
                  (made_for_has_key docId newChunks Hmade)) as Hput.
    cbn [db with_db with_st db_chunks db_docs].
    rewrite Hput.
    do 2 wp_run. wp_focus.
    eapply wp_conseq; [apply (wp_preserves data_kept), data_kept_renderDocs|].
    intros r w4 (H4s & H4d & H4l).
    assert (Hdone : forall (r5 : Result unit) (W5 : World),
              st W5 = st w4 -> db W5 = db w4 -> downloads W5 = downloads w4 ->
              exists newChunks0,
                Forall (made_for docId) newChunks0 /\
                ingested env (doc_record (now_iso env) docId file) docId newChunks0 r5 w W5).
    { intros r5 W5 Hs Hd Hl. exists newChunks. split; [exact Hmade|].
      unfold ingested. rewrite Hs, Hd, Hl, H4s, H4d, H4l.
      cbn [st db with_ui with_st with_db docs chunks set_docs set_chunks db_docs db_chunks
           downloads engine].
      rewrite He3, Hd3, Hc3, Hdb3, Hdl3.
      split; [reflexivity|]. split; [reflexivity|]. split; [reflexivity|].
      right. split; [exact Hfits|]. split; [reflexivity|].
      right. split; [exact Had|]. split; [reflexivity|].
      right. split; [exact Hac|].
      rewrite Hdb3 in Hput. rewrite <- Hput. apply surjective_pairing. }
    destruct r as [[]|e]; [unfold wp|]; cbv beta; right; apply Hdone; reflexivity. }
  apply wp_bind.
  destruct (endsWith (toLowerCase (file_name file)) (js ".pdf")
            || jsstr_eqb (file_type file) (js "application/pdf")).
  - wp_run. destruct (file_pdf file) as [pages|e]; cbn [extractTextFromPDF];
      cbv beta iota; [|left; corpus_solve].
    cbn [fst snd]. wp_focus.
    match goal with
    | |- wp (pdf_pages ?d ?n ?np ?i ?ps ?acc) _ ?W' =>
      pose proof (corpus_kept_pdf_pages d n np ps i acc W') as Hc;
      unfold wp at 1; rewrite pdf_pages_result;
      set (w2 := snd (pdf_pages d n np i ps acc W')) in *; clearbody w2
    end.
    cbv beta iota. do 3 wp_run. apply HK; [corpus_solve|].
    cbn [app]. apply Forall_concat. apply Forall_forall. intros l Hl.
    apply list_elem_of_lookup in Hl as [k Hk]. rewrite list_lookup_imap in Hk.
    destruct (map page_text pages !! k); [|discriminate]. injection Hk as <-.
    apply page_chunks_made_for.
  - wp_run. destruct (file_text file) as [text|e]; cbv beta iota; [|left; corpus_solve].
    do 3 wp_run. apply HK; [corpus_solve|apply page_chunks_made_for].
Qed.

End IndexFileTheorem.

(** ** Batches with a loaded embedder *)

Lemma strings_of_texts (batch : list Chunk) :
  Forall (fun c => has_text c = true) batch ->
  exists texts, strings_of (map (fun x => chunk_get x (js "text")) batch) = Some texts /\
                length texts = length batch.
Proof.
  induction 1 as [|c r Hc Hr (texts & IH & Hlen)].
  - exists []. split; reflexivity.
  - unfold has_text in Hc. cbn [map strings_of].
    destruct (chunk_get c (js "text")) as [[| | | | |s| |]|]; try discriminate Hc.
    rewrite IH. exists (s :: texts). split; [reflexivity|]. cbn [length]. lia.
Qed.

Lemma has_text_props (cs cs' : list Chunk) :
  map props cs' = map props cs ->
  Forall (fun c => has_text c = true) cs -> Forall (fun c => has_text c = true) cs'.
Proof.
  revert cs'. induction cs as [|c r IH]; intros [|c' r'] H; try discriminate H.
  - constructor.
  - injection H as Hc Hr. intros Hall. inversion Hall; subst.
    constructor; [|auto]. unfold has_text, chunk_get in *. rewrite Hc. assumption.
Qed.

Lemma assign_embeddings_embedded batch vecs :
  (length batch <= length vecs)%nat ->
  Forall (fun c => embedded c = true) (assign_embeddings batch vecs).
Proof.
  intros Hlen. unfold assign_embeddings. apply Forall_forall. intros c Hc.
  apply list_elem_of_lookup in Hc as [j Hj]. rewrite list_lookup_imap in Hj.
  destruct (batch !! j) as [c0|] eqn:Ej; [|discriminate]. injection Hj as <-.
  apply lookup_lt_Some in Ej.
  destruct (lookup_lt_is_Some_2 vecs j) as [v Hv]; [lia|].
  unfold embedded. cbn [embedding]. rewrite Hv. reflexivity.
Qed.

Lemma length_assign_embeddings batch vecs :
  length (assign_embeddings batch vecs) = length batch.
Proof. unfold assign_embeddings. apply length_imap. Qed.

(** After a batch with enough rows the chunks before [i + BATCH] are
    embedded, if those before [i] were. *)
Lemma embedded_prefix_step i (cs : list Chunk) vecs :
  Forall (fun c => embedded c = true) (take i cs) ->
  (length (take BATCH (drop i cs)) <= length vecs)%nat ->
  Forall (fun c => embedded c = true)
    (take (i + BATCH)
       (take i cs ++ assign_embeddings (take BATCH (drop i cs)) vecs ++ drop (i + BATCH) cs)).
Proof.
  intros Hpre Hlen.
  destruct (Nat.le_gt_cases (i + BATCH) (length cs)) as [Hle|Hgt].
  - rewrite app_assoc, take_app_length'.
    + apply Forall_app. split; [exact Hpre|]. apply assign_embeddings_embedded. exact Hlen.
    + rewrite length_app, length_take, length_assign_embeddings, length_take, length_drop. lia.
  - rewrite (drop_ge cs (i + BATCH)) by lia. rewrite app_nil_r.
    apply Forall_take. apply Forall_app. split; [exact Hpre|].
    apply assign_embeddings_embedded. exact Hlen.
Qed.

Section LoadedEmbedder.
Variable env : Env.
Variable embedder_other : Embedder -> list (option json) -> Result Tensor.
Variable p : Embedder.
Hypothesis p_rows : row_per_text p.

Lemma ensureEmbedder_loaded w :
  embedder (st w) <> None -> ensureEmbedder env w = (Ok tt, w).
Proof.
  intros H. unfold ensureEmbedder.
  rewrite (bind_Ok _ _ w (embedder (st w)) w) by reflexivity.
  destruct (embedder (st w)); [reflexivity|contradiction].
Qed.

Lemma embed_batch_loaded i cs w :
  embedder (st w) = Some p ->
  Forall (fun c => has_text c = true) cs ->
  exists vecs,
    embed_batch env embedder_other i cs w =
      (Ok (take i cs ++ assign_embeddings (take BATCH (drop i cs)) vecs
             ++ drop (i + BATCH) cs), w) /\
    length vecs = length (take BATCH (drop i cs)).
Proof.
  intros He Ht. unfold embed_batch, embedTexts_values. cbv zeta.
  destruct (strings_of_texts (take BATCH (drop i cs))) as (texts & Hs & Hlen).
  { apply Forall_take, Forall_drop. exact Ht. }
  destruct (p_rows texts) as (t & Hp & Hd).
  exists (tensor_rows t). split.
  - erewrite bind_Ok; [reflexivity|].
    erewrite bind_Ok; [|apply ensureEmbedder_loaded; rewrite He; discriminate].
    erewrite bind_Ok; [|reflexivity]. cbv beta. rewrite He.
    erewrite bind_Ok; [reflexivity|]. unfold lift. rewrite Hs, Hp. reflexivity.
  - rewrite tensor_rows_length, Hd, Hlen. reflexivity.
Qed.

(** The loop of [indexFile] from batch [k] on. *)
Lemma embed_new_chunks_loaded m : forall k cs w,
  embedder (st w) = Some p ->
  Forall (fun c => has_text c = true) cs ->
  Forall (fun c => embedded c = true) (take (k * BATCH) cs) ->
  exists cs' w',
    embed_new_chunks env embedder_other (map (fun b => (b * BATCH)%nat) (seq k m)) cs w
      = (Ok cs', w') /\
    map props cs' = map props cs /\
    Forall (fun c => embedded c = true) (take ((k + m) * BATCH) cs') /\
    st w' = st w /\ db w' = db w /\ chat (ui w') = chat (ui w) /\
    status (ui w') = status (ui w) /\ alerts w' = alerts w /\ downloads w' = downloads w.
Proof.
  induction m as [|m IH]; intros k cs w He Ht Hpre.
  - exists cs, w. rewrite Nat.add_0_r. cbn [seq map embed_new_chunks].
    repeat split; try reflexivity. exact Hpre.
  - cbn [seq map embed_new_chunks].
    destruct (embed_batch_loaded (k * BATCH) cs w He Ht) as (vecs & Hb & Hlen).
    set (cs1 := take (k * BATCH) cs
                  ++ assign_embeddings (take BATCH (drop (k * BATCH) cs)) vecs
                  ++ drop (k * BATCH + BATCH) cs) in *.
    assert (Hprops : map props cs1 = map props cs) by apply embed_batch_props_eq.
    erewrite bind_Ok; [|exact Hb]. cbv zeta.
    erewrite bind_Ok; [|reflexivity].
    match goal with
    | |- context [embed_new_chunks _ _ _ cs1 ?W] =>
      destruct (IH (S k) cs1 W) as (cs' & w' & Hrun & Hp' & Hemb & Hst & Hdb & Hchat & Hstat & Hal & Hdl)
    end.
    + exact He.
    + apply (has_text_props cs cs1 Hprops Ht).
    + change (S k * BATCH)%nat with (BATCH + k * BATCH)%nat. rewrite Nat.add_comm.
      apply embedded_prefix_step; [exact Hpre|lia].
    + exists cs', w'. split; [exact Hrun|]. split; [congruence|].
      split; [replace (k + S m)%nat with (S k + m)%nat by lia; exact Hemb|].
      repeat split; assumption.
Qed.

End LoadedEmbedder.

Lemma batch_starts_cover n : (n <= (n + BATCH - 1) / BATCH * BATCH)%nat.
Proof.
  unfold BATCH. pose proof (Nat.div_mod_eq (n + 8 - 1) 8) as E.
  pose proof (Nat.mod_upper_bound (n + 8 - 1) 8 ltac:(lia)) as Hm.
  revert E Hm. generalize ((n + 8 - 1) / 8)%nat ((n + 8 - 1) mod 8)%nat. intros q r E Hm. lia.
Qed.

Lemma doc_record_importable now docId file :
  importable_doc (doc_record now docId file) = true.
Proof. reflexivity. Qed.

Section IndexFileSuccess.
Variable env : Env.
Variable toLowerCase : jsstr -> jsstr.
Variable embedder_other : Embedder -> list (option json) -> Result Tensor.
Variable p : Embedder.
Hypothesis p_rows : row_per_text p.

(** X20.  Indexing a text file (not a PDF by name or type) that can
    be read, with an embedder loaded that answers one row per text, a
    document list that can be shown, a store that rejects neither write and
    chunks that fit one call, returns; the document and its chunks are
    committed to memory and store; the chunks are those of [chunkText] on the
    file text, numbered c0, c1, ... on page 1, and every one of them has an
    embedding; no message and no alert is added, the status reads
    "완료: <name>" and the progress bar is back at 0. *)
Theorem indexFile_text_file (docId : jsstr) (file : File) (text : jsstr) (w : World) :
  endsWith (toLowerCase (file_name file)) (js ".pdf")
    || jsstr_eqb (file_type file) (js "application/pdf") = false ->
  file_text file = Ok text ->
  embedder (st w) = Some p ->
  forallb importable_doc (docs (st w)) = true ->
  accepts env (PUT_REQUESTS STORE_DOCS ++ PUT_REQUESTS STORE_CHUNKS) ->
  fits env (chunkText text) ->
  let r := indexFile env toLowerCase embedder_other docId file w in
  fst r = Ok tt /\
  exists newChunks,
    committed (doc_record (now_iso env) docId file) docId newChunks w (snd r) /\
    map props newChunks = map props (page_chunks docId (file_name file) 1 text) /\
    Forall (fun c => embedded c = true) newChunks /\
    chat (ui (snd r)) = chat (ui w) /\ alerts (snd r) = alerts w /\
    status (ui (snd r)) = js "완료: " ++ file_name file /\
    progress (ui (snd r)) = clamp01 0.
Proof.
  intros Hkind Hfile He Hdocs Hacc Hfit. cbv zeta.
  apply accepts_app in Hacc as [Had Hac].
  change (wp (indexFile env toLowerCase embedder_other docId file)
    (fun r w' => r = Ok tt /\
       exists newChunks,
         committed (doc_record (now_iso env) docId file) docId newChunks w w' /\
         map props newChunks = map props (page_chunks docId (file_name file) 1 text) /\
         Forall (fun c => embedded c = true) newChunks /\
         chat (ui w') = chat (ui w) /\ alerts w' = alerts w /\
         status (ui w') = js "완료: " ++ file_name file /\
         progress (ui w') = clamp01 0) w).
  unfold indexFile. cbv zeta. rewrite Hkind.
  wp_focus. unfold wp at 1. rewrite ensureEmbedder_loaded by (rewrite He; discriminate).
  cbn [fst snd].
  do 2 wp_run. wp_run. rewrite Hfile. cbv beta iota.
  do 3 wp_run. wp_run.
  set (made := page_chunks docId (file_name file) 1 text).
  wp_focus.
  match goal with
  | |- wp (embed_new_chunks _ _ _ _) _ ?W =>
    destruct (embed_new_chunks_loaded env embedder_other p p_rows
                ((length made + BATCH - 1) / BATCH) 0 made W)
      as (newChunks & w3 & Hrun & Hprops & Hemb & Hst & Hdb & Hchat & Hstat & Hal & Hdl)
  end.
  { exact He. }
  { eapply Forall_impl; [apply (page_chunks_made_for docId)|]. intros c (_ & Ht & _). exact Ht. }
  { constructor. }
  cbn [st db ui with_ui chat status alerts downloads set_status set_progress]
    in Hst, Hdb, Hchat, Hstat, Hal, Hdl.
  unfold wp at 1. unfold batch_starts. rewrite Hrun. cbn [fst snd].
  assert (Hlen : length newChunks = length made).
  { rewrite <- (length_map props newChunks), Hprops, length_map. reflexivity. }
  rewrite take_ge in Hemb by (rewrite Hlen; apply batch_starts_cover).
  assert (Hmade : Forall (made_for docId) newChunks).
  { apply (Forall_made_for_props docId made newChunks Hprops), page_chunks_made_for. }
  assert (Hfits : fits env newChunks).
  { unfold fits in *. rewrite Hlen. unfold made, page_chunks. rewrite length_imap. exact Hfit. }
  wp_run. wp_run. rewrite (call_args_fits env newChunks Hfits). cbv beta iota.
  wp_run. wp_focus. unfold wp at 1.
  rewrite (dbPutMany_docs_one env _ (JStr docId) _ Had) by reflexivity. cbn [fst snd].
  wp_focus. unfold wp at 1. rewrite (dbPutMany_chunks_eq env _ _ Hac). cbn [fst snd].
  pose proof (put_all_ok chunk_key newChunks (db_chunks (db w3))
                (made_for_has_key docId newChunks Hmade)) as Hput.
  cbn [db with_db with_st db_chunks db_docs]. rewrite Hput. rewrite Hdb in Hput.
  do 2 wp_run. wp_focus. unfold wp at 1.
  match goal with
  | |- context [renderDocs ?W] =>
    destruct (renderDocs_ok W) as [x Hx]
  end.
  { cbn [st with_ui with_db with_st docs set_docs set_chunks]. rewrite Hst.
    rewrite forallb_app, Hdocs. reflexivity. }
  rewrite Hx. cbn [fst snd]. unfold wp. cbn [refreshStats modify fst snd].
  split; [reflexivity|]. exists newChunks.
  split; [|split; [exact Hprops|split; [exact Hemb|]]].
  - unfold committed.
    cbn [st db with_ui with_st with_db docs chunks set_docs set_chunks db_docs db_chunks].
    rewrite Hst, Hdb.
    split; [reflexivity|]. split; [reflexivity|]. split; [reflexivity|].
    rewrite <- Hput. apply surjective_pairing.
  - cbn [ui with_ui with_st with_db chat alerts status progress set_stats set_docsList
         set_progress set_status].
    rewrite Hchat, Hal. repeat split; reflexivity.
Qed.

End IndexFileSuccess.

(** ** Re-indexing *)

Lemma records_kept_refl w : records_kept w w.
Proof. repeat split. Qed.

Lemma records_kept_trans a b c : records_kept a b -> records_kept b c -> records_kept a c.
Proof.
  intros (H1 & H2 & H3 & H4 & H5 & H6) (G1 & G2 & G3 & G4 & G5 & G6).
  repeat split; congruence.
Qed.

Lemma records_kept_corpus_transcript {A} (m : M A) :
  preserves corpus_kept m -> preserves transcript_kept m -> preserves records_kept m.
Proof.
  intros Hc Ht w. destruct (Hc w) as (H1 & H2 & H3 & H4 & H5). destruct (Ht w) as (G1 & G2).
  repeat split; congruence.
Qed.

Lemma has_key_props (cs cs' : list Chunk) :
  map props cs' = map props cs ->
  Forall (fun c => has_key c = true) cs -> Forall (fun c => chunk_key c <> None) cs'.
Proof.
  revert cs'. induction cs as [|c r IH]; intros [|c' r'] H; try discriminate H.
  - constructor.
  - injection H as Hc Hr. intros Hall. inversion Hall as [|? ? Hk Hr']; subst.
    constructor; [|auto]. unfold has_key, chunk_key in *. rewrite Hc.
    destruct (key_of_members (props c)); [discriminate|discriminate].
Qed.

Section Rebuild.
Variable env : Env.
Variable embedder_other : Embedder -> list (option json) -> Result Tensor.

#[local] Hint Resolve corpus_kept_ensureEmbedder transcript_kept_ensureEmbedder : frame.
#[local] Hint Resolve records_kept_refl records_kept_trans : frame.

Lemma records_kept_ui f :
  (forall v, chat (f v) = chat v) -> preserves records_kept (modify (with_ui f)).
Proof. intros Hf w. repeat split. cbn. apply Hf. Qed.

Lemma records_kept_rebuild_batches starts :
  preserves records_kept (rebuild_batches env embedder_other starts).
Proof.
  induction starts as [|i r IH]; intros w; cbn [rebuild_batches]; [apply records_kept_refl|].
  erewrite bind_Ok by reflexivity. cbv beta.
  pose proof (embed_batch_props env embedder_other i (chunks (st w)) w) as Hp.
  pose proof (corpus_kept_embed_batch env embedder_other i (chunks (st w)) w) as Hc.
  pose proof (transcript_kept_embed_batch env embedder_other i (chunks (st w)) w) as Ht.
  destruct (embed_batch env embedder_other i (chunks (st w)) w) as [[cs'|e] w1] eqn:E;
    cbn [fst snd] in *.
  - erewrite bind_Ok by exact E. erewrite bind_Ok by reflexivity. cbv zeta.
    erewrite bind_Ok by reflexivity.
    eapply records_kept_trans; [|apply IH].
    destruct Hc as (H1 & H2 & H3 & H4 & H5), Ht as (G1 & G2).
    repeat split; cbn; congruence.
  - erewrite bind_Throw by exact E. cbn [snd].
    destruct Hc as (H1 & H2 & H3 & H4 & H5), Ht as (G1 & G2).
    repeat split; congruence.
Qed.

Lemma records_kept_ensureEmbedder : preserves records_kept (ensureEmbedder env).
Proof.
  apply records_kept_corpus_transcript;
    [apply corpus_kept_ensureEmbedder|apply transcript_kept_ensureEmbedder].
Qed.

(** What [rebuildAllEmbeddings] leaves alone, and when it leaves the store
    alone. *)
Lemma rebuildAllEmbeddings_outcome (w : World) :
  wp (rebuildAllEmbeddings env embedder_other)
     (fun r w' =>
        engine (st w') = engine (st w) /\ docs (st w') = docs (st w) /\
        map props (chunks (st w')) = map props (chunks (st w)) /\
        db_docs (db w') = db_docs (db w) /\ chat (ui w') = chat (ui w) /\
        downloads w' = downloads w /\
        (Forall (fun c => has_key c = true) (chunks (st w)) ->
         forall e, r = Throw e -> db w' = db w)) w.
Proof.
  unfold rebuildAllEmbeddings. wp_run.
  destruct (length (chunks (st w)) =? 0)%nat.
  { unfold wp. cbn [alert modify fst snd]. repeat split; try reflexivity; discriminate. }
  wp_focus.
  eapply wp_conseq; [apply (wp_preserves records_kept), records_kept_ensureEmbedder|].
  intros [[]|e] w1 H1; cbv beta iota.
  2:{ unfold records_kept in H1. intuition congruence. }
  do 2 wp_run. wp_focus.
  eapply wp_conseq; [apply (wp_preserves records_kept), records_kept_rebuild_batches|].
  intros [[]|e] w2 H2; cbv beta iota;
    unfold records_kept in H1, H2;
    cbn [st ui db downloads with_ui chat set_status set_progress] in H2.
  2:{ intuition congruence. }
  destruct H1 as (A1 & A2 & A3 & A4 & A5 & A6), H2 as (B1 & B2 & B3 & B4 & B5 & B6).
  wp_run. wp_focus. unfold wp at 1.
  destruct (dbPutMany_chunks_decide env (chunks (st w2)) w2) as [[_ Heq]|[_ [e2 Heq]]];
    rewrite Heq; cbn [fst snd].
  2:{ repeat split; try congruence. }
  destruct (fst (put_all chunk_key (chunks (st w2)) (db_chunks (db w2)))) as [[]|e] eqn:Eput.
  - do 2 wp_run. unfold wp. cbn [refreshStats modify fst snd].
    cbn [st ui db downloads with_ui with_db chat db_docs set_status set_progress set_stats].
    repeat split; try congruence; discriminate.
  - cbn [st ui db downloads with_ui with_db chat db_docs].
    repeat split; try congruence.
    intros Hk e' _. exfalso.
    rewrite (put_all_ok chunk_key (chunks (st w2)) (db_chunks (db w2))) in Eput;
      [discriminate|].
    apply (has_key_props (chunks (st w))); [congruence|exact Hk].
Qed.

(** X23.  [rebuildAllEmbeddings] changes embeddings
    only: on every path the generator, the documents, the properties of every
    chunk (id, docId, docName, page, text, in order), the document store, the
    transcript and the downloads are unchanged.  With no chunk it only shows
    the alert "재인덱싱할 청크가 없습니다." and returns. *)
Theorem rebuildAllEmbeddings_keeps_records (w : World) :
  let r := rebuildAllEmbeddings env embedder_other w in
  engine (st (snd r)) = engine (st w) /\
  docs (st (snd r)) = docs (st w) /\
  map props (chunks (st (snd r))) = map props (chunks (st w)) /\
  db_docs (db (snd r)) = db_docs (db w) /\
  chat (ui (snd r)) = chat (ui w) /\
  downloads (snd r) = downloads w /\
  (chunks (st w) = [] -> r = alert MSG_NO_CHUNKS w).
Proof.
  cbv zeta. pose proof (rebuildAllEmbeddings_outcome w) as H. unfold wp in H.
  destruct H as (H1 & H2 & H3 & H4 & H5 & H6 & _).
  repeat (split; [assumption|]).
  intros Hc. unfold rebuildAllEmbeddings.
  erewrite bind_Ok by reflexivity. cbv beta. rewrite Hc. reflexivity.
Qed.

(** X24.  When every chunk has a store key and
    [rebuildAllEmbeddings] throws, the store is untouched: the chunks are
    written back only after every batch was embedded. *)
Theorem rebuildAllEmbeddings_failure_keeps_store (w : World) (e : Exn) :
  Forall (fun c => has_key c = true) (chunks (st w)) ->
  fst (rebuildAllEmbeddings env embedder_other w) = Throw e ->
  db (snd (rebuildAllEmbeddings env embedder_other w)) = db w.
Proof.
  intros Hk He. pose proof (rebuildAllEmbeddings_outcome w) as H. unfold wp in H.
  destruct H as (_ & _ & _ & _ & _ & _ & H). eapply H; eauto.
Qed.

End Rebuild.

Lemma rebuildAllEmbeddings_failure_keeps_store_witness :
  Forall (fun c => has_key c = true) (chunks (st corpus_world)) /\
  fst (rebuildAllEmbeddings offline_env no_other corpus_world)
    = Throw (ExternalError (js "TypeError: Failed to fetch dynamically imported module")) /\
  db (snd (rebuildAllEmbeddings offline_env no_other corpus_world)) = db corpus_world.
Proof.
  split; [repeat constructor|]. split; [vm_compute; reflexivity|].
  apply (rebuildAllEmbeddings_failure_keeps_store offline_env no_other corpus_world
           (ExternalError (js "TypeError: Failed to fetch dynamically imported module"))).
  - repeat constructor.
  - vm_compute. reflexivity.
Defined.


Section RebuildLoaded.
Variable env : Env.
Variable embedder_other : Embedder -> list (option json) -> Result Tensor.
Variable p : Embedder.
Hypothesis p_rows : row_per_text p.

(** The loop of [rebuildAllEmbeddings] from batch [k] on. *)
Lemma rebuild_batches_loaded m : forall k w,
  embedder (st w) = Some p ->
  Forall (fun c => has_text c = true) (chunks (st w)) ->
  Forall (fun c => embedded c = true) (take (k * BATCH) (chunks (st w))) ->
  exists cs',
    rebuild_batches env embedder_other (map (fun b => (b * BATCH)%nat) (seq k m)) w
      = (Ok tt, snd (rebuild_batches env embedder_other
                       (map (fun b => (b * BATCH)%nat) (seq k m)) w)) /\
    st (snd (rebuild_batches env embedder_other
               (map (fun b => (b * BATCH)%nat) (seq k m)) w)) = set_chunks cs' (st w) /\
    map props cs' = map props (chunks (st w)) /\
    Forall (fun c => embedded c = true) (take ((k + m) * BATCH) cs').
Proof.
  induction m as [|m IH]; intros k w He Ht Hpre.
  - exists (chunks (st w)). rewrite Nat.add_0_r.
    cbn [seq map rebuild_batches mret M_ret ret fst snd].
    split; [reflexivity|]. split; [destruct (st w); reflexivity|]. split; [reflexivity|exact Hpre].
  - cbn [seq map rebuild_batches].
    destruct (embed_batch_loaded env embedder_other p p_rows (k * BATCH) (chunks (st w)) w He Ht)
      as (vecs & Hb & Hlen).
    set (cs1 := take (k * BATCH) (chunks (st w))
                  ++ assign_embeddings (take BATCH (drop (k * BATCH) (chunks (st w)))) vecs
                  ++ drop (k * BATCH + BATCH) (chunks (st w))) in *.
    assert (Hprops : map props cs1 = map props (chunks (st w))) by apply embed_batch_props_eq.
    erewrite bind_Ok by reflexivity. cbv beta.
    erewrite bind_Ok by exact Hb.
    erewrite bind_Ok by reflexivity. cbv zeta.
    erewrite bind_Ok by reflexivity.
    match goal with
    | |- context [rebuild_batches _ _ _ ?W] =>
      destruct (IH (S k) W) as (cs' & Hrun & Hst & Hp' & Hemb)
    end.
    + exact He.
    + apply (has_text_props (chunks (st w)) cs1 Hprops Ht).
    + cbn [st with_ui with_st chunks set_chunks].
      change (S k * BATCH)%nat with (BATCH + k * BATCH)%nat. rewrite Nat.add_comm.
      apply embedded_prefix_step; [exact Hpre|lia].
    + exists cs'. split; [exact Hrun|]. split; [rewrite Hst; reflexivity|].
      split; [cbn [st with_ui with_st chunks set_chunks] in Hp'; congruence|].
      replace (k + S m)%nat with (S k + m)%nat by lia. exact Hemb.
Qed.

(** X25.  With an embedder loaded that answers one row
    per text, chunks that all carry a string text and a store key, and a
    store that does not reject the write of the chunks,
    [rebuildAllEmbeddings] returns, every chunk has an embedding afterwards
    (its other properties unchanged), the chunk store received every chunk,
    the status reads "전체 재인덱싱 완료" and the progress bar is back at 0. *)
Theorem rebuildAllEmbeddings_embeds_all (w : World) :
  embedder (st w) = Some p ->
  chunks (st w) <> [] ->
  Forall (fun c => has_text c = true) (chunks (st w)) ->
  Forall (fun c => has_key c = true) (chunks (st w)) ->
  accepts env (PUT_REQUESTS STORE_CHUNKS) ->
  let r := rebuildAllEmbeddings env embedder_other w in
  fst r = Ok tt /\
  map props (chunks (st (snd r))) = map props (chunks (st w)) /\
  Forall (fun c => embedded c = true) (chunks (st (snd r))) /\
  put_all chunk_key (chunks (st (snd r))) (db_chunks (db w))
    = (Ok tt, db_chunks (db (snd r))) /\
  status (ui (snd r)) = js "전체 재인덱싱 완료" /\
  progress (ui (snd r)) = clamp01 0.
Proof.
  intros He Hc Ht Hk Hac. cbv zeta.
  change (wp (rebuildAllEmbeddings env embedder_other)
    (fun r w' => r = Ok tt /\
       map props (chunks (st w')) = map props (chunks (st w)) /\
       Forall (fun c => embedded c = true) (chunks (st w')) /\
       put_all chunk_key (chunks (st w')) (db_chunks (db w)) = (Ok tt, db_chunks (db w')) /\
       status (ui w') = js "전체 재인덱싱 완료" /\
       progress (ui w') = clamp01 0) w).
  unfold rebuildAllEmbeddings. wp_run.
  destruct (Nat.eqb_spec (length (chunks (st w))) 0) as [Hz|_].
  { destruct (chunks (st w)); [contradiction|discriminate]. }
  clear Hc.
  wp_focus. unfold wp at 1. rewrite ensureEmbedder_loaded by (rewrite He; discriminate).
  cbn [fst snd]. do 2 wp_run. wp_focus. unfold wp at 1. unfold batch_starts.
  match goal with
  | |- context [rebuild_batches _ _ ?s ?W] =>
    destruct (rebuild_batches_loaded ((length (chunks (st w)) + BATCH - 1) / BATCH) 0 W)
      as (cs' & Hrun & Hst & Hprops & Hemb);
    [exact He|exact Ht|exact (Forall_nil_2 _)|];
    pose proof (records_kept_rebuild_batches env embedder_other s W) as (_ & _ & _ & Hdb & _);
    cbn [db with_ui] in Hdb;
    rewrite Hrun; set (w2 := snd (rebuild_batches env embedder_other s W)) in *; clearbody w2
  end.
  cbn [fst snd].
  cbn [st with_ui chunks] in Hst, Hprops.
  assert (Hcs : chunks (st w2) = cs') by (rewrite Hst; reflexivity).
  assert (Hlen : length cs' = length (chunks (st w))).
  { rewrite <- (length_map props cs'), Hprops, length_map. reflexivity. }
  rewrite take_ge in Hemb by (rewrite Hlen; apply batch_starts_cover).
  wp_run. rewrite Hcs. wp_focus. unfold wp at 1.
  rewrite (dbPutMany_chunks_eq env _ _ Hac). cbn [fst snd].
  pose proof (put_all_ok chunk_key cs' (db_chunks (db w2))
                (has_key_props (chunks (st w)) cs' Hprops Hk)) as Hput.
  rewrite Hput. do 2 wp_run. unfold wp. cbn [refreshStats modify fst snd].
  cbn [st ui db with_ui with_db chunks db_chunks status progress set_stats set_status
       set_progress].
  rewrite Hcs. split; [reflexivity|]. split; [exact Hprops|]. split; [exact Hemb|].
  split; [|split; reflexivity].
  rewrite <- Hdb, <- Hput. apply surjective_pairing.
Qed.

End RebuildLoaded.

Lemma demo_embedder_rows : row_per_text demo_embedder.
Proof. intros texts. eexists. split; reflexivity. Qed.

Lemma rebuildAllEmbeddings_embeds_all_witness :
  row_per_text demo_embedder /\
  embedder (st loaded_world) = Some demo_embedder /\
  chunks (st loaded_world) <> [] /\
  Forall (fun c => has_text c = true) (chunks (st loaded_world)) /\
  Forall (fun c => has_key c = true) (chunks (st loaded_world)) /\
  accepts demo_env (PUT_REQUESTS STORE_CHUNKS) /\
  let r := rebuildAllEmbeddings demo_env no_other loaded_world in
  fst r = Ok tt /\
  map props (chunks (st (snd r))) = map props (chunks (st loaded_world)) /\
  Forall (fun c => embedded c = true) (chunks (st (snd r))) /\
  put_all chunk_key (chunks (st (snd r))) (db_chunks (db loaded_world))
    = (Ok tt, db_chunks (db (snd r))) /\
  status (ui (snd r)) = js "전체 재인덱싱 완료" /\
  progress (ui (snd r)) = clamp01 0.
Proof.
  split; [exact demo_embedder_rows|]. split; [reflexivity|]. split; [discriminate|].
  split; [repeat constructor|]. split; [repeat constructor|].
  split; [repeat constructor|].
  apply (rebuildAllEmbeddings_embeds_all demo_env no_other demo_embedder demo_embedder_rows
           loaded_world).
  - reflexivity.
  - discriminate.
  - repeat constructor.
  - repeat constructor.
  - repeat constructor.
Defined.

(** ** Chunk ids *)

Lemma new_chunk_key docId name pageNo c piece :
  chunk_key (new_chunk docId name pageNo c piece)
  = Some (JStr (docId ++ js "|p" ++ dec (N.of_nat pageNo) ++ js "|c" ++ dec (N.of_nat c))).
Proof. reflexivity. Qed.

(** The id template is injective in the page number and the piece number. *)
Lemma chunk_id_inj (docId : jsstr) (q c q' c' : nat) :
  docId ++ js "|p" ++ dec (N.of_nat q) ++ js "|c" ++ dec (N.of_nat c)
  = docId ++ js "|p" ++ dec (N.of_nat q') ++ js "|c" ++ dec (N.of_nat c') ->
  q = q' /\ c = c'.
Proof.
  intros H. apply app_inv_head in H. apply app_inv_head in H.
  destruct (dec_spec (N.of_nat q)) as [[_ Hq] _].
  destruct (dec_spec (N.of_nat q')) as [[_ Hq'] _].
  assert (Hs : span_digits (dec (N.of_nat q) ++ js "|c" ++ dec (N.of_nat c))
               = span_digits (dec (N.of_nat q') ++ js "|c" ++ dec (N.of_nat c')))
    by (rewrite H; reflexivity).
  change (js "|c") with [124%N; 99%N] in Hs. cbn [app] in Hs.
  rewrite !span_digits_app in Hs by (assumption || reflexivity).
  injection Hs as Hd Hc.
  split; [apply Nat2N.inj, dec_inj; exact Hd|apply Nat2N.inj, dec_inj; exact Hc].
Qed.

Lemma page_chunks_keys docId name pageNo pageText x :
  x ∈ map chunk_key (page_chunks docId name pageNo pageText) ->
  exists c, x = Some (JStr (docId ++ js "|p" ++ dec (N.of_nat pageNo)
                              ++ js "|c" ++ dec (N.of_nat c))).
Proof.
  rewrite list_elem_of_fmap. intros (ch0 & -> & Hc).
  apply list_elem_of_lookup in Hc as [k Hk]. unfold page_chunks in Hk.
  rewrite list_lookup_imap in Hk.
  destruct (chunkText pageText !! k); [|discriminate]. injection Hk as <-.
  exists k. apply new_chunk_key.
Qed.

Lemma page_chunks_NoDup docId name pageNo pageText :
  NoDup (map chunk_key (page_chunks docId name pageNo pageText)).
Proof.
  apply NoDup_alt. intros i j x Hi Hj.
  rewrite list_lookup_fmap in Hi, Hj. unfold page_chunks in Hi, Hj.
  rewrite list_lookup_imap in Hi, Hj.
  destruct (chunkText pageText !! i); [|discriminate].
  destruct (chunkText pageText !! j); [|discriminate].
  cbn in Hi, Hj. rewrite <- Hj in Hi. injection Hi as Hi.
  apply chunk_id_inj in Hi as [_ Hi]. exact Hi.
Qed.

Lemma pages_chunks_NoDup docId name pages : forall i,
  NoDup (map chunk_key
           (concat (imap (fun k pageText => page_chunks docId name (i + k + 1) pageText)
                         pages))) /\
  forall x, x ∈ map chunk_key
                  (concat (imap (fun k pageText => page_chunks docId name (i + k + 1) pageText)
                                pages)) ->
    exists q c, (i < q)%nat /\
      x = Some (JStr (docId ++ js "|p" ++ dec (N.of_nat q) ++ js "|c" ++ dec (N.of_nat c))).
Proof.
  induction pages as [|t r IH]; intros i.
  - split; [constructor|]. intros x Hx. inversion Hx.
  - cbn [imap concat]. rewrite map_app.
    assert (Hext : imap ((fun k pageText => page_chunks docId name (i + k + 1) pageText) ∘ S) r
                   = imap (fun k pageText => page_chunks docId name (S i + k + 1) pageText) r).
    { apply imap_ext. intros k x _. cbn [compose]. f_equal. lia. }
    rewrite Hext. destruct (IH (S i)) as [IHn IHk]. split.
    + apply NoDup_app. split; [apply page_chunks_NoDup|]. split; [|exact IHn].
      intros x Hx Hx'. apply page_chunks_keys in Hx as [c ->].
      apply IHk in Hx' as (q & c' & Hq & E). injection E as E.
      apply chunk_id_inj in E as [E _]. lia.
    + intros x Hx. apply elem_of_app in Hx as [Hx|Hx].
      * apply page_chunks_keys in Hx as [c ->]. exists (i + 0 + 1)%nat, c.
        split; [lia|reflexivity].
      * apply IHk in Hx as (q & c & Hq & ->). exists q, c. split; [lia|reflexivity].
Qed.

(** X21.  The ids [indexFile] gives the chunks of one file
    are pairwise distinct store keys, for a text file and across the pages of
    a PDF, and the page loop of the PDF branch always returns. *)
Theorem indexFile_chunk_keys_distinct (docId name text : jsstr) (numPages : nat)
    (pages : list jsstr) (w : World) :
  NoDup (map chunk_key (page_chunks docId name 1 text)) /\
  exists made,
    fst (pdf_pages docId name numPages 0 pages [] w) = Ok made /\
    NoDup (map chunk_key made) /\
    Forall (fun c => has_key c = true) made.
Proof.
  split; [apply page_chunks_NoDup|].
  eexists. split; [apply pdf_pages_result|]. cbn [app]. split.
  - apply (pages_chunks_NoDup docId name pages 0).
  - apply Forall_concat. apply Forall_forall. intros l Hl.
    apply list_elem_of_lookup in Hl as [k Hk]. rewrite list_lookup_imap in Hk.
    destruct (pages !! k); [|discriminate]. injection Hk as <-.
    eapply Forall_impl; [apply (page_chunks_made_for docId)|].
    intros c (_ & _ & H). exact H.
Qed.

Lemma indexFile_text_file_witness :
  row_per_text demo_embedder /\
  endsWith (ascii_lower (file_name demo_file)) (js ".pdf")
    || jsstr_eqb (file_type demo_file) (js "application/pdf") = false /\
  file_text demo_file = Ok (js "Alpha is the first letter. Beta is the second letter.") /\
  embedder (st loaded_world) = Some demo_embedder /\
  forallb importable_doc (docs (st loaded_world)) = true /\
  accepts demo_env (PUT_REQUESTS STORE_DOCS ++ PUT_REQUESTS STORE_CHUNKS) /\
  fits demo_env (chunkText (js "Alpha is the first letter. Beta is the second letter.")) /\
  let r := indexFile demo_env ascii_lower no_other (js "d2") demo_file loaded_world in
  fst r = Ok tt /\
  exists newChunks,
    committed (doc_record (now_iso demo_env) (js "d2") demo_file) (js "d2") newChunks
      loaded_world (snd r) /\
    map props newChunks
      = map props (page_chunks (js "d2") (file_name demo_file) 1
                     (js "Alpha is the first letter. Beta is the second letter.")) /\
    Forall (fun c => embedded c = true) newChunks /\
    chat (ui (snd r)) = chat (ui loaded_world) /\ alerts (snd r) = alerts loaded_world /\
    status (ui (snd r)) = js "완료: " ++ file_name demo_file /\
    progress (ui (snd r)) = clamp01 0.
Proof.
  split; [exact demo_embedder_rows|]. split; [vm_compute; reflexivity|].
  split; [reflexivity|]. split; [reflexivity|]. split; [vm_compute; reflexivity|].
  split; [repeat constructor|]. split; [vm_compute; discriminate|].
  apply (indexFile_text_file demo_env ascii_lower no_other demo_embedder demo_embedder_rows
           (js "d2") demo_file (js "Alpha is the first letter. Beta is the second letter.")
           loaded_world).
  - vm_compute. reflexivity.
  - reflexivity.
  - reflexivity.
  - vm_compute. reflexivity.
  - repeat constructor.
  - vm_compute. discriminate.
Defined.

Section IndexFileShort.
Variable env : Env.
Variable toLowerCase : jsstr -> jsstr.
Variable embedder_other : Embedder -> list (option json) -> Result Tensor.

(** X22.  A readable text file whose normalized text has fewer than
    30 code units is still added: with an embedder loaded (whatever it would
    answer), a document list that can be shown and a store that rejects
    neither write, [indexFile] returns, the document record is appended and
    stored, and the chunk list and the chunk store are unchanged. *)
Theorem indexFile_short_text (docId : jsstr) (file : File) (text : jsstr) (w : World) :
  endsWith (toLowerCase (file_name file)) (js ".pdf")
    || jsstr_eqb (file_type file) (js "application/pdf") = false ->
  file_text file = Ok text ->
  (length (normalizeText text) < 30)%nat ->
  embedder (st w) <> None ->
  forallb importable_doc (docs (st w)) = true ->
  accepts env (PUT_REQUESTS STORE_DOCS ++ PUT_REQUESTS STORE_CHUNKS) ->
  let r := indexFile env toLowerCase embedder_other docId file w in
  fst r = Ok tt /\
  docs (st (snd r)) = docs (st w) ++ [doc_record (now_iso env) docId file] /\
  chunks (st (snd r)) = chunks (st w) /\
  db_docs (db (snd r))
    = store_put (JStr docId) (doc_record (now_iso env) docId file) (db_docs (db w)) /\
  db_chunks (db (snd r)) = db_chunks (db w).
Proof.
  intros Hkind Hfile Hshort He Hdocs Hacc. cbv zeta.
  apply accepts_app in Hacc as [Had Hac].
  change (wp (indexFile env toLowerCase embedder_other docId file)
    (fun r w' => r = Ok tt /\
       docs (st w') = docs (st w) ++ [doc_record (now_iso env) docId file] /\
       chunks (st w') = chunks (st w) /\
       db_docs (db w')
         = store_put (JStr docId) (doc_record (now_iso env) docId file) (db_docs (db w)) /\
       db_chunks (db w') = db_chunks (db w)) w).
  unfold indexFile. cbv zeta. rewrite Hkind.
  wp_focus. unfold wp at 1. rewrite ensureEmbedder_loaded by exact He.
  cbn [fst snd].
  do 2 wp_run. wp_run. rewrite Hfile. cbv beta iota.
  assert (Hnone : page_chunks docId (file_name file) 1 text = []).
  { unfold page_chunks. rewrite (chunkText_nil_of_short text Hshort). reflexivity. }
  rewrite Hnone.
  do 3 wp_run. wp_run. cbn [length]. unfold batch_starts.
  change ((0 + BATCH - 1) / BATCH)%nat with 0%nat. cbn [seq map embed_new_chunks].
  wp_run. wp_run. wp_run.
  rewrite (call_args_fits env (@nil Chunk)) by (unfold fits; cbn [length]; lia).
  cbv beta iota.
  wp_run. wp_focus. unfold wp at 1.
  rewrite (dbPutMany_docs_one env _ (JStr docId) _ Had) by reflexivity. cbn [fst snd].
  wp_focus. unfold wp at 1. rewrite (dbPutMany_chunks_eq env _ _ Hac). cbn [put_all fst snd].
  do 2 wp_run. wp_focus. unfold wp at 1.
  match goal with
  | |- context [renderDocs ?W] =>
    destruct (renderDocs_ok W) as [x Hx]
  end.
  { cbn [st with_ui with_db with_st docs set_docs set_chunks].
    rewrite forallb_app, Hdocs. reflexivity. }
  rewrite Hx. cbn [fst snd]. unfold wp. cbn [refreshStats modify fst snd].
  cbn [st db with_ui with_st with_db docs chunks set_docs set_chunks db_docs db_chunks].
  rewrite app_nil_r. repeat split; reflexivity.
Qed.

End IndexFileShort.

Lemma indexFile_short_text_witness :
  endsWith (ascii_lower (js "memo.txt")) (js ".pdf")
    || jsstr_eqb (js "text/plain") (js "application/pdf") = false /\
  (length (normalizeText (js "  too short to index  ")) < 30)%nat /\
  embedder (st loaded_world) <> None /\
  forallb importable_doc (docs (st loaded_world)) = true /\
  accepts demo_env (PUT_REQUESTS STORE_DOCS ++ PUT_REQUESTS STORE_CHUNKS) /\
  let file := mkFile (js "memo.txt") (js "text/plain") 22
                (Ok (js "  too short to index  ")) (Throw SyntaxError) in
  let r := indexFile demo_env ascii_lower no_other (js "d3") file loaded_world in
  fst r = Ok tt /\
  docs (st (snd r)) = docs (st loaded_world) ++ [doc_record (now_iso demo_env) (js "d3") file] /\
  chunks (st (snd r)) = chunks (st loaded_world) /\
  db_docs (db (snd r))
    = store_put (JStr (js "d3")) (doc_record (now_iso demo_env) (js "d3") file)
        (db_docs (db loaded_world)) /\
  db_chunks (db (snd r)) = db_chunks (db loaded_world).
Proof.
  split; [vm_compute; reflexivity|]. split; [vm_compute; lia|].
  split; [discriminate|]. split; [vm_compute; reflexivity|].
  split; [repeat constructor|].
  apply (indexFile_short_text demo_env ascii_lower no_other (js "d3")
           (mkFile (js "memo.txt") (js "text/plain") 22
              (Ok (js "  too short to index  ")) (Throw SyntaxError))
           (js "  too short to index  ") loaded_world).
  - vm_compute. reflexivity.
  - reflexivity.
  - vm_compute. lia.
  - discriminate.
  - vm_compute. reflexivity.
  - repeat constructor.
Defined.

(** ** Export *)

(** Writing and reading a value a second time changes nothing more. *)
Lemma json_roundtrip_idem : forall v, json_roundtrip (json_roundtrip v) = json_roundtrip v.
Proof.
  fix IH 1. intros [| b | q | | n | s | l | ms]; cbn [json_roundtrip]; try reflexivity.
  - f_equal. rewrite map_map.
    induction l as [|x r IHr]; [reflexivity|]. cbn [map]. rewrite IH, IHr. reflexivity.
  - f_equal.
    induction ms as [|[k x] r IHr]; [reflexivity|]. cbn [map fst snd].
    rewrite IH, IHr. reflexivity.
Qed.

Lemma stringify_literal_roundtrip ms :
  stringify_literal (map (fun kv => (fst kv, option_map json_roundtrip (snd kv))) ms)
  = json_roundtrip (stringify_literal ms).
Proof.
  unfold stringify_literal. cbn [json_roundtrip]. f_equal.
  induction ms as [|[k [v|]] r IH]; [reflexivity| |].
  - cbn [map omap list_omap fst snd option_map]. f_equal. exact IH.
  - cbn [map omap list_omap fst snd option_map]. exact IH.
Qed.

(** The object exported for a chunk that was read from an export file. *)
Lemma export_chunk_reimported c :
  json_roundtrip
    (stringify_literal
       (export_chunk (raw_chunk (json_roundtrip (stringify_literal (export_chunk c))))))
  = json_roundtrip (stringify_literal (export_chunk c)).
Proof.
  unfold export_chunk at 1.
  rewrite !raw_chunk_export_chunk by (unfold exported_fields; set_solver).
  change [(js "id", option_map json_roundtrip (chunk_get c (js "id")));
          (js "docId", option_map json_roundtrip (chunk_get c (js "docId")));
          (js "docName", option_map json_roundtrip (chunk_get c (js "docName")));
          (js "page", option_map json_roundtrip (chunk_get c (js "page")));
          (js "text", option_map json_roundtrip (chunk_get c (js "text")))]
    with (map (fun kv : jsstr * option json => (fst kv, option_map json_roundtrip (snd kv)))
              (export_chunk c)).
  rewrite stringify_literal_roundtrip. apply json_roundtrip_idem.
Qed.

Section ExportFacts.
Variable env : Env.

(** X26.  Export, import the file where the store can be cleared
    and where a call takes as many arguments as there are documents and as
    there are chunks, and export again: the second file has the same [docs]
    and the same [chunks] arrays as the first, from whatever page the import
    starts, whether or not the store takes the writes of the import, and
    whenever the second export is made. *)
Theorem reexport_same_records (env' env'' : Env) (s : State) (w0 : World) :
  accepts env' CLEAR_REQUESTS ->
  fits env' (docs s) ->
  fits env' (chunks s) ->
  let payload := export_payload env s in
  let w1 := snd (importJSON env' (Json payload) w0) in
  get (export_payload env'' (st w1)) (js "docs") = get payload (js "docs") /\
  get (export_payload env'' (st w1)) (js "chunks") = get payload (js "chunks").
Proof.
  intros Hclear Hds Hcs. cbv zeta.
  rewrite (importJSON_arrays env' (export_payload env s) (map json_roundtrip (docs s))
             (map (fun c => json_roundtrip (stringify_literal (export_chunk c))) (chunks s)) w0)
    by first [reflexivity | exact Hclear | unfold fits in *; rewrite length_map; assumption].
  rewrite keeps_st_import_commit. cbn [st import_replaced docs chunks].
  unfold export_payload, get.
  change (assoc (js "docs") ?l) with (assoc (js "docs") l).
  split.
  - cbn -[json_roundtrip map]. do 2 f_equal. rewrite map_map. apply map_ext.
    intros d. apply json_roundtrip_idem.
  - cbn -[json_roundtrip map stringify_literal export_chunk raw_chunk]. do 2 f_equal.
    rewrite !map_map. apply map_ext. intros c. apply export_chunk_reimported.
Qed.

End ExportFacts.

Lemma reexport_same_records_witness :
  accepts demo_env CLEAR_REQUESTS /\
  fits demo_env (docs (st imported_world)) /\
  fits demo_env (chunks (st imported_world)) /\
  let payload := export_payload demo_env (st imported_world) in
  let w1 := snd (importJSON demo_env (Json payload) empty_world) in
  get (export_payload demo_env (st w1)) (js "docs") = get payload (js "docs") /\
  get (export_payload demo_env (st w1)) (js "chunks") = get payload (js "chunks").
Proof.
  split; [repeat constructor|].
  split; [vm_compute; discriminate|]. split; [vm_compute; discriminate|].
  apply (reexport_same_records demo_env demo_env demo_env (st imported_world) empty_world).
  - repeat constructor.
  - vm_compute. discriminate.
  - vm_compute. discriminate.
Defined.

Lemma assoc_Some_key {A} k (ms : list (jsstr * A)) v :
  assoc k ms = Some v -> k ∈ map fst ms.
Proof.
  induction ms as [|[k' v'] r IH]; [discriminate|].
  cbn [assoc map fst]. unfold jsstr_eqb. destruct (bool_decide_reflect (k' = k)) as [->|_].
  - intros _. left.
  - intros H. right. apply IH. exact H.
Qed.

Lemma stringify_literal_keys ms k v :
  get (stringify_literal ms) k = Some v -> k ∈ map fst ms.
Proof.
  unfold stringify_literal. cbn [get]. intros H. apply assoc_Some_key in H.
  apply list_elem_of_fmap in H as ([k' v'] & -> & H).
  apply list_elem_of_omap in H as ([k0 [v0|]] & H0 & E); [|discriminate].
  injection E as <- <-. apply list_elem_of_fmap. exists (k0, Some v0). auto.
Qed.

Section ExportFields.
Variable env : Env.

(** X27.  [exportJSON] returns and changes nothing but the downloads,
    to which it adds one file; the [chunks] array of that file has one object
    per chunk, and none of these objects has a property other than [id],
    [docId], [docName], [page] and [text]: embeddings are never exported. *)
Theorem exportJSON_fields (w : World) :
  let r := exportJSON env w in
  fst r = Ok tt /\
  st (snd r) = st w /\ ui (snd r) = ui w /\ db (snd r) = db w /\ alerts (snd r) = alerts w /\
  exists fname payload items,
    downloads (snd r) = downloads w ++ [(fname, payload)] /\
    get payload (js "chunks") = Some (JArr items) /\
    length items = length (chunks (st w)) /\
    Forall (fun x => forall k v, get x k = Some v -> k ∈ exported_fields) items.
Proof.
  cbv zeta. unfold exportJSON.
  erewrite bind_Ok by reflexivity. cbv beta.
  unfold downloadText, modify. cbn [fst snd st ui db alerts downloads].
  repeat (split; [reflexivity|]).
  eexists _, _, _. split; [reflexivity|]. split; [reflexivity|].
  split; [apply length_map|].
  apply Forall_forall. intros x Hx. apply list_elem_of_fmap in Hx as (c & -> & _).
  intros k v H. unfold stringify_literal in H. cbn [json_roundtrip get] in H.
  rewrite assoc_map_values in H.
  destruct (assoc k _) as [v'|] eqn:Hk in H; [|discriminate].
  apply (stringify_literal_keys (export_chunk c) k v'). exact Hk.
Qed.

End ExportFields.

(** ** Retrieval size *)

(** X28.  [retrieveTopChunks] returns six entries, or as many
    as there are chunks with an embedding when these are fewer than six. *)
Theorem retrieveTopChunks_length (chunks : list Chunk) (q : vec) :
  length (retrieveTopChunks chunks q)
  = Nat.min 6 (length (filter (fun c => embedding c <> None) chunks)).
Proof.
  unfold retrieveTopChunks, topKByScore.
  rewrite array_slice0_nonneg by (unfold TOP_K; lia).
  change (Z.to_nat TOP_K) with 6%nat. rewrite length_take.
  rewrite (Permutation_length (array_sort_perm by_score_desc (scored_chunks chunks q))).
  rewrite <- (length_map ch (scored_chunks chunks q)), scored_chunks_order. reflexivity.
Qed.

(** ** The progress bar *)

Lemma range_kept {A} (m : M A) :
  (forall w, progress (ui (snd (m w))) = progress (ui w)) ->
  preserves (hands_on progress_in_range) m.
Proof. intros H w Hw. unfold progress_in_range. rewrite H. exact Hw. Qed.

Lemma range_setProgress v : preserves (hands_on progress_in_range) (setProgress v).
Proof. intros w _. apply clamp01_range. Qed.

Lemma range_modify_ui f :
  (forall v, progress (f v) = progress v) ->
  preserves (hands_on progress_in_range) (modify (with_ui f)).
Proof. intros Hf. apply range_kept. intros w. apply Hf. Qed.

Lemma range_modify_st f : preserves (hands_on progress_in_range) (modify (with_st f)).
Proof. apply range_kept. reflexivity. Qed.

Lemma range_modify_db f : preserves (hands_on progress_in_range) (modify (with_db f)).
Proof. apply range_kept. reflexivity. Qed.

Lemma range_alert msg : preserves (hands_on progress_in_range) (alert msg).
Proof. apply range_kept. reflexivity. Qed.

Lemma range_downloadText f t : preserves (hands_on progress_in_range) (downloadText f t).
Proof. apply range_kept. reflexivity. Qed.

Lemma range_refreshStats : preserves (hands_on progress_in_range) refreshStats.
Proof. apply range_kept. reflexivity. Qed.

Lemma range_addMessage role text :
  preserves (hands_on progress_in_range) (addMessage role text).
Proof. apply range_kept. reflexivity. Qed.

Lemma range_dbPutMany_docs env objs :
  preserves (hands_on progress_in_range) (dbPutMany_docs env objs).
Proof.
  apply range_kept. intros w.
  destruct (dbPutMany_docs_cases env objs w) as [-> | ->]; reflexivity.
Qed.

Lemma range_dbPutMany_chunks env objs :
  preserves (hands_on progress_in_range) (dbPutMany_chunks env objs).
Proof.
  apply range_kept. intros w.
  destruct (dbPutMany_chunks_cases env objs w) as [-> | ->]; reflexivity.
Qed.

Lemma range_dbClearAll env : preserves (hands_on progress_in_range) (dbClearAll env).
Proof.
  apply range_kept. intros w.
  destruct (dbClearAll_frame env w) as (_ & -> & _). reflexivity.
Qed.

#[local] Hint Resolve range_setProgress range_modify_st range_modify_db range_alert
  range_downloadText range_refreshStats range_addMessage range_dbPutMany_docs
  range_dbPutMany_chunks range_dbClearAll : frame.
#[local] Hint Extern 1 (preserves (hands_on progress_in_range) (modify (with_ui _))) =>
  apply range_modify_ui; intros ?; reflexivity : frame.
#[local] Hint Extern 1 (preserves (hands_on progress_in_range) (setStatus _)) =>
  apply range_modify_ui; intros ?; reflexivity : frame.
#[local] Hint Extern 1 (preserves (hands_on progress_in_range) (set_bubble _ _)) =>
  apply range_modify_ui; intros ?; reflexivity : frame.
#[local] Hint Extern 1 (preserves (hands_on progress_in_range) (set_meta _ _)) =>
  apply range_modify_ui; intros ?; reflexivity : frame.

Section ProgressRange.
Variable env : Env.
Variable toLowerCase : jsstr -> jsstr.
Variable embedder_other : Embedder -> list (option json) -> Result Tensor.

Lemma range_ensureEmbedder : preserves (hands_on progress_in_range) (ensureEmbedder env).
Proof. unfold ensureEmbedder. frame. Qed.

#[local] Hint Resolve range_ensureEmbedder : frame.

Lemma range_embedTexts texts : preserves (hands_on progress_in_range) (embedTexts env texts).
Proof. unfold embedTexts. frame. Qed.

Lemma range_embed_batch i cs :
  preserves (hands_on progress_in_range) (embed_batch env embedder_other i cs).
Proof. unfold embed_batch, embedTexts_values. frame. Qed.

Lemma range_renderDocs : preserves (hands_on progress_in_range) renderDocs.
Proof. unfold renderDocs. frame. Qed.

#[local] Hint Resolve range_embedTexts range_embed_batch range_renderDocs : frame.

Lemma range_consume_deltas el ds failure : forall answer,
  preserves (hands_on progress_in_range) (consume_deltas el ds failure answer).
Proof.
  induction ds as [|d r IH]; intros answer; cbn [consume_deltas];
    [destruct failure; frame|].
  destruct d as [[|c cs]|]; [apply IH| |apply IH].
  apply preserves_bind; [eauto with frame|frame|intros _; apply IH].
Qed.

Lemma range_pdf_pages docId name numPages pages : forall i acc,
  preserves (hands_on progress_in_range) (pdf_pages docId name numPages i pages acc).
Proof.
  induction pages as [|t r IH]; intros i acc; cbn [pdf_pages]; [frame|].
  cbv zeta. apply preserves_bind; [eauto with frame|frame|intros _].
  apply preserves_bind; [eauto with frame|frame|intros _]. apply IH.
Qed.

Lemma range_embed_new_chunks starts : forall cs,
  preserves (hands_on progress_in_range) (embed_new_chunks env embedder_other starts cs).
Proof.
  induction starts as [|i r IH]; intros cs; cbn [embed_new_chunks]; [frame|].
  apply preserves_bind; [eauto with frame|frame|intros cs'].
  cbv zeta. apply preserves_bind; [eauto with frame|frame|intros _]. apply IH.
Qed.

Lemma range_rebuild_batches starts :
  preserves (hands_on progress_in_range) (rebuild_batches env embedder_other starts).
Proof.
  induction starts as [|i r IH]; cbn [rebuild_batches]; [frame|].
  apply preserves_bind; [eauto with frame|frame|intros cs].
  apply preserves_bind; [eauto with frame|frame|intros cs'].
  apply preserves_bind; [eauto with frame|frame|intros _].
  cbv zeta. apply preserves_bind; [eauto with frame|frame|intros _]. apply IH.
Qed.

#[local] Hint Resolve range_consume_deltas range_pdf_pages range_embed_new_chunks
  range_rebuild_batches : frame.

Lemma range_ask q strict showContext :
  preserves (hands_on progress_in_range) (ask env q strict showContext).
Proof. unfold ask. destruct (trim q); frame. Qed.

Lemma range_indexFile docId file :
  preserves (hands_on progress_in_range)
    (indexFile env toLowerCase embedder_other docId file).
Proof. unfold indexFile. frame. Qed.

Lemma range_rebuildAllEmbeddings :
  preserves (hands_on progress_in_range) (rebuildAllEmbeddings env embedder_other).
Proof. unfold rebuildAllEmbeddings. frame. Qed.

Lemma range_importJSON file : preserves (hands_on progress_in_range) (importJSON env file).
Proof. unfold importJSON. frame. Qed.

Lemma range_exportJSON : preserves (hands_on progress_in_range) (exportJSON env).
Proof. unfold exportJSON. frame. Qed.

(** X29.  A progress bar that shows a value between 0 and 1 still
    does so after [ask], [indexFile], [rebuildAllEmbeddings], [importJSON] and
    [exportJSON], however they end. *)
Theorem progress_stays_in_range (w : World) :
  progress_in_range w ->
  (forall q strict showContext,
     progress_in_range (snd (ask env q strict showContext w))) /\
  (forall docId file,
     progress_in_range (snd (indexFile env toLowerCase embedder_other docId file w))) /\
  progress_in_range (snd (rebuildAllEmbeddings env embedder_other w)) /\
  (forall file, progress_in_range (snd (importJSON env file w))) /\
  progress_in_range (snd (exportJSON env w)).
Proof.
  intros Hw. split; [|split; [|split; [|split]]].
  - intros q strict showContext. apply range_ask. exact Hw.
  - intros docId file. apply range_indexFile. exact Hw.
  - apply range_rebuildAllEmbeddings. exact Hw.
  - intros file. apply range_importJSON. exact Hw.
  - apply range_exportJSON. exact Hw.
Qed.

End ProgressRange.

Lemma progress_stays_in_range_witness :
  progress_in_range imported_world /\
  (forall q strict showContext,
     progress_in_range (snd (ask demo_env q strict showContext imported_world))) /\
  (forall docId file,
     progress_in_range (snd (indexFile demo_env ascii_lower no_other docId file imported_world))) /\
  progress_in_range (snd (rebuildAllEmbeddings demo_env no_other imported_world)) /\
  (forall file, progress_in_range (snd (importJSON demo_env file imported_world))) /\
  progress_in_range (snd (exportJSON demo_env imported_world)).
Proof.
  split; [split; discriminate|].
  apply (progress_stays_in_range demo_env ascii_lower no_other imported_world).
  split; discriminate.
Defined.

